(** * SolidEventSourcing: a shallow embedding of the event-source algorithms

    The development follows the TypeScript sources
    - [src/EventSource/src/util/Processing.ts]:
      [extractResources], [generateShape], [batchResources],
      [calculateBucket], [createBucketUrl], [prefixesFromFilepath],
      [resourceToOptimisedTurtle], [addResourcesToBuckets],
      [streamHasShape], [addShapeToLil], [addShapeToLilFromResource], and
      the base class [Publisher] with [append], [move] and [getMembers];
    - [src/EventSource/src/algorithms/Publisher.ts]:
      [SimplePublisher] with [publish], [getBucket], [_rebalance] and
      [rebalance].

    Part I holds the definitions, Part II the statements and proofs.

    Conventions of the model.  A JavaScript exception is the value [None]
    (or the outcome [Thrown]).  A loop whose number of iterations is not
    fixed beforehand takes a bound [fuel] on its iterations; when the
    bound is hit the result is [None] (or the outcome [OutOfFuel]).  The
    N3 library, the storage collaborator, the server and the JavaScript
    run time are not part of the sources: the store is modelled by its
    quads, the functions of the run time that the sources call are
    written out in the module [JS], and the remote operations are
    parameters.  A string is the sequence of the bytes of its UTF-8
    encoding; the characters the sources look for (slash, hash, double
    quote) are ASCII. *)

From Stdlib Require Import ZArith String Ascii List Permutation DecimalString.
From stdpp Require Import base option list gmap strings sets sorting.

Set Warnings "-clear-no-such-hyp".

Open Scope string_scope.
Open Scope list_scope.

(* ===================================================================== *)
(** * Part I: definitions *)
(* ===================================================================== *)

(** ** The JavaScript run-time functions the sources call *)

Module JS.

(** [s.split(c)] for a separator [c] of one character: the pieces between
    the occurrences of [c].  There is always at least one piece. *)
Fixpoint split (sep : ascii) (s : string) : list string :=
  match s with
  | EmptyString => [EmptyString]
  | String c s' =>
      if decide (c = sep) then EmptyString :: split sep s'
      else match split sep s' with
           | piece :: pieces => String c piece :: pieces
           | [] => [String c EmptyString]
           end
  end.

(** [pieces.join(sep)] *)
Fixpoint join (sep : string) (pieces : list string) : string :=
  match pieces with
  | [] => EmptyString
  | piece :: rest =>
      match rest with
      | [] => piece
      | _ :: _ => piece +:+ sep +:+ join sep rest
      end
  end.

(** [l.slice(0, e)]: a negative [e] counts from the end. *)
Definition slice {A : Type} (l : list A) (e : Z) : list A :=
  take (Z.to_nat (if decide (e < 0)%Z then Z.max (Z.of_nat (length l) + e) 0 else e)) l.

(** The integers that are JavaScript numbers and whose text is their
    decimal notation: [Number.isSafeInteger]. *)
Definition isSafeInteger (n : Z) : Prop := (Z.abs n ≤ 2 ^ 53 - 1)%Z.

(** [String(n)] for a safe integer [n]. *)
Definition numberToString (n : Z) : string := NilZero.string_of_int (Z.to_int n).

(** A time in milliseconds as a [Date] holds it: an integer, or [NaN] for
    an invalid date. *)
Inductive Timestamp := Millis (ms : Z) | NaN.

(** [new Date(t)] for a number [t]: the time is clipped. *)
Definition timeClip (t : Timestamp) : Timestamp :=
  match t with
  | Millis ms => if decide (Z.abs ms ≤ 8640000000000000)%Z then Millis ms else NaN
  | NaN => NaN
  end.

(** A string or [undefined] inside a template literal. *)
Definition template (v : option string) : string := default "undefined" v.

(** [const [a, b] = s.split(c)]: the first piece, and the second one or
    [undefined]. *)
Definition splitPair (sep : ascii) (s : string) : string * option string :=
  match split sep s with
  | a :: rest => (a, head rest)
  | [] => (EmptyString, None)
  end.

(** The own properties of an object whose values are strings. *)
Abbreviation Object := (gmap string string).

(** [o[k] = v] for a string [v]: the assignment to [__proto__] goes to the
    setter of [Object.prototype], which ignores a value that is no object. *)
Definition setProperty (o : Object) (k v : string) : Object :=
  if decide (k = "__proto__") then o else <[ k := v ]> o.

(** The number of occurrences of a character. *)
Fixpoint occurrences (c : ascii) (s : string) : nat :=
  match s with
  | EmptyString => 0
  | String c' s' => (if decide (c' = c) then 1 else 0) + occurrences c s'
  end.

(** The number a key stands for when it is an array index: the decimal
    notation, without a leading zero, of a number below [2^32 - 1]. *)
Definition arrayIndex (k : string) : option N :=
  digits ← NilEmpty.uint_of_string k;
  let n := N.of_uint digits in
  if decide (NilEmpty.string_of_uint (N.to_uint n) = k ∧ n < 4294967295)%N
  then Some n else None.

Definition indexBefore (a b : string) : Prop :=
  (default 0 (arrayIndex a) ≤ default 0 (arrayIndex b))%N.

#[global] Instance indexBefore_dec a b : Decision (indexBefore a b).
Proof. unfold indexBefore. apply _. Defined.

(** [for (const k in o)] on an object that inherits nothing, as the
    engines enumerate it: the keys that are array indices in ascending
    order, then the other keys in the order in which they were created.
    [created] lists the keys of the object in that order. *)
Definition ownKeys (created : list string) : list string :=
  merge_sort indexBefore (filter (λ k, is_Some (arrayIndex k)) created)
  ++ filter (λ k, arrayIndex k = None) created.

End JS.

(** ** RDF terms, quads and the N3 store *)

Module N3.

(** Terms as the [n3] library has them.  Every term carries a string [id];
    the library (and the code under study) compares terms through that id:
    [a.equals(b)] is [a.id === b.id], and maps and sets are keyed by [id]. *)
Inductive TermType := TNamedNode | TBlankNode | TLiteral | TVariable.

Inductive Term :=
| NamedNode (iri : string)
| BlankNode (label : string)
| Literal (lexical : string) (language : string) (datatype : string)
| VariableTerm (name : string).

#[global] Instance TermType_eq_dec : EqDecision TermType.
Proof. solve_decision. Defined.

#[global] Instance Term_eq_dec : EqDecision Term.
Proof. solve_decision. Defined.

Definition termType (t : Term) : TermType :=
  match t with
  | NamedNode _ => TNamedNode
  | BlankNode _ => TBlankNode
  | Literal _ _ _ => TLiteral
  | VariableTerm _ => TVariable
  end.

Definition quote : string := String "034" EmptyString.
Definition xsd_string : string := "http://www.w3.org/2001/XMLSchema#string".
Definition xsd_integer : string := "http://www.w3.org/2001/XMLSchema#integer".

Definition id (t : Term) : string :=
  match t with
  | NamedNode iri => iri
  | BlankNode label => "_:" +:+ label
  | Literal lexical language datatype =>
      quote +:+ lexical +:+ quote +:+
      (if decide (language = EmptyString)
       then (if decide (datatype = xsd_string) then EmptyString else "^^" +:+ datatype)
       else "@" +:+ language)
  | VariableTerm name => "?" +:+ name
  end.

Definition value (t : Term) : string :=
  match t with
  | NamedNode iri => iri
  | BlankNode label => label
  | Literal lexical _ _ => lexical
  | VariableTerm name => name
  end.

Inductive Graph := DefaultGraph | NamedGraph (g : Term).

Definition graphId (g : Graph) : string :=
  match g with DefaultGraph => EmptyString | NamedGraph t => id t end.

Record Quad := mkQuad {
  subject : Term;
  predicate : Term;
  object : Term;
  graph : Graph
}.

#[global] Instance Graph_eq_dec : EqDecision Graph.
Proof. solve_decision. Defined.

#[global] Instance Quad_eq_dec : EqDecision Quad.
Proof. solve_decision. Defined.

(** [new Quad(s, p, o)]: the graph defaults to the default graph. *)
Definition quad (s p o : Term) : Quad := mkQuad s p o DefaultGraph.

(** [DataFactory.literal(n)] for a non-negative integer [n]. *)
Definition literalOfNat (n : nat) : Term :=
  Literal (NilEmpty.string_of_uint (Nat.to_uint n)) EmptyString xsd_integer.

(** The identity of a quad inside a store: the ids of its four components. *)
Definition quadKey (q : Quad) : string * string * string * string :=
  (id (subject q), id (predicate q), id (object q), graphId (graph q)).

(** The triple a quad asserts, whatever its graph. *)
Definition tripleKey (q : Quad) : string * string * string :=
  (id (subject q), id (predicate q), id (object q)).

(** Keeps the first element of every key; [seen] are the keys already met. *)
Fixpoint uniqueBy {A K : Type} `{EqDecision K} (key : A → K) (seen : list K) (l : list A) : list A :=
  match l with
  | [] => []
  | x :: l' =>
      if decide (key x ∈ seen) then uniqueBy key seen l'
      else x :: uniqueBy key (key x :: seen) l'
  end.

(** A store is a set of quads.  It is represented by the list of its
    distinct quads, in the order in which they were added.  [getQuads],
    [getSubjects] and [getObjects] list what they find in that order,
    which stands for the order of the library where it decides no more
    than the order of a result or a count.  Where it decides which of two
    entries of a map is written last ([generateShape],
    [prefixesFromFilepath]), the index that the library reads is written
    out ([getQuadsByPredicate]). *)
Abbreviation Store := (list Quad).

(** [new Store(quads)] *)
Definition newStore (quads : list Quad) : Store := uniqueBy quadKey [] quads.

(** A pattern position of [getQuads]: [null] or the id looked for. *)
Definition matches (pattern : option string) (t : Term) : Prop :=
  match pattern with None => True | Some i => id t = i end.

#[global] Instance matches_dec pattern t : Decision (matches pattern t).
Proof. destruct pattern; simpl; apply _. Defined.

(** [store.getQuads(s, p, o, null)] *)
Definition getQuads (store : Store) (s p o : option string) : list Quad :=
  filter (λ q, matches s (subject q) ∧ matches p (predicate q) ∧ matches o (object q)) store.

(** [store.getSubjects(p, null, null)]: the distinct subjects. *)
Definition getSubjects (store : Store) (p : string) : list Term :=
  uniqueBy id [] (map subject (getQuads store None (Some p) None)).

(** [store.getObjects(s, p, null)]: the distinct objects. *)
Definition getObjects (store : Store) (s p : string) : list Term :=
  uniqueBy id [] (map object (getQuads store (Some s) (Some p) None)).

(** The store numbers the ids of the terms as it meets them (the subject,
    the predicate and the object of every quad it is given, in turn) and
    keys its indexes by these numbers, so that an index is enumerated in
    the order of [entities]. *)
Definition entities (store : Store) : list string :=
  uniqueBy (λ i, i) []
    (flat_map (λ q, [id (subject q); id (predicate q); id (object q)]) store).

(** The graphs of the store are the keys of an object. *)
Definition graphs (store : Store) : list string :=
  JS.ownKeys (uniqueBy (λ g, g) [] (map (λ q, graphId (graph q)) store)).

(** [store.getQuads(null, p, null, null)] reads the predicate index of
    every graph: the objects of [p] in the order of their numbers and,
    for each object, the subjects in the order of theirs. *)
Definition getQuadsByPredicate (store : Store) (p : string) : list Quad :=
  flat_map (λ g,
    flat_map (λ o,
      flat_map (λ s,
        filter (λ q, graphId (graph q) = g ∧ id (predicate q) = p
                     ∧ id (object q) = o ∧ id (subject q) = s) store)
        (entities store))
      (entities store))
    (graphs store).

End N3.

(** The vocabulary constants the sources import. *)
Module Vocab.
Definition RDF_type : string := "http://www.w3.org/1999/02/22-rdf-syntax-ns#type".
Definition TREE_member : string := "https://w3id.org/tree#member".
Definition sh : string := "http://www.w3.org/ns/shacl#".
Definition TREE_shape : string := "https://w3id.org/tree#shape".
Definition VANN_preferredNamespacePrefix : string :=
  "http://purl.org/vocab/vann/preferredNamespacePrefix".
End Vocab.

(** ** Processing: src/EventSource/src/util/Processing.ts, lines 1 to 178 *)

Module Processing.
Import N3 Vocab.

(** [type Resource = Quad[]] *)
Abbreviation Resource := (list Quad).

(** *** extractResources *)

(** The resource as first built for a main subject: its own quads followed
    by the [tree:member] quad. *)
Definition initialResource (store : Store) (eventStreamURI : string) (subj : Term) : Resource :=
  getQuads store (Some (id subj)) None None
    ++ [quad (NamedNode eventStreamURI) (NamedNode TREE_member) subj].

(** [quads[0].subject.id] *)
Definition rootId (quads : Resource) : string :=
  match quads with
  | q0 :: _ => id (subject q0)
  | [] => EmptyString
  end.

(** The quads pushed when an object with id [objectId] is met for the first
    time: its own quads, without those that point to another main subject. *)
Definition referenced (store : Store) (mainSubjects : gset string) (root objectId : string)
    : list Quad :=
  filter (λ obj, id (object obj) = root ∨ id (object obj) ∉ mainSubjects)
         (getQuads store (Some objectId) None None).

(** [for (const quad of quads) { ... quads.push(...) }]: the iteration is
    over the array that grows, so the loop is an index [i] running until it
    reaches the current end of [quads].  [fuel] bounds the number of
    iterations; [None] means the bound was hit. *)
Fixpoint walk (fuel : nat) (store : Store) (mainSubjects : gset string)
    (quads : Resource) (i : nat) (existingObjects : gset string) : option Resource :=
  match fuel with
  | O => None
  | S fuel' =>
      match quads !! i with
      | None => Some quads
      | Some q =>
          if decide (id (object q) ∈ existingObjects)
          then walk fuel' store mainSubjects quads (S i) existingObjects
          else walk fuel' store mainSubjects
                 (quads ++ referenced store mainSubjects (rootId quads) (id (object q))) (S i)
                 ({[ id (object q) ]} ∪ existingObjects)
      end
  end.

Definition extractResources (fuel : nat) (store : Store) (treePath eventStreamURI : string)
    : option (list Resource) :=
  let mainSubjects := getSubjects store treePath in
  let resources := map (initialResource store eventStreamURI) mainSubjects in
  let mainSet : gset string := list_to_set (map id mainSubjects) in
  mapM (λ quads, walk fuel store mainSet quads 0 {[ rootId quads ]}) resources.

(** What is asked of the resource [r] extracted for the main subject [subj]:
    it holds the membership triple and every triple of the subject. *)
Definition containsOwnTriples (store : Store) (eventStreamURI : string) (subj : Term)
    (r : Resource) : Prop :=
  quad (NamedNode eventStreamURI) (NamedNode TREE_member) subj ∈ r
  ∧ ∀ q, q ∈ store → id (subject q) = id subj → q ∈ r.

(** [r] is the initial resource of [subj] followed by the quads pulled in
    for pairwise distinct object identifiers. *)
Definition visitedOnce (store : Store) (treePath eventStreamURI : string) (subj : Term)
    (r : Resource) : Prop :=
  ∃ visited : list string,
    NoDup visited
    ∧ r = initialResource store eventStreamURI subj
          ++ concat (map (referenced store (list_to_set (map id (getSubjects store treePath)))
                            (rootId (initialResource store eventStreamURI subj))) visited).

(** Every quad of the resource [r] of [subj] is the membership triple or a
    quad of the store; a quad of the store that points to another main
    subject is a quad of [subj] itself. *)
Definition onlyStoreQuads (store : Store) (treePath eventStreamURI : string) (subj : Term)
    (r : Resource) : Prop :=
  ∀ q, q ∈ r →
    q = quad (NamedNode eventStreamURI) (NamedNode TREE_member) subj
    ∨ (q ∈ store
       ∧ (id (subject q) = id subj
          ∨ id (object q) = id subj
          ∨ ∀ main, main ∈ getSubjects store treePath → id (object q) ≠ id main)).

(** The resource [r] of [subj] holds the quads of every object it mentions,
    but for those that point to another main subject. *)
Definition closedUnderReferences (store : Store) (treePath : string) (subj : Term)
    (r : Resource) : Prop :=
  ∀ q q', q ∈ r → q' ∈ store → id (subject q') = id (object q) →
    (id (object q') = id subj
     ∨ ∀ main, main ∈ getSubjects store treePath → id (object q') ≠ id main) →
    q' ∈ r.

(** A number of iterations that is always enough (see Part II). *)
Definition walkFuel (store : Store) : nat :=
  S (length store) * S (S (length store)) + 1.

(** *** generateShape *)

Definition isWordChar (c : ascii) : bool :=
  let n := nat_of_ascii c in
  (((48 <=? n) && (n <=? 57)) || ((65 <=? n) && (n <=? 90))
   || ((97 <=? n) && (n <=? 122)) || (n =? 95) || (n =? 45))%nat.

Definition isSeparator (c : ascii) : bool :=
  let n := nat_of_ascii c in ((n =? 47) || (n =? 35))%nat.

(** A line terminator of JavaScript ends here: a line feed, a carriage
    return, or U+2028 or U+2029 (the bytes E2 80 A8 and E2 80 A9).  [rev]
    holds the bytes up to and with the character, the last byte first. *)
Definition endsWithLineTerminator (rev : list ascii) : bool :=
  match rev with
  | [] => false
  | a :: rest =>
      let n := nat_of_ascii a in
      ((n =? 10) || (n =? 13)
       || (((n =? 168) || (n =? 169))
           && match rest with
              | b :: c :: _ => (nat_of_ascii b =? 128) && (nat_of_ascii c =? 226)
              | _ => false
              end))%nat
  end.

Fixpoint takeWhile {A : Type} (f : A → bool) (l : list A) : list A :=
  match l with
  | x :: l' => if f x then x :: takeWhile f l' else []
  | [] => []
  end.

(** The regular expression of [extractValue] (one or more characters, then
    a slash or a hash, then a captured run of letters, digits, underscores
    and dashes up to the end of the string).  The run that is captured is
    the longest one that ends the string; it must follow a [/] or a [#],
    and that one a character that is no line terminator (the expression
    is not anchored at the start, so that what comes before that
    character is free).  [None] is the [TypeError] raised when the match
    is [null]. *)
Definition extractValue (val : string) : option string :=
  let rev := reverse (list_ascii_of_string val) in
  let suffix := takeWhile isWordChar rev in
  match drop (length suffix) rev with
  | c :: (_ :: _) as before =>
      if isSeparator c && negb (endsWithLineTerminator before)
      then Some (string_of_list_ascii (reverse suffix))
      else None
  | _ => None
  end.

Definition nodeKinds (t : TermType) : string :=
  match t with
  | TLiteral => sh +:+ "Literal"
  | TVariable => sh +:+ "Literal"
  | TBlankNode => sh +:+ "BlankNodeOrIRI"
  | TNamedNode => sh +:+ "IRI"
  end.

(** First loop: one [sh:NodeShape] per type assertion of the store. *)
Definition typeStep (eventStreamURL : string) (acc : list Quad * gmap string Term) (q : Quad)
    : option (list Quad * gmap string Term) :=
  v ← extractValue (value (object q));
  let subj := NamedNode (eventStreamURL +:+ v +:+ "Shape") in
  Some (acc.1 ++ [quad subj (NamedNode RDF_type) (NamedNode (sh +:+ "NodeShape"));
                  quad subj (NamedNode (sh +:+ "targetClass")) (object q)],
        <[ id (subject q) := subj ]> acc.2).

(** The quads the second loop pushes for one quad of the resource. *)
Definition propertyQuads (eventStreamURL : string) (resourceStore : Store)
    (subjects : gmap string Term) (subj : Term) (q : Quad) : option (list Quad) :=
  v ← extractValue (value (predicate q));
  let obj := NamedNode (eventStreamURL +:+ v +:+ "Property") in
  Some ([quad subj (NamedNode (sh +:+ "property")) obj;
         quad obj (NamedNode RDF_type) (NamedNode (sh +:+ "propertyShape"));
         quad obj (NamedNode (sh +:+ "path")) (predicate q);
         quad obj (NamedNode (sh +:+ "nodeKind")) (NamedNode (nodeKinds (termType (object q))));
         quad obj (NamedNode (sh +:+ "minCount")) (literalOfNat 1);
         quad obj (NamedNode (sh +:+ "maxCount"))
              (literalOfNat (length (getObjects resourceStore (id (subject q)) (id (predicate q)))))]
        ++ match subjects !! id (object q) with
           | Some objNode => [quad obj (NamedNode (sh +:+ "node")) objNode]
           | None => []
           end).

Definition propertyStep (eventStreamURL : string) (resourceStore : Store)
    (subjects : gmap string Term) (shape : list Quad) (q : Quad) : option (list Quad) :=
  if decide (id (predicate q) = RDF_type) then Some shape
  else match subjects !! id (subject q) with
       | None => Some shape
       | Some subj =>
           block ← propertyQuads eventStreamURL resourceStore subjects subj q;
           Some (shape ++ block)
       end.

(** A left fold that stops at the first exception. *)
Fixpoint foldM {A B : Type} (f : B → A → option B) (b : B) (l : list A) : option B :=
  match l with
  | [] => Some b
  | x :: l' => b' ← f b x; foldM f b' l'
  end.

Definition generateShape (resource : Resource) (eventStreamURL : string) : option Resource :=
  let resourceStore := newStore resource in
  '(shape, subjects) ← foldM (typeStep eventStreamURL) ([], ∅)
                          (getQuadsByPredicate resourceStore RDF_type);
  foldM (propertyStep eventStreamURL resourceStore subjects) shape resource.

(** The distinct type assertions of a resource, as the first loop of
    [generateShape] enumerates them. *)
Definition typeAssertions (resource : Resource) : list Quad :=
  getQuadsByPredicate (newStore resource) RDF_type.

(** The type-constraint triples of a shape that target the type [T]. *)
Definition targetClassTriples (T : Term) (shape : Resource) : list Quad :=
  filter (λ q, id (predicate q) = sh +:+ "targetClass" ∧ id (object q) = id T) shape.

(** The number of distinct triples of a resource with subject [s] and
    predicate [p]. *)
Definition distinctTriples (resource : Resource) (s p : string) : nat :=
  size (list_to_set (map tripleKey
          (filter (λ q, id (subject q) = s ∧ id (predicate q) = p) resource))
        : gset (string * string * string)).

(** The strings of printing characters: the ASCII characters from the
    space to the tilde. *)
Definition printable (val : string) : Prop :=
  Forall (λ c, 32 ≤ nat_of_ascii c < 127)%nat (list_ascii_of_string val).

(** [v] is the local name of [val]: the letters, digits, underscores and
    dashes that follow the last slash or hash of [val], which is not its
    first character. *)
Definition localName (val v : string) : Prop :=
  ∃ before c,
    val = before +:+ String c v
    ∧ before ≠ EmptyString
    ∧ isSeparator c = true
    ∧ Forall (λ a, isWordChar a = true) (list_ascii_of_string v).

(** The subject of [q] has a type assertion in the resource. *)
Definition typed (resource : Resource) (q : Quad) : Prop :=
  ∃ t, t ∈ typeAssertions resource ∧ id (subject t) = id (subject q).

(** The quads of the resource that [generateShape] names a shape after:
    the type assertions, through their object, and the other quads of the
    typed subjects, through their predicate. *)
Definition namedAfter (resource : Resource) (val : string) : Prop :=
  (∃ t, t ∈ typeAssertions resource ∧ val = value (object t))
  ∨ (∃ q, q ∈ resource ∧ id (predicate q) ≠ RDF_type ∧ typed resource q
          ∧ val = value (predicate q)).

(** The types asserted in a resource: the objects of its distinct type
    assertions. *)
Definition assertedType (resource : Resource) (T : Term) : Prop :=
  ∃ t, t ∈ typeAssertions resource ∧ object t = T.

(** The [sh:targetClass] triple of the type [T], whose local name is [v]. *)
Definition targetClassTriple (eventStreamURL v : string) (T : Term) : Quad :=
  quad (NamedNode (eventStreamURL +:+ v +:+ "Shape")) (NamedNode (sh +:+ "targetClass")) T.

(** The quads of the resource that get a property constraint: those that
    are no type assertion and whose subject has a type. *)
Definition constrained (resource : Resource) (q : Quad) : Prop :=
  q ∈ resource ∧ id (predicate q) ≠ RDF_type ∧ typed resource q.

(** The node of the property constraint of a predicate whose local name
    is [v]. *)
Definition propertyNode (eventStreamURL v : string) : Term :=
  NamedNode (eventStreamURL +:+ v +:+ "Property").

(** The [sh:maxCount] triple of that node with the number of distinct
    triples of the resource that share the subject and the predicate of
    [q]. *)
Definition maxCountTriple (resource : Resource) (eventStreamURL v : string) (q : Quad) : Quad :=
  quad (propertyNode eventStreamURL v) (NamedNode (sh +:+ "maxCount"))
       (literalOfNat (distinctTriples resource (id (subject q)) (id (predicate q)))).

(** *** batchResources *)

(** [resources[k].push(...resource)]; [None] is the [TypeError] raised when
    [resources[k]] is [undefined]. *)
Definition pushAt {A : Type} (resources : list (list A)) (k : nat) (resource : list A)
    : option (list (list A)) :=
  match resources !! k with
  | Some _ => Some (alter (λ b, b ++ resource) k resources)
  | None => None
  end.

(** [for (const [i, resource] of source.entries())], from index [i] on. *)
Fixpoint batchLoop {A : Type} (count : Z) (i : nat) (source : list (list A))
    (resources : list (list A)) : option (list (list A)) :=
  match source with
  | [] => Some resources
  | resource :: rest =>
      resources' ← pushAt resources (Z.to_nat (Z.of_nat i / count)) resource;
      batchLoop count (S i) rest resources'
  end.

(** [count] is an integer here; [Math.floor(a / count)] is [a / count]. *)
Definition batchResources {A : Type} (source : list (list A)) (count : Z)
    : option (list (list A)) :=
  if decide (count < 1)%Z then Some source
  else
    resources ← batchLoop count 0 source
                  (replicate (Z.to_nat (Z.of_nat (length source) / count) + 1) []);
    match last resources with
    | Some [] => Some (removelast resources)
    | _ => Some resources
    end.

End Processing.

(** ** EventSource: src/EventSource/src/util/Processing.ts, lines 180 to 477
    (the module that the other sources import as [../util/EventSource]) *)

Module EventSource.
Import N3 Vocab.

(** *** calculateBucket *)

(** A relation of the view: [new Date(relation.value).getTime()] and
    [relation.node]. *)
Record Relation := mkRelation { relationTs : Z; node : string }.

(** The body of the [for] loop, with the two local variables as arguments. *)
Fixpoint calculateLoop (relations : list Relation) (resourceTs timestampJustSmaller : Z)
    (correspondingUrl : string) : string :=
  match relations with
  | [] => correspondingUrl
  | relation :: rest =>
      if decide (relationTs relation ≤ resourceTs ∧ timestampJustSmaller < relationTs relation)%Z
      then calculateLoop rest resourceTs (relationTs relation) (node relation)
      else calculateLoop rest resourceTs timestampJustSmaller correspondingUrl
  end.

(** [resourceTs] is [getTimeStamp(resource, metadata.timestampPath)]. *)
Definition calculateBucket (relations : list Relation) (resourceTs : Z) : string :=
  calculateLoop relations resourceTs 0 "none".

(** The relation [r] is the one the specification asks for. *)
Definition closestRelation (relations : list Relation) (ts : Z) (r : Relation) : Prop :=
  r ∈ relations ∧ (relationTs r ≤ ts)%Z
  ∧ ∀ r', r' ∈ relations → (relationTs r' ≤ ts)%Z → (relationTs r' ≤ relationTs r)%Z.

(** *** resourceToOptimisedTurtle *)

(** A JavaScript [Map] with string keys: the entries in insertion order. *)
Abbreviation JSMap V := (list (string * V)).

Fixpoint mapGet {V : Type} (k : string) (m : JSMap V) : option V :=
  match m with
  | [] => None
  | (k', v) :: m' => if decide (k' = k) then Some v else mapGet k m'
  end.

(** [m.set(k, v)]: an existing key keeps its place. *)
Fixpoint mapSet {V : Type} (k : string) (v : V) (m : JSMap V) : JSMap V :=
  match m with
  | [] => [(k, v)]
  | (k', v') :: m' => if decide (k' = k) then (k, v) :: m' else (k', v') :: mapSet k v m'
  end.

Abbreviation Properties := (JSMap (list Term)).
Abbreviation Grouping := (JSMap Properties).

(** The inner loop over [objs]: the object is pushed unless an equal one
    ([obj.equals(quad.object)], that is, the same id) is already there. *)
Definition addObject (objs : list Term) (o : Term) : list Term :=
  if decide (Exists (λ obj, id obj = id o) objs) then objs else objs ++ [o].

(** One iteration of the [addElements] loop on the map it selects. *)
Definition addToGrouping (data : Grouping) (q : Quad) : Grouping :=
  match mapGet (id (subject q)) data with
  | Some props =>
      match mapGet (id (predicate q)) props with
      | Some objs =>
          mapSet (id (subject q))
            (mapSet (id (predicate q)) (addObject objs (object q)) props) data
      | None =>
          mapSet (id (subject q)) (mapSet (id (predicate q)) [object q] props) data
      end
  | None => mapSet (id (subject q)) [(id (predicate q), [object q])] data
  end.

Record Groupings := mkGroupings { named : Grouping; blank : Grouping }.

Definition addElement (g : Groupings) (q : Quad) : Groupings :=
  if decide (termType (subject q) = TBlankNode)
  then mkGroupings (named g) (addToGrouping (blank g) q)
  else mkGroupings (addToGrouping (named g) q) (blank g).

Definition addElements (resource : list Quad) : Groupings :=
  foldl addElement (mkGroupings [] []) resource.

(** What the writer is handed as the object of a statement: a term, or the
    anonymous node [writer.blank(predicate, object)]. *)
Inductive WriterObject :=
| Plain (o : Term)
| Anonymous (blankPredicate : Term) (blankObject : Term).

(** One call [writer.addQuad(subject, predicate, object)]. *)
Record Statement := mkStatement {
  stSubject : Term;
  stPredicate : Term;
  stObject : WriterObject
}.

(** The statements written for one object of a named subject; [None] is the
    [TypeError] of iterating [blank.get(object.id)] when it is [undefined]. *)
Definition writeObject (blankNodes : Grouping) (subj pred : string) (o : Term)
    : option (list Statement) :=
  if decide (termType o = TBlankNode) then
    blankProperties ← mapGet (id o) blankNodes;
    Some (flat_map (λ '(blankPredicate, blankObjects),
                      map (λ blankObject,
                             mkStatement (NamedNode subj) (NamedNode pred)
                               (Anonymous (NamedNode blankPredicate) blankObject))
                          blankObjects)
                   blankProperties)
  else Some [mkStatement (NamedNode subj) (NamedNode pred) (Plain o)].

(** All [option]s of a list, or [None] if one of them is. *)
Fixpoint allOrNothing {A : Type} (l : list (option (list A))) : option (list A) :=
  match l with
  | [] => Some []
  | x :: l' => a ← x; b ← allOrNothing l'; Some (a ++ b)
  end.

Definition writeProperties (blankNodes : Grouping) (subj : string) (props : Properties)
    : option (list Statement) :=
  allOrNothing (flat_map (λ '(pred, objects), map (writeObject blankNodes subj pred) objects) props).

Definition writeGrouping (g : Groupings) : option (list Statement) :=
  allOrNothing (map (λ '(subj, props), writeProperties (blank g) subj props) (named g)).

(** The function returns the text the N3 writer renders from the statements
    it was handed; the model returns those statements, in order. *)
Definition resourceToOptimisedTurtle (resource : list Quad) : option (list Statement) :=
  writeGrouping (addElements resource).

(** The statement [st] writes the triple of [q] as a statement of its own. *)
Definition writes (q : Quad) (st : Statement) : Prop :=
  id (stSubject st) = id (subject q)
  ∧ id (stPredicate st) = id (predicate q)
  ∧ match stObject st with
    | Plain o => id o = id (object q)
    | Anonymous _ _ => False
    end.

#[global] Instance writes_dec q st : Decision (writes q st).
Proof. unfold writes. destruct (stObject st); apply _. Defined.

(** How often the triple of [q] was handed to the writer. *)
Definition written (q : Quad) (out : list Statement) : nat :=
  length (filter (writes q) out).

(** The quad [q] links a subject that is no blank node to the blank node
    that the quad [q'] describes. *)
Definition linksTo (q q' : Quad) : Prop :=
  termType (subject q) ≠ TBlankNode ∧ termType (object q) = TBlankNode
  ∧ termType (subject q') = TBlankNode ∧ id (subject q') = id (object q).

#[global] Instance linksTo_dec q q' : Decision (linksTo q q').
Proof. unfold linksTo. apply _. Defined.

(** The statement [st] is the anonymous node that inlines the triple of
    [q'] at the triple of [q]: the subject and the predicate of [q], with
    an anonymous node that holds the predicate and the object of [q']. *)
Definition inlines (q q' : Quad) (st : Statement) : Prop :=
  id (stSubject st) = id (subject q)
  ∧ id (stPredicate st) = id (predicate q)
  ∧ match stObject st with
    | Plain _ => False
    | Anonymous blankPredicate blankObject =>
        id blankPredicate = id (predicate q') ∧ id blankObject = id (object q')
    end.

#[global] Instance inlines_dec q q' st : Decision (inlines q q' st).
Proof. unfold inlines. destruct (stObject st); apply _. Defined.

(** The statement [st] holds the triple of the quad [q] of the resource:
    as a statement of its own, or in an anonymous node, of which [q] is
    the link or a property.  A statement does not tell which blank node
    its anonymous node stands for: it holds the triples of every blank
    node of the resource that it can stand for. *)
Definition holds (resource : list Quad) (q : Quad) (st : Statement) : Prop :=
  (termType (subject q) ≠ TBlankNode ∧ writes q st)
  ∨ Exists (λ q', linksTo q q' ∧ inlines q q' st) resource
  ∨ Exists (λ l, linksTo l q ∧ inlines l q st) resource.

#[global] Instance holds_dec resource q st : Decision (holds resource q st).
Proof. unfold holds. apply _. Defined.

(** How often the output holds the triple of [q]. *)
Definition timesWritten (resource : list Quad) (q : Quad) (out : list Statement) : nat :=
  length (filter (holds resource q) out).

(** The blank node that [q] links to has a single property, that of [q']. *)
Definition singleProperty (resource : list Quad) (q q' : Quad) : Prop :=
  ∀ l', l' ∈ resource → linksTo q l' →
        id (predicate l') = id (predicate q') ∧ id (object l') = id (object q').

(** The blank node that [q'] describes has a single link, that of [q]. *)
Definition singleLink (resource : list Quad) (q q' : Quad) : Prop :=
  ∀ l, l ∈ resource → linksTo l q' →
       id (subject l) = id (subject q) ∧ id (predicate l) = id (predicate q).

(** No other blank node with the property of [q'] is linked from the
    subject and the predicate of [q]. *)
Definition noTwin (resource : list Quad) (q q' : Quad) : Prop :=
  ∀ l l', l ∈ resource → l' ∈ resource → linksTo l l' →
          id (subject l) = id (subject q) → id (predicate l) = id (predicate q) →
          id (predicate l') = id (predicate q') → id (object l') = id (object q') →
          id (object l) = id (object q).

(** Well-formed groupings: keys are unique and, within a predicate group,
    no two recorded objects are equal. *)
Definition wfProperties (props : list (string * list Term)) : Prop :=
  NoDup (map fst props) ∧ ∀ p objs, mapGet p props = Some objs → NoDup (map id objs).

Definition wfGrouping (data : list (string * list (string * list Term))) : Prop :=
  NoDup (map fst data) ∧ ∀ s props, mapGet s data = Some props → wfProperties props.

(** The object [o] is recorded for the subject [s] and the predicate [p]. *)
Definition recorded (data : list (string * list (string * list Term))) s p o : Prop :=
  ∃ props objs, mapGet s data = Some props ∧ mapGet p props = Some objs ∧ o ∈ objs.

(** The state of the [addElements] loop once the quads [seen] are read. *)
Definition groupingInvariant (seen : list Quad) (g : Groupings) : Prop :=
  wfGrouping (named g) ∧ wfGrouping (blank g)
  ∧ (∀ s p o, recorded (named g) s p o → ∃ q, q ∈ seen ∧ object q = o)
  ∧ (∀ q, q ∈ seen → termType (subject q) ≠ TBlankNode →
       ∃ o, recorded (named g) (id (subject q)) (id (predicate q)) o ∧ id o = id (object q)).

(** The recorded objects of the predicate group of [q] that are written as
    statements of their own: those equal to the object of [q] that are not
    blank nodes. *)
Definition plainCopies (data : Grouping) (q : Quad) : list Term :=
  match mapGet (id (subject q)) data with
  | Some props =>
      match mapGet (id (predicate q)) props with
      | Some objs => filter (λ o, id o = id (object q) ∧ termType o ≠ TBlankNode) objs
      | None => []
      end
  | None => []
  end.

(** The recorded properties of the blank node [o] that are the triple of
    [q']. *)
Definition propertyCopies (blankNodes : Grouping) (o : Term) (q' : Quad) : list Term :=
  match mapGet (id o) blankNodes with
  | Some props =>
      match mapGet (id (predicate q')) props with
      | Some objs => filter (λ o', id o' = id (object q')) objs
      | None => []
      end
  | None => []
  end.

(** The anonymous nodes with the property of [q'] that are written at the
    subject and the predicate of [q]: one for every recorded blank node
    there that has the property. *)
Definition inlinedCopies (g : Groupings) (q q' : Quad) : list Term :=
  match mapGet (id (subject q)) (named g) with
  | Some props =>
      match mapGet (id (predicate q)) props with
      | Some objs =>
          flat_map (λ o, if decide (termType o = TBlankNode)
                         then propertyCopies (blank g) o q' else []) objs
      | None => []
      end
  | None => []
  end.

(** The entries of a grouping in the order in which the writer reads
    them: subject, predicate and object. *)
Definition entriesOf (s : string) (props : Properties) : list (string * string * Term) :=
  flat_map (λ '(p, objs), map (λ o, (s, p, o)) objs) props.

Definition entries (data : Grouping) : list (string * string * Term) :=
  flat_map (λ '(s, props), entriesOf s props) data.

Definition entry (q : Quad) : string * string * Term :=
  (id (subject q), id (predicate q), object q).

(** An entry as the triple it holds. *)
Definition entryKey (e : string * string * Term) : string * string * string :=
  (e.1.1, e.1.2, id e.2).

(** The distinct triples of the resource whose subject is no blank node:
    the first quad of each of them. *)
Definition statedTriples (resource : list Quad) : list Quad :=
  uniqueBy tripleKey [] (filter (λ q, termType (subject q) ≠ TBlankNode) resource).

(** The distinct triples of the resource that describe the blank node
    with the id [b]: the first quad of each of them. *)
Definition describingTriples (resource : list Quad) (b : string) : list Quad :=
  filter (λ q, id (subject q) = b)
    (uniqueBy tripleKey [] (filter (λ q, termType (subject q) = TBlankNode) resource)).

(** The statements that stand for the triple of [q]: the triple itself
    or, when its object is a blank node, the triples that describe the
    blank node, inlined at the subject and the predicate of [q]. *)
Definition statementsOf (resource : list Quad) (q : Quad) : list Statement :=
  if decide (termType (object q) = TBlankNode)
  then map (λ q', mkStatement (NamedNode (id (subject q))) (NamedNode (id (predicate q)))
                    (Anonymous (NamedNode (id (predicate q'))) (object q')))
           (describingTriples resource (id (object q)))
  else [mkStatement (NamedNode (id (subject q))) (NamedNode (id (predicate q)))
          (Plain (object q))].

(** The state of the [addElements] loop once the quads [seen] are read:
    the origin of every recorded object and of every key. *)
Definition origins (seen : list Quad) (g : Groupings) : Prop :=
  (∀ s p o, recorded (named g) s p o →
     ∃ q, q ∈ seen ∧ termType (subject q) ≠ TBlankNode
          ∧ id (subject q) = s ∧ id (predicate q) = p ∧ object q = o)
  ∧ (∀ s p o, recorded (blank g) s p o →
       ∃ q, q ∈ seen ∧ termType (subject q) = TBlankNode
            ∧ id (subject q) = s ∧ id (predicate q) = p ∧ object q = o)
  ∧ (∀ k, is_Some (mapGet k (blank g))
          ↔ ∃ q, q ∈ seen ∧ termType (subject q) = TBlankNode ∧ id (subject q) = k)
  ∧ (∀ q, q ∈ seen → termType (subject q) = TBlankNode →
       ∃ o, recorded (blank g) (id (subject q)) (id (predicate q)) o ∧ id o = id (object q)).

(** Equal elements of the list stand next to each other. *)
Fixpoint grouped {K : Type} (l : list K) : Prop :=
  match l with
  | [] => True
  | x :: rest => (x ∈ rest → head rest = Some x) ∧ grouped rest
  end.

(** Objects of the resource with the same id are terms of the same kind. *)
Definition consistentObjects (resource : list Quad) : Prop :=
  ∀ q q', q ∈ resource → q' ∈ resource →
    id (object q) = id (object q') → termType (object q) = termType (object q').

(** Objects of the resource with the same id are the same term. *)
Definition distinctObjects (resource : list Quad) : Prop :=
  ∀ q q', q ∈ resource → q' ∈ resource →
    id (object q) = id (object q') → object q = object q'.

(** The quad [q] of the resource refers, from a subject that is no blank
    node, to a blank node that is the subject of no quad of the resource. *)
Definition dangling (resource : list Quad) (q : Quad) : Prop :=
  q ∈ resource
  ∧ termType (subject q) ≠ TBlankNode
  ∧ termType (object q) = TBlankNode
  ∧ ∀ q', q' ∈ resource → termType (subject q') = TBlankNode →
          id (subject q') ≠ id (object q).

(** The statement [st] comes from the resource: from a quad whose subject
    is no blank node, with the object of that quad or, when that object is
    a blank node, with a property of that blank node. *)
Definition justified (resource : list Quad) (st : Statement) : Prop :=
  ∃ q, q ∈ resource
    ∧ termType (subject q) ≠ TBlankNode
    ∧ stSubject st = NamedNode (id (subject q))
    ∧ stPredicate st = NamedNode (id (predicate q))
    ∧ match stObject st with
      | Plain o => o = object q ∧ termType o ≠ TBlankNode
      | Anonymous blankPredicate blankObject =>
          termType (object q) = TBlankNode
          ∧ ∃ q', q' ∈ resource
              ∧ termType (subject q') = TBlankNode
              ∧ id (subject q') = id (object q)
              ∧ blankPredicate = NamedNode (id (predicate q'))
              ∧ blankObject = object q'
      end.

(** *** createBucketUrl *)

(** [timestamp] is a safe integer, see [JS.numberToString]. *)
Definition createBucketUrl (containerURL : string) (timestamp : Z) : string :=
  let split := JS.split "/" containerURL in
  JS.join "/" (JS.slice split (Z.of_nat (length split) - 2))
    +:+ "/" +:+ JS.numberToString timestamp +:+ "/".

(** *** prefixesFromFilepath *)

(** The test of the regular expression that accepts a double quote, one or
    more characters that are no double quote, and a double quote. *)
Definition isQuotedString (s : string) : bool :=
  match list_ascii_of_string s with
  | first :: rest =>
      match reverse rest with
      | final :: middle =>
          bool_decide (first = "034"%char) && bool_decide (final = "034"%char)
          && bool_decide (middle ≠ [])
          && forallb (λ c, bool_decide (c ≠ "034"%char)) middle
      | [] => false
      end
  | [] => false
  end.

(** The body of the loop over the prefix quads. *)
Definition prefixStep (prefixes : JS.Object) (prefixQuad : Quad) : JS.Object :=
  if decide (termType (object prefixQuad) ≠ TLiteral)
  then prefixes
  else if isQuotedString (id (object prefixQuad))
       then JS.setProperty prefixes (value (object prefixQuad)) (value (subject prefixQuad))
       else prefixes.

(** The store declares [k] as the preferred prefix of the namespace [v],
    with a plain string. *)
Definition declaresPrefix (store : Store) (k v : string) : Prop :=
  ∃ q, q ∈ store
    ∧ id (predicate q) = VANN_preferredNamespacePrefix
    ∧ object q = Literal k EmptyString xsd_string
    ∧ value (subject q) = v.

(** The prefixes that the loop of [prefixesFromFilepath] can set. *)
Definition usablePrefix (k : string) : Prop :=
  k ≠ EmptyString ∧ k ≠ "__proto__" ∧ JS.occurrences "034" k = 0%nat.

(** *** The communication with the server *)

Inductive Request :=
| GET (url : string)
| PUT (url body : string)
| PATCH (url body : string)
| POST (url body : string).

Record Response := mkResponse { status : Z; text : string }.

(** A computation that talks to the server: from the requests sent so far
    to the requests sent afterwards, with the value returned; [None] when
    an exception was thrown. *)
Definition Comm (A : Type) : Type := list Request → list Request * option A.

Definition ret {A : Type} (a : A) : Comm A := λ sent, (sent, Some a).

Definition throw {A : Type} : Comm A := λ sent, (sent, None).

Definition bind {A B : Type} (m : Comm A) (f : A → Comm B) : Comm B :=
  λ sent, match m sent with
          | (sent', Some a) => f a sent'
          | (sent', None) => (sent', None)
          end.

(** A step that may throw and sends nothing. *)
Definition lift {A : Type} (o : option A) : Comm A :=
  match o with Some a => ret a | None => throw end.

Declare Scope comm_scope.
Delimit Scope comm_scope with comm.
Notation "x ⇐ m ; f" := (bind m (λ x, f))
  (at level 20, m at level 100, f at level 200) : comm_scope.

(** [response.status < 200 || 299 < response.status] *)
Definition failed (response : Response) : bool :=
  bool_decide (status response < 200 ∨ 299 < status response)%Z.

(** [{...resourcePrefixes, "sh": "http://www.w3.org/ns/shacl#", "": eventStreamURL}] *)
Definition shapePrefixes (resourcePrefixes : JS.Object) (eventStreamURL : string) : JS.Object :=
  <[ EmptyString := eventStreamURL ]> (<[ "sh" := sh ]> resourcePrefixes).

Section Communication.

(** The server and the libraries are not part of the sources; they are
    parameters.  [respond] is the answer to a request, given the requests
    sent before it; [None] when the promise is rejected. *)
Variable respond : list Request → Request → option Response.
(** [turtleStringToStore(text)]; [None] when it throws. *)
Variable turtleStringToStore : string → option Store.
(** [storeToString(store)] *)
Variable storeToString : Store → string.
(** The text the N3 writer renders for the statements and the prefixes. *)
Variable writerText : JS.Object → list Statement → string.

Local Open Scope comm_scope.

Definition request (r : Request) : Comm Response :=
  λ sent, (sent ++ [r], respond sent r).

(** [resourceToOptimisedTurtle(resource, prefixes)] as text. *)
Definition optimisedTurtle (resource : list Quad) (prefixes : JS.Object) : option string :=
  writerText prefixes <$> resourceToOptimisedTurtle resource.

(** [prefixesFromFilepath(path, url)]: [file] is the content of the file at
    [path] when it exists, [url] the optional argument. *)
Definition prefixesFromFilepath (file : option string) (url : option string)
    : option JS.Object :=
  let prefixes : JS.Object :=
    match url with
    | Some u => if decide (u = EmptyString) then ∅ else {[ EmptyString := u +:+ "#" ]}
    | None => ∅
    end in
  match file with
  | Some content =>
      store ← turtleStringToStore content;
      Some (foldl prefixStep prefixes
              (getQuadsByPredicate store VANN_preferredNamespacePrefix))
  | None => Some prefixes
  end.

(** [addResourcesToBuckets]: the inner loop, over the resources of one
    container. *)
Fixpoint postResources (containerURL : string) (resources : list (list Quad))
    (prefixes : JS.Object) : Comm unit :=
  match resources with
  | [] => ret tt
  | resource :: rest =>
      content ⇐ lift (optimisedTurtle resource prefixes);
      response ⇐ request (POST containerURL content);
      postResources containerURL rest prefixes
  end.

(** [bucketResources] lists the entries of the object in the order of
    [Object.keys]. *)
Fixpoint addResourcesToBuckets (bucketResources : list (string * list (list Quad)))
    (prefixes : JS.Object) : Comm unit :=
  match bucketResources with
  | [] => ret tt
  | (containerURL, resources) :: rest =>
      posted ⇐ postResources containerURL resources prefixes;
      addResourcesToBuckets rest prefixes
  end.

(** The subject whose [tree:shape] is looked for. *)
Definition streamSubject (eventStreamURL : string) (eventStreamID : option string) : string :=
  eventStreamURL +:+ "#" +:+ JS.template eventStreamID.

Definition streamHasShape (eventStreamURL : string) (eventStreamID : option string)
    : Comm bool :=
  response ⇐ request (GET (eventStreamURL +:+ ".meta"));
  store ⇐ lift (turtleStringToStore (text response));
  ret (bool_decide
         (length (getQuads store (Some (streamSubject eventStreamURL eventStreamID))
                    (Some TREE_shape) None) ≠ 0%nat)).

(** The store patched into the metadata. *)
Definition updateStore (eventStreamURI eventStreamURL shapeLocation : string) : Store :=
  newStore [quad (NamedNode eventStreamURI) (NamedNode TREE_shape)
                 (NamedNode (eventStreamURL +:+ shapeLocation))].

Definition addShapeToLil (eventStreamURI : string) (shape : list Quad)
    (resourcePrefixes : JS.Object) (shapeLocation : string) : Comm bool :=
  let '(eventStreamURL, eventStreamID) := JS.splitPair "#" eventStreamURI in
  present ⇐ streamHasShape eventStreamURL eventStreamID;
  if (present : bool) then ret false
  else
    content ⇐ lift (optimisedTurtle shape (shapePrefixes resourcePrefixes eventStreamURL));
    response ⇐ request (PUT (eventStreamURL +:+ shapeLocation) content);
    if failed response then throw
    else
      response ⇐ request (PATCH (eventStreamURL +:+ ".meta")
                            ("INSERT DATA {"
                             +:+ storeToString (updateStore eventStreamURI eventStreamURL shapeLocation)
                             +:+ "}"));
      if failed response then throw else ret true.

Definition addShapeToLilFromResource (eventStreamURI : string) (resource : list Quad)
    (resourcePrefixes : JS.Object) (shapeLocation : string) : Comm bool :=
  let '(eventStreamURL, _) := JS.splitPair "#" eventStreamURI in
  shape ⇐ lift (Processing.generateShape resource eventStreamURL);
  addShapeToLil eventStreamURI shape resourcePrefixes shapeLocation.

(** The server answered the request [r], sent after [sent], with a status
    from 200 to 299. *)
Definition accepted (sent : list Request) (r : Request) : Prop :=
  ∃ response, respond sent r = Some response ∧ (200 ≤ status response ≤ 299)%Z.

(** The requests that post the resources of the buckets, in order. *)
Definition posts (bucketResources : list (string * list (list Quad))) (prefixes : JS.Object)
    : list Request :=
  flat_map (λ '(containerURL, resources),
              omap (λ resource, POST containerURL <$> optimisedTurtle resource prefixes)
                   resources)
           bucketResources.

End Communication.

End EventSource.

(** ** Publisher: the class [Publisher] (src/EventSource/src/util/Processing.ts,
    lines 478 to 752) and the class [SimplePublisher]
    (src/EventSource/src/algorithms/Publisher.ts, lines 208 to 323) *)

Module Publisher.

(** A JavaScript [Date] object: the identity of the object ([includes]
    compares objects, not times) and its time in milliseconds. *)
Record Date := mkDate { ref : nat; getTime : Z }.

(** [bucketSize: number]: an integer, or [Infinity] when it was not set. *)
Inductive Capacity := Finite (size : Z) | Infinity.

(** A member popped from a bucket's list: a subject, or [undefined] when
    the list was empty. *)
Abbreviation Member := (option string).

(** What a loop of [rebalance] has come to: it returned, it was still
    running when the iteration bound was hit, or it threw. *)
Inductive Outcome (S : Type) :=
| Done (st : S)
| OutOfFuel (st : S)
| Thrown (st : S).
Arguments Done {S} st.
Arguments OutOfFuel {S} st.
Arguments Thrown {S} st.

Definition finalState {S : Type} (o : Outcome S) : S :=
  match o with Done st | OutOfFuel st | Thrown st => st end.

Section WithRemote.

(** The storage collaborator and the run-time library are not part of the
    sources; the publisher is modelled over any of them. *)
Context {Remote : Type}.
(** [getMembers(bucket)]: the members the remote lists for the bucket. *)
Variable getMembers : Remote → Z → list string.
(** [comm.patch(bucketUrl, `INSERT DATA {content}`)] *)
Variable patchInsert : Remote → Z → string → Remote.
(** [lil.newFragment(date)] *)
Variable newFragment : Remote → Z → Remote.
(** [generateString(resource, prefixes)]: the text of the serializer. *)
Variable generateString : Processing.Resource → string.
(** [String(date)], the key of [Array.prototype.sort()] without comparator. *)
Variable toString : Date → string.
(** The clock read by the [n]-th [new Date()]. *)
Variable now : nat → Z.

Record State := mkState {
  buckets : list Date;                      (* this._buckets *)
  bucketData : list (Date * list Member);   (* this.bucketData *)
  remote : Remote;
  allocated : nat                           (* Date objects created so far *)
}.

Definition withBuckets (st : State) (b : list Date) : State :=
  mkState b (bucketData st) (remote st) (allocated st).
Definition withBucketData (st : State) (d : list (Date * list Member)) : State :=
  mkState (buckets st) d (remote st) (allocated st).
Definition withRemote (st : State) (r : Remote) : State :=
  mkState (buckets st) (bucketData st) r (allocated st).

(** [this._buckets.includes(bucket)] *)
Definition includes (l : list Date) (bucket : Date) : bool :=
  existsb (λ d, Nat.eqb (ref d) (ref bucket)) l.

(** [this._buckets.sort()]: the default order, on the string of each date;
    the sort is stable. *)
Fixpoint insertByString (d : Date) (l : list Date) : list Date :=
  match l with
  | [] => [d]
  | x :: l' =>
      if String.leb (toString d) (toString x) then d :: x :: l'
      else x :: insertByString d l'
  end.

Definition sort (l : list Date) : list Date := foldr insertByString [] l.

(** [this._createBucket(date)] as [init] installs it. *)
Definition _createBucket (st : State) (date : Date) : State :=
  withBuckets (withRemote st (newFragment (remote st) (getTime date)))
              (buckets st ++ [date]).

(** [this._addToBucket(content, bucketUrl)] as [init] installs it. *)
Definition _addToBucket (st : State) (content : string) (bucket : Date) : State :=
  withRemote st (patchInsert (remote st) (getTime bucket) content).

(** [Publisher.append(resource, bucket)] *)
Definition append (st : State) (resource : Processing.Resource) (bucket : Date) : State :=
  let st1 :=
    if includes (buckets st) bucket then st
    else
      let st' := _createBucket st bucket in
      withBuckets st' (sort (buckets st' ++ [bucket])) in
  _addToBucket st1 (generateString resource) bucket.

(** [Publisher.move(resource, from, to)]; [_removeFromBucket] as [init]
    installs it has an empty body. *)
Definition move (st : State) (resource : Member) (from to : Date) : State :=
  match resource with
  | Some r =>
      if decide (r ∈ getMembers (remote st) (getTime from))
      then append st [] to
      else st
  | None => st
  end.

(** [SimplePublisher.getBucket(resource)], on the date of the resource. *)
Definition findIndex (resourceDate : Z) (l : list Date) : option nat :=
  fst <$> list_find (λ bucketDate, (getTime bucketDate > resourceDate)%Z) l.

Inductive Assigned := Bucket (d : Date) | NoBucket | Error.

Definition getBucket (l : list Date) (resourceDate : Z) : Assigned :=
  match findIndex resourceDate l with
  | Some 0 => Error
  | None => match last l with Some d => Bucket d | None => NoBucket end
  | Some (S k) => match l !! k with Some d => Bucket d | None => NoBucket end
  end.

(** One iteration of the loop of [_rebalance]: [from] and [to] are the
    entries [i] and [j] of [bucketData].  [None] is the [TypeError] of
    reading an entry that is [undefined]. *)
Definition transfer (st : State) (i j : nat) : option State :=
  '(fromDate, fromMembers) ← bucketData st !! i;
  let resource : Member := mjoin (last fromMembers) in
  let st1 := withBucketData st (<[ i := (fromDate, removelast fromMembers) ]> (bucketData st)) in
  '(toDate, _) ← bucketData st1 !! j;
  let st2 := move st1 resource fromDate toDate in
  '(toDate', toMembers) ← bucketData st2 !! j;
  Some (withBucketData st2 (<[ j := (toDate', toMembers ++ [resource]) ]> (bucketData st2))).

Fixpoint transfers (n : nat) (st : State) (i j : nat) : option State :=
  match n with
  | O => Some st
  | S n' => st' ← transfer st i j; transfers n' st' i j
  end.

(** [Math.min(from[1].length - this.bucketSize, to[1].length - this.bucketSize)] *)
Definition amountOf (bucketSize : Z) (fromLength toLength : nat) : Z :=
  Z.min (Z.of_nat fromLength - bucketSize) (Z.of_nat toLength - bucketSize).

(** [SimplePublisher._rebalance(from, to)]: the new state and the value
    returned. *)
Definition _rebalance (bucketSize : Z) (st : State) (i j : nat) : option (State * Z) :=
  '(_, fromMembers) ← bucketData st !! i;
  '(_, toMembers) ← bucketData st !! j;
  let amount := amountOf bucketSize (length fromMembers) (length toMembers) in
  st' ← transfers (Z.to_nat amount) st i j;
  Some (st', amount).

(** [new Date()] *)
Definition newDate (st : State) : Date := mkDate (allocated st) (now (allocated st)).

(** The [while (remaining > 0)] loop of [rebalance] for bucket [i]. *)
Fixpoint createBuckets (fuel : nat) (bucketSize : Z) (st : State) (i : nat) (remaining : Z)
    : Outcome State :=
  if decide (remaining > 0)%Z then
    match fuel with
    | O => OutOfFuel st
    | S fuel' =>
        let metadata := (newDate st, []) in
        let st1 := mkState (buckets st) (bucketData st ++ [metadata]) (remote st) (S (allocated st)) in
        match _rebalance bucketSize st1 i (length (bucketData st)) with
        | None => Thrown st1
        | Some (st2, amount) => createBuckets fuel' bucketSize st2 i (remaining - amount)
        end
    end
  else Done st.

(** The body of the [for] loop of [rebalance] for an overflowing bucket. *)
Definition rebalanceBucket (fuel : nat) (bucketSize : Z) (st : State) (i : nat) (remaining : Z)
    : Outcome State :=
  match (if decide (0 < i)%nat then _rebalance bucketSize st i (i - 1) else Some (st, 0%Z)) with
  | None => Thrown st
  | Some (st1, moved1) =>
      match (if decide (Z.of_nat i < Z.of_nat (length (buckets st1)) - 1)%Z
             then _rebalance bucketSize st1 i (i + 1) else Some (st1, 0%Z)) with
      | None => Thrown st1
      | Some (st2, moved2) =>
          createBuckets fuel bucketSize st2 i (remaining - moved1 - moved2)
      end
  end.

(** [for (const [i, [bucket, members]] of this.bucketData.entries())]: the
    iteration sees the entries pushed while it runs. *)
Fixpoint rebalanceFrom (fuel : nat) (bucketSize : Capacity) (st : State) (i : nat)
    : Outcome State :=
  match fuel with
  | O => OutOfFuel st
  | S fuel' =>
      match bucketData st !! i with
      | None => Done st
      | Some (_, members) =>
          match bucketSize with
          | Infinity => rebalanceFrom fuel' bucketSize st (S i)
          | Finite size =>
              let remaining := (Z.of_nat (length members) - size)%Z in
              if decide (remaining > 0)%Z then
                match rebalanceBucket fuel' size st i remaining with
                | Done st' => rebalanceFrom fuel' bucketSize st' (S i)
                | stopped => stopped
                end
              else rebalanceFrom fuel' bucketSize st (S i)
          end
      end
  end.

(** The first loop of [rebalance]: the members of every known bucket. *)
Definition loadBucketData (st : State) : State :=
  withBucketData st
    (map (λ bucket, (bucket, Some <$> getMembers (remote st) (getTime bucket))) (buckets st)).

(** [SimplePublisher.rebalance()] *)
Definition rebalance (fuel : nat) (bucketSize : Capacity) (st : State) : Outcome State :=
  rebalanceFrom fuel bucketSize (loadBucketData st) 0.

(** [n] calls of [rebalance] in a row; a call is made only when the one
    before it returned. *)
Fixpoint rebalances (n : nat) (fuel : nat) (bucketSize : Capacity) (st : State) : Outcome State :=
  match n with
  | O => Done st
  | S n' =>
      match rebalance fuel bucketSize st with
      | Done st' => rebalances n' fuel bucketSize st'
      | stopped => stopped
      end
  end.

(** The number of resources of each bucket, and of all buckets. *)
Definition sizes (data : list (Date * list Member)) : list nat :=
  map (λ entry, length entry.2) data.

Definition total (data : list (Date * list Member)) : nat := sum_list (sizes data).

(** The number of resources the remote lists in the known buckets. *)
Definition remoteTotal (st : State) : nat :=
  sum_list (map (λ bucket, length (getMembers (remote st) (getTime bucket))) (buckets st)).

(** The bucket data mirrors the known buckets: every known bucket has its
    entry, and the date of that entry is the known [Date] object. *)
Definition mirrors (st : State) : Prop :=
  (length (buckets st) ≤ length (bucketData st))%nat
  ∧ ∀ j d m, (j < length (buckets st))%nat → bucketData st !! j = Some (d, m) →
             includes (buckets st) d = true.

(** [getTimeStamp(resource, this.treePath)]: the timestamp the library
    reads from the resource; [None] when it throws. *)
Variable getTimeStamp : Processing.Resource → option JS.Timestamp.

(** [SimplePublisher.getBucket(resource)], the whole method: a bucket or
    [undefined]; [None] is the error thrown from the [catch] block, which
    replaces every exception of the [try] block. *)
Definition getBucketOf (st : State) (resource : Processing.Resource) : option (option Date) :=
  timestamp ← getTimeStamp resource;
  match JS.timeClip timestamp with
  | JS.NaN => Some (last (buckets st))
  | JS.Millis resourceDate =>
      match getBucket (buckets st) resourceDate with
      | Bucket d => Some (Some d)
      | NoBucket => Some None
      | Error => None
      end
  end.

(** [resource.flat()] for [resource: Resource | Resource[]] *)
Definition flat (resource : Processing.Resource + list Processing.Resource)
    : Processing.Resource :=
  match resource with
  | inl quads => quads
  | inr resources => concat resources
  end.

(** [SimplePublisher.publish(resource)]; [None] when it throws: the error
    of [getBucket], or the [TypeError] of [bucket.getTime()] in [append]
    when the bucket is [undefined]. *)
Definition publish (st : State) (resource : Processing.Resource + list Processing.Resource)
    : option State :=
  let flattened := flat resource in
  bucket ← getBucketOf st flattened;
  match bucket with
  | Some d => Some (append st flattened d)
  | None => None
  end.

End WithRemote.

(** A capacity that makes sense: not negative. *)
Definition validCapacity (bucketSize : Capacity) : Prop :=
  match bucketSize with Finite size => (0 ≤ size)%Z | Infinity => True end.

(** The bucket [d] is the one the specification asks for: its boundary is
    the greatest boundary of [l] that does not exceed [ts]. *)
Definition closestInPast (l : list Date) (ts : Z) (d : Date) : Prop :=
  d ∈ l ∧ (getTime d ≤ ts)%Z ∧ ∀ d', d' ∈ l → (getTime d' ≤ ts)%Z → (getTime d' ≤ getTime d)%Z.

(** The boundaries of a bucket list, and their order. *)
Definition boundaries (l : list Date) : list Z := map getTime l.

Fixpoint strictlyIncreasing (l : list Z) : bool :=
  match l with
  | a :: ((b :: _) as rest) => bool_decide (a < b)%Z && strictlyIncreasing rest
  | _ => true
  end.

End Publisher.

(** ** Concrete inputs used by the examples of Part II *)

Module Examples.
Import N3 Vocab.

Definition ex (localName : string) : Term := NamedNode ("http://example.org/" +:+ localName).
Definition rdfType : Term := NamedNode RDF_type.
Definition created : string := "http://purl.org/dc/terms/created".

(** An observation with two values, made by a typed sensor. *)
Definition observation : list Quad :=
  [quad (ex "obs1") rdfType (ex "Observation");
   quad (ex "obs1") (ex "value") (Literal "1" EmptyString xsd_integer);
   quad (ex "obs1") (ex "value") (Literal "2" EmptyString xsd_integer);
   quad (ex "obs1") (ex "value") (Literal "2" EmptyString xsd_integer);
   quad (ex "obs1") (ex "madeBy") (ex "sensor1");
   quad (ex "sensor1") rdfType (ex "Sensor")].

(** Two observations of the same type. *)
Definition twoObservations : list Quad :=
  [quad (ex "obs1") rdfType (ex "Observation");
   quad (ex "obs2") rdfType (ex "Observation")].

(** An observation whose type is a URN: a name without slash or hash. *)
Definition urnObservation : list Quad :=
  [quad (ex "obs1") rdfType (NamedNode "urn:example:Observation")].

(** A sensor with two types, of which the second was met before the
    first: as the subject of the label. *)
Definition twoTypes : list Quad :=
  [quad (ex "Sensor") (ex "label") (Literal "sensor" EmptyString xsd_string);
   quad (ex "s1") rdfType (ex "Device");
   quad (ex "s1") rdfType (ex "Sensor");
   quad (ex "s1") (ex "value") (Literal "1" EmptyString xsd_integer)].

(** A store whose two entities refer to each other and to themselves. *)
Definition cyclicStore : list Quad :=
  [quad (ex "a") (NamedNode created) (Literal "2022-01-01T00:00:00Z" EmptyString xsd_string);
   quad (ex "a") (ex "knows") (ex "b");
   quad (ex "b") (ex "knows") (ex "a");
   quad (ex "b") (ex "self") (ex "b")].

(** A measurement whose result is a blank node, with and without the
    quad that describes the blank node. *)
Definition measurement : list Quad :=
  [quad (ex "m1") (ex "result") (BlankNode "b0");
   quad (BlankNode "b0") (ex "value") (Literal "1" EmptyString xsd_integer)].

Definition danglingMeasurement : list Quad :=
  [quad (ex "m1") (ex "result") (BlankNode "b0")].

(** A description that no measurement links to, twice; a result that two
    measurements share; and a result with a value and a unit, linked
    twice by the same triple. *)
Definition unlinkedResult : list Quad :=
  [quad (BlankNode "b0") (ex "value") (Literal "1" EmptyString xsd_integer);
   quad (BlankNode "b0") (ex "value") (Literal "1" EmptyString xsd_integer)].

Definition sharedResult : list Quad :=
  [quad (ex "m1") (ex "result") (BlankNode "b0");
   quad (ex "m2") (ex "result") (BlankNode "b0");
   quad (BlankNode "b0") (ex "value") (Literal "1" EmptyString xsd_integer);
   quad (BlankNode "b0") (ex "value") (Literal "1" EmptyString xsd_integer)].

Definition resultWithUnit : list Quad :=
  [quad (ex "m1") (ex "result") (BlankNode "b0");
   quad (ex "m1") (ex "result") (BlankNode "b0");
   quad (BlankNode "b0") (ex "value") (Literal "1" EmptyString xsd_integer);
   quad (BlankNode "b0") (ex "unit") (ex "kelvin")].

(** Two sensors whose quads alternate. *)
Definition interleaved : list Quad :=
  [quad (ex "s1") (ex "a") (ex "o1");
   quad (ex "s2") (ex "a") (ex "o2");
   quad (ex "s1") (ex "b") (ex "o3");
   quad (ex "s1") (ex "c") (ex "o4")].

(** A vocabulary file that declares one prefix, and a parser that reads
    it whatever the text. *)
Definition vocabulary : list Quad :=
  [quad (NamedNode "http://example.org/ns#") (NamedNode VANN_preferredNamespacePrefix)
        (Literal "ex" EmptyString xsd_string)].

Definition vocabularyFile (content : string) : option (list Quad) := Some vocabulary.

(** A server that refuses every request, and a writer without text. *)
Definition refuse (sent : list EventSource.Request) (r : EventSource.Request)
    : option EventSource.Response :=
  Some (EventSource.mkResponse 500 EmptyString).

Definition noWriterText (prefixes : JS.Object) (statements : list EventSource.Statement)
    : string := EmptyString.

(** A publisher over a remote that never changes: three buckets that hold
    one, three and one resources, and two buckets that hold three and five. *)
Definition t0 : Publisher.Date := Publisher.mkDate 0 0.
Definition t1 : Publisher.Date := Publisher.mkDate 1 1000.
Definition t2 : Publisher.Date := Publisher.mkDate 2 2000.

Definition members131 (_ : unit) (time : Z) : list string :=
  if decide (time = 0)%Z then ["r0"]
  else if decide (time = 1000)%Z then ["r1"; "r2"; "r3"]
  else if decide (time = 2000)%Z then ["r4"]
  else [].

Definition members35 (_ : unit) (time : Z) : list string :=
  if decide (time = 0)%Z then ["r0"; "r1"; "r2"]
  else if decide (time = 1000)%Z then ["r3"; "r4"; "r5"; "r6"; "r7"]
  else [].

Definition noPatch (r : unit) (_ : Z) (_ : string) : unit := r.
Definition noFragment (r : unit) (_ : Z) : unit := r.
Definition noText (_ : list Quad) : string := EmptyString.
Definition dateText (d : Publisher.Date) : string :=
  NilEmpty.string_of_uint (N.to_uint (Z.to_N (Publisher.getTime d))).
Definition clock (n : nat) : Z := (3000 + Z.of_nat n)%Z.

Definition threeBuckets : @Publisher.State unit := Publisher.mkState [t0; t1; t2] [] tt 3.
Definition twoBuckets : @Publisher.State unit := Publisher.mkState [t0; t1] [] tt 2.

End Examples.

(* ===================================================================== *)
(** * Part II: statements and proofs *)
(* ===================================================================== *)

Close Scope string_scope.

(** ** batchResources *)

Section BatchResources.
Import Processing.
Context {A : Type}.
Implicit Types (resources source : list (list A)) (resource : list A).

Lemma concat_all_nil resources :
  (∀ k b, resources !! k = Some b → b = []) → concat resources = [].
Proof.
  induction resources as [|b rest IH]; intros Hall; [done|].
  simpl. rewrite (Hall 0 b eq_refl). simpl. apply IH.
  intros k b' Hk. apply (Hall (S k) b' Hk).
Qed.

Lemma concat_alter_last_used resources m resource :
  (∀ k b, m < k → resources !! k = Some b → b = []) →
  m < length resources →
  concat (alter (λ b, b ++ resource) m resources) = concat resources ++ resource.
Proof.
  revert m. induction resources as [|b rest IH]; intros m Hnil Hm; simpl in *; [lia|].
  destruct m as [|m]; simpl.
  - rewrite (concat_all_nil rest).
    + by rewrite !app_nil_r.
    + intros k b' Hk. apply (Hnil (S k) b'); [lia|done].
  - rewrite <- app_assoc. f_equal. apply IH; [|lia].
    intros k b' Hlt Hk. apply (Hnil (S k) b'); [lia|done].
Qed.

Lemma pushAt_in_range resources k resource :
  k < length resources →
  pushAt resources k resource = Some (alter (λ b, b ++ resource) k resources).
Proof.
  intros Hk. unfold pushAt.
  destruct (lookup_lt_is_Some_2 resources k Hk) as [b ->]. done.
Qed.

Lemma batchLoop_concat (count : Z) source i resources :
  (1 ≤ count)%Z →
  (Z.of_nat (i + length source) / count < Z.of_nat (length resources))%Z →
  (∀ k b, (Z.of_nat i ≤ Z.of_nat k * count)%Z → resources !! k = Some b → b = []) →
  ∃ res, batchLoop count i source resources = Some res
         ∧ length res = length resources
         ∧ concat res = concat resources ++ concat source.
Proof.
  intros Hcount. revert i resources.
  induction source as [|resource rest IH]; intros i resources Hlen Hnil; simpl.
  - exists resources. by rewrite app_nil_r.
  - set (m := Z.to_nat (Z.of_nat i / count)).
    assert (Hm : (Z.of_nat m = Z.of_nat i / count)%Z).
    { unfold m. rewrite Z2Nat.id; [done|]. apply Z.div_pos; lia. }
    assert (Hlo : (Z.of_nat m * count ≤ Z.of_nat i)%Z).
    { rewrite Hm, Z.mul_comm. apply Z.mul_div_le. lia. }
    assert (Hhi : (Z.of_nat i < (Z.of_nat m + 1) * count)%Z).
    { rewrite Hm. rewrite Z.mul_comm.
      pose proof (Z.mul_succ_div_gt (Z.of_nat i) count ltac:(lia)). lia. }
    assert (Hin : m < length resources).
    { apply Nat2Z.inj_lt. rewrite Hm.
      eapply Z.le_lt_trans; [|exact Hlen]. simpl length.
      apply Z.div_le_mono; lia. }
    rewrite (pushAt_in_range _ _ _ Hin). simpl.
    destruct (IH (S i) (alter (λ b, b ++ resource) m resources)) as (res & Hres & Hl & Hc).
    + rewrite length_alter. simpl length in Hlen.
      replace (S i + length rest) with (i + S (length rest)) by lia. done.
    + intros k b Hk Hb.
      assert (m < k) by nia.
      rewrite list_lookup_alter_ne in Hb by lia.
      apply (Hnil k b); [nia|done].
    + exists res. split; [done|]. split; [by rewrite Hl, length_alter|].
      rewrite Hc, concat_alter_last_used, <- app_assoc; [done| |done].
      intros k b Hlt Hb. apply (Hnil k b); [nia|done].
Qed.

Lemma concat_removelast_nil resources :
  last resources = Some [] → concat (removelast resources) = concat resources.
Proof.
  induction resources as [|b rest IH]; [done|].
  destruct rest as [|b' rest'].
  - simpl. intros [= ->]. done.
  - intros Hlast. change (concat (b :: removelast (b' :: rest')) = concat (b :: b' :: rest')).
    simpl. f_equal. apply IH. done.
Qed.

(** C10.  For a count of at least one, [batchResources] returns and the
    quads of its batches, taken in order, are exactly the quads of the
    input resources in order; for a count below one the input collection
    is returned as it is. *)
Theorem batchResources_preserves_quads (source : list (list A)) (count : Z) :
  ((1 ≤ count)%Z →
     ∃ batches, batchResources source count = Some batches
                ∧ concat batches = concat source)
  ∧ ((count < 1)%Z → batchResources source count = Some source).
Proof.
  split; intros Hcount; unfold batchResources.
  - destruct (decide (count < 1)%Z) as [?|_]; [lia|].
    destruct (batchLoop_concat count source 0
                (replicate (Z.to_nat (Z.of_nat (length source) / count) + 1) []))
      as (res & Hres & _ & Hc); [done| | |].
    + rewrite length_replicate. simpl.
      rewrite Nat2Z.inj_add, Z2Nat.id; [lia|]. apply Z.div_pos; lia.
    + intros k b _ Hb. apply lookup_replicate in Hb as [-> _]. done.
    + rewrite Hres. simpl.
      assert (Hnil : concat (replicate (Z.to_nat (Z.of_nat (length source) / count) + 1) ([] : list A)) = []).
      { apply concat_all_nil. intros k b Hb. by apply lookup_replicate in Hb as [-> _]. }
      rewrite Hnil in Hc. simpl in Hc.
      destruct (last res) as [[|x b]|] eqn:Hlast.
      * eexists. split; [done|]. by rewrite concat_removelast_nil.
      * by eexists.
      * by eexists.
  - by destruct (decide (count < 1)%Z).
Qed.

End BatchResources.

(** C10 on five resources in batches of two, the fourth resource empty. *)
Example batchResources_five_by_two :
  Processing.batchResources [[1]; [2; 3]; [4]; []; [5]] 2 = Some [[1; 2; 3]; [4]; [5]].
Proof. reflexivity. Qed.

(** *** The content of every batch *)

Section BatchContents.
Import Processing.
Context {A : Type}.
Implicit Types (resources source : list (list A)) (resource : list A).

Lemma batchLoop_app (count : Z) i source1 source2 resources :
  batchLoop count i (source1 ++ source2) resources
  = batchLoop count i source1 resources ≫= batchLoop count (i + length source1) source2.
Proof.
  revert i resources. induction source1 as [|resource rest IH]; intros i resources; simpl.
  - by rewrite Nat.add_0_r.
  - destruct (pushAt resources _ resource) as [resources'|]; simpl; [|done].
    rewrite IH. by rewrite Nat.add_succ_r.
Qed.

Lemma div_count (count : Z) (m : nat) :
  (1 ≤ count)%Z → Z.to_nat (Z.of_nat m / count) = m `div` Z.to_nat count.
Proof.
  intros Hcount. rewrite <- (Z2Nat.id count) at 1 by lia.
  rewrite <- Nat2Z.inj_div. apply Nat2Z.id.
Qed.

(** The batch with index [k]: the resources [k * c] to [k * c + c - 1]. *)
Lemma chunk_snoc (c : nat) source resource k :
  0 < c →
  concat (take c (drop (k * c) (source ++ [resource])))
  = concat (take c (drop (k * c) source))
    ++ (if decide (k = length source `div` c) then resource else []).
Proof.
  intros Hc.
  pose proof (Nat.div_mod_eq (length source) c) as Hdiv.
  pose proof (Nat.mod_upper_bound (length source) c) as Hmod.
  destruct (decide (k = length source `div` c)) as [->|Hne].
  - rewrite drop_app_le by nia.
    rewrite !take_ge; [by rewrite concat_app; simpl; rewrite app_nil_r| |].
    + rewrite length_drop. nia.
    + rewrite length_app, length_drop. simpl. nia.
  - rewrite app_nil_r.
    destruct (decide (k < length source `div` c)) as [Hlt|Hge].
    + rewrite drop_app_le by nia. rewrite take_app_le; [done|].
      rewrite length_drop. nia.
    + rewrite !drop_ge; [done|nia|]. rewrite length_app. simpl. nia.
Qed.

Lemma batchLoop_chunks (count : Z) source (L : nat) :
  (1 ≤ count)%Z →
  length source `div` Z.to_nat count < L →
  ∃ res, batchLoop count 0 source (replicate L []) = Some res
    ∧ length res = L
    ∧ ∀ k, k < L →
        res !! k = Some (concat (take (Z.to_nat count) (drop (k * Z.to_nat count) source))).
Proof.
  intros Hcount. induction source as [|resource source IH] using rev_ind; intros HL.
  - exists (replicate L []). split; [done|]. split; [apply length_replicate|].
    intros k Hk. rewrite lookup_replicate_2 by done. by rewrite drop_nil, take_nil.
  - rewrite length_app in HL. simpl in HL.
    destruct IH as (res & Hres & Hlen & Hchunks).
    { eapply Nat.le_lt_trans; [|exact HL]. apply Nat.Div0.div_le_mono. lia. }
    rewrite batchLoop_app, Hres. simpl.
    rewrite div_count by done.
    assert (length source `div` Z.to_nat count < L) as Hk0.
    { eapply Nat.le_lt_trans; [|exact HL]. apply Nat.Div0.div_le_mono. lia. }
    rewrite pushAt_in_range by lia. simpl.
    eexists. split; [done|]. split; [by rewrite length_alter|].
    intros k Hk. rewrite chunk_snoc, list_lookup_alter by lia.
    repeat case_decide; rewrite Hchunks by lia; simpl; rewrite ?app_nil_r; congruence.
Qed.

Lemma lookup_removelast {B : Type} (l : list B) k x :
  removelast l !! k = Some x → l !! k = Some x.
Proof.
  revert k. induction l as [|y l IH]; intros k; [done|].
  destruct l as [|z l]; [done|].
  change (removelast (y :: z :: l)) with (y :: removelast (z :: l)).
  destruct k; [done|]. simpl. apply IH.
Qed.

Lemma length_removelast_pred {B : Type} (l : list B) : length (removelast l) = pred (length l).
Proof.
  induction l as [|y l IH]; [done|]. destruct l as [|z l]; [done|].
  change (removelast (y :: z :: l)) with (y :: removelast (z :: l)).
  simpl in *. by rewrite IH.
Qed.

(** X5. For a count [c] of at least one, the batch with index [k] holds
    the quads of the resources [k * c] to [k * c + c - 1] of the input, in
    order; there are as many batches as the input has full groups of [c]
    resources, or one more, and never more batches than resources. *)
Theorem batchResources_batches (source : list (list A)) (count : Z) :
  (1 ≤ count)%Z →
  ∃ batches, batchResources source count = Some batches
    ∧ (∀ k b, batches !! k = Some b →
         b = concat (take (Z.to_nat count) (drop (k * Z.to_nat count) source)))
    ∧ length source `div` Z.to_nat count ≤ length batches
    ∧ length batches ≤ length source `div` Z.to_nat count + 1
    ∧ length batches ≤ length source.
Proof.
  intros Hcount. unfold batchResources.
  destruct (decide (count < 1)%Z) as [?|_]; [lia|].
  rewrite div_count by done.
  set (c := Z.to_nat count). set (n := length source).
  destruct (batchLoop_chunks count source (n `div` c + 1)) as (res & Hres & Hlen & Hchunks);
    [done|subst c n; lia|].
  rewrite Hres. simpl. fold c in Hchunks.
  assert (last res = Some (concat (take c (drop (n `div` c * c) source)))) as Hlast.
  { rewrite last_lookup, Hlen. replace (pred (n `div` c + 1)) with (n `div` c) by lia.
    apply Hchunks. lia. }
  rewrite Hlast.
  destruct (concat (take c (drop (n `div` c * c) source))) as [|x rest] eqn:Hchunk.
  - exists (removelast res). split; [done|].
    rewrite length_removelast_pred, Hlen.
    split; [|repeat split; try lia].
    + intros k b Hb. apply lookup_removelast in Hb.
      pose proof (lookup_lt_Some _ _ _ Hb) as Hk. rewrite Hchunks in Hb by lia. congruence.
    + replace (pred (n `div` c + 1)) with (n `div` c) by lia.
      apply Nat.Div0.div_le_upper_bound. subst c. nia.
  - exists res. split; [done|]. rewrite Hlen.
    split; [|repeat split; try lia].
    + intros k b Hb.
      pose proof (lookup_lt_Some _ _ _ Hb) as Hk. rewrite Hchunks in Hb by lia. congruence.
    + assert (n `div` c * c < n) as Hrest.
      { destruct (decide (n `div` c * c < n)) as [|Hge]; [done|].
        rewrite drop_ge in Hchunk by (subst n; lia). by rewrite take_nil in Hchunk. }
      pose proof (Nat.div_mod_eq n c) as Hdiv.
      assert (2 ≤ c) as Hc2.
      { destruct (decide (c = 1)) as [Hc1|]; [|subst c; lia].
        rewrite Hc1, Nat.div_1_r in Hrest. lia. }
      nia.
Qed.

(** X6. Batches of one resource are the resources themselves:
    [batchResources] with a count of one returns its input. *)
Theorem batchResources_by_one (source : list (list A)) :
  batchResources source 1 = Some source.
Proof.
  unfold batchResources. rewrite decide_False by lia. rewrite div_count by lia.
  change (Z.to_nat 1) with 1. rewrite Nat.div_1_r.
  destruct (batchLoop_chunks 1 source (length source + 1)) as (res & -> & Hlen & Hchunks);
    [lia|change (Z.to_nat 1) with 1; rewrite Nat.div_1_r; lia|].
  change (Z.to_nat 1) with 1 in Hchunks. simpl.
  assert (last res = Some []) as ->.
  { rewrite last_lookup, Hlen. replace (pred (length source + 1)) with (length source) by lia.
    rewrite Hchunks by lia. by rewrite drop_ge by lia. }
  f_equal. rewrite removelast_firstn_len, Hlen.
  replace (pred (length source + 1)) with (length source) by lia.
  apply list_eq. intros k. destruct (decide (k < length source)) as [Hk|Hk].
  - rewrite lookup_take_lt, Hchunks, Nat.mul_1_r by lia.
    destruct (lookup_lt_is_Some_2 source k Hk) as [x Hx].
    rewrite Hx, (drop_S _ _ _ Hx). simpl. by rewrite app_nil_r.
  - rewrite lookup_take_ge by lia. symmetry. apply lookup_ge_None. lia.
Qed.


End BatchContents.

(** X5 on five resources in batches of two. *)
Lemma batchResources_batches_five_by_two :
  (1 ≤ 2)%Z
  ∧ ∃ batches, Processing.batchResources [[1]; [2; 3]; [4]; []; [5]] 2 = Some batches
      ∧ (∀ k b, batches !! k = Some b →
           b = concat (take (Z.to_nat 2) (drop (k * Z.to_nat 2) [[1]; [2; 3]; [4]; []; [5]])))
      ∧ length [[1]; [2; 3]; [4]; []; [5]] `div` Z.to_nat 2 ≤ length batches
      ∧ length batches ≤ length [[1]; [2; 3]; [4]; []; [5]] `div` Z.to_nat 2 + 1
      ∧ length batches ≤ length [[1]; [2; 3]; [4]; []; [5]].
Proof.
  split; [lia|]. apply (batchResources_batches [[1]; [2; 3]; [4]; []; [5]] 2). lia.
Defined.

(** ** Strings: split, join and the text of a number *)

Section Strings.
Import JS.
Local Open Scope string_scope.
Local Open Scope list_scope.
Local Open Scope nat_scope.

Implicit Types (s a b : string) (sep c : ascii).

Local Arguments String.append _ _ : simpl nomatch.

Lemma append_assoc a b s : (a +:+ b) +:+ s = a +:+ (b +:+ s).
Proof. induction a as [|c a IH]; simpl; [done|by rewrite IH]. Qed.

Lemma length_append a b : String.length (a +:+ b) = String.length a + String.length b.
Proof. induction a as [|c a IH]; simpl; [done|by rewrite IH]. Qed.

Lemma split_not_nil sep s : split sep s ≠ [].
Proof.
  destruct s as [|c s]; simpl; [done|].
  destruct (decide (c = sep)); [done|]. by destruct (split sep s).
Qed.

Lemma split_app sep a b :
  split sep (a +:+ String sep b) = split sep a ++ split sep b.
Proof.
  induction a as [|c a IH]; simpl.
  - by rewrite decide_True.
  - destruct (decide (c = sep)) as [->|Hne]; [by rewrite IH|].
    rewrite IH. pose proof (split_not_nil sep a) as Hnil.
    by destruct (split sep a).
Qed.

Lemma split_without sep s : occurrences sep s = 0 → split sep s = [s].
Proof.
  induction s as [|c s IH]; simpl; [done|].
  destruct (decide (c = sep)); [done|]. intros Hs. by rewrite IH.
Qed.

Lemma length_split sep s : length (split sep s) = S (occurrences sep s).
Proof.
  induction s as [|c s IH]; simpl; [done|].
  destruct (decide (c = sep)); simpl; [by rewrite IH|].
  pose proof (split_not_nil sep s) as Hnil.
  destruct (split sep s); [done|]. simpl in *. lia.
Qed.

Lemma join_split sep s : join (String sep EmptyString) (split sep s) = s.
Proof.
  induction s as [|c s IH]; simpl; [done|].
  pose proof (split_not_nil sep s) as Hnil.
  destruct (decide (c = sep)) as [->|Hne].
  - destruct (split sep s) as [|piece pieces]; [done|]. simpl in *. by rewrite IH.
  - destruct (split sep s) as [|piece pieces]; [done|].
    destruct pieces as [|piece' pieces]; simpl in *; by rewrite <- IH.
Qed.

(** Replaces the code of a given character by its value. *)
Ltac ascii_code H :=
  repeat match type of H with
         | context [nat_of_ascii ?c] =>
             let n := eval vm_compute in (nat_of_ascii c) in
             change (nat_of_ascii c) with n in H
         end.

Lemma occurrences_uint c (d : Decimal.uint) :
  (nat_of_ascii c < 48 ∨ 57 < nat_of_ascii c) →
  occurrences c (NilEmpty.string_of_uint d) = 0.
Proof.
  intros Hc. induction d; simpl; [done|..];
    (rewrite decide_False; [done|]; intros <-; ascii_code Hc; lia).
Qed.

Lemma occurrences_numberToString c (n : Z) :
  c ≠ "-"%char → (nat_of_ascii c < 48 ∨ 57 < nat_of_ascii c) →
  occurrences c (numberToString n) = 0.
Proof.
  intros Hdash Hc. unfold numberToString.
  assert (∀ d, occurrences c (NilZero.string_of_uint d) = 0) as Huint.
  { intros d. unfold NilZero.string_of_uint.
    destruct d; try (apply occurrences_uint; lia).
    simpl. rewrite decide_False; [done|]. intros <-. ascii_code Hc. lia. }
  destruct (Z.to_int n) as [d|d]; simpl; [apply Huint|].
  rewrite decide_False; [apply Huint|]. by intros <-.
Qed.

End Strings.

(** ** createBucketUrl *)

Section CreateBucketUrl.
Import JS EventSource.
Local Open Scope string_scope.
Local Open Scope list_scope.
Local Open Scope nat_scope.

Local Arguments String.append _ _ : simpl nomatch.

(** The pieces of a URL that ends with a segment and a slash. *)
Lemma split_segment (base segment : string) :
  occurrences "/" segment = 0 →
  split "/" (base +:+ "/" +:+ segment +:+ "/") = split "/" base ++ [segment; EmptyString].
Proof.
  intros Hseg.
  change (base +:+ "/" +:+ segment +:+ "/")
    with (base +:+ String "/" (segment +:+ String "/" EmptyString)).
  rewrite !split_app, (split_without _ segment Hseg). done.
Qed.

(** What [createBucketUrl] returns, in terms of the pieces it keeps. *)
Lemma createBucketUrl_pieces (containerURL : string) (timestamp : Z) (kept : list string) piece1 piece2 :
  split "/" containerURL = kept ++ [piece1; piece2] →
  createBucketUrl containerURL timestamp
  = join "/" kept +:+ "/" +:+ numberToString timestamp +:+ "/".
Proof.
  intros Hsplit. unfold createBucketUrl, slice. rewrite Hsplit.
  rewrite length_app. simpl length.
  rewrite decide_False by lia.
  replace (Z.to_nat (Z.of_nat (length kept + 2) - 2)) with (length kept) by lia.
  by rewrite take_app_length.
Qed.

(** X7. [createBucketUrl] replaces the last segment of a container URL by
    the timestamp: for a URL that ends with a segment and a slash, the
    result is the URL before that segment, the timestamp and a slash. *)
Theorem createBucketUrl_replaces_last_segment (base segment : string) (timestamp : Z) :
  isSafeInteger timestamp →
  occurrences "/" segment = 0 →
  createBucketUrl (base +:+ "/" +:+ segment +:+ "/") timestamp
  = base +:+ "/" +:+ numberToString timestamp +:+ "/".
Proof.
  intros _ Hseg.
  rewrite (createBucketUrl_pieces _ _ (split "/" base) segment EmptyString)
    by by apply split_segment.
  by rewrite (join_split "/" base).
Qed.

(** X8. A URL made by [createBucketUrl] is a container URL again: making
    the URL of a second timestamp from it gives the same URL as making it
    from the original container URL. *)
Theorem createBucketUrl_twice (containerURL : string) (first second : Z) :
  isSafeInteger first → isSafeInteger second →
  createBucketUrl (createBucketUrl containerURL first) second
  = createBucketUrl containerURL second.
Proof.
  intros _ _. unfold createBucketUrl at 2.
  set (base := join "/" _).
  rewrite (createBucketUrl_pieces _ _ (split "/" base) (numberToString first) EmptyString).
  - by rewrite (join_split "/" base).
  - apply split_segment, occurrences_numberToString; [done|]. vm_compute. lia.
Qed.

(** X9. A container URL with fewer than two slashes has no part left in
    front of the timestamp. *)
Theorem createBucketUrl_short (containerURL : string) (timestamp : Z) :
  isSafeInteger timestamp →
  occurrences "/" containerURL < 2 →
  createBucketUrl containerURL timestamp = "/" +:+ numberToString timestamp +:+ "/".
Proof.
  intros _ Hfew. unfold createBucketUrl, slice.
  pose proof (length_split "/" containerURL) as Hlen.
  destruct (decide (Z.of_nat (length (split "/" containerURL)) - 2 < 0)%Z).
  - replace (Z.to_nat _) with 0 by lia. by rewrite take_0.
  - replace (Z.to_nat _) with 0 by lia. by rewrite take_0.
Qed.

(** X7 on the bucket of a stream. *)
Lemma createBucketUrl_replaces_last_segment_bucket :
  isSafeInteger 1700000000000
  ∧ occurrences "/" "1600000000000" = 0
  ∧ createBucketUrl "http://localhost:3000/ldes/1600000000000/" 1700000000000
    = "http://localhost:3000/ldes/1700000000000/".
Proof.
  split; [vm_compute; discriminate|]. split; [reflexivity|].
  apply (createBucketUrl_replaces_last_segment "http://localhost:3000/ldes" "1600000000000"
           1700000000000); [vm_compute; discriminate|reflexivity].
Defined.

(** X8 on the bucket of a stream. *)
Lemma createBucketUrl_twice_bucket :
  isSafeInteger 1600000000000 ∧ isSafeInteger 1700000000000
  ∧ createBucketUrl (createBucketUrl "http://localhost:3000/ldes/0/" 1600000000000) 1700000000000
    = createBucketUrl "http://localhost:3000/ldes/0/" 1700000000000.
Proof.
  split; [vm_compute; discriminate|]. split; [vm_compute; discriminate|].
  apply (createBucketUrl_twice "http://localhost:3000/ldes/0/" 1600000000000 1700000000000);
    vm_compute; discriminate.
Defined.

(** X9 on a URL without a path. *)
Lemma createBucketUrl_short_no_path :
  isSafeInteger 5
  ∧ occurrences "/" "localhost" < 2
  ∧ createBucketUrl "localhost" 5 = "/5/".
Proof.
  split; [vm_compute; discriminate|]. split; [vm_compute; lia|].
  apply (createBucketUrl_short "localhost" 5); [vm_compute; discriminate|vm_compute; lia].
Defined.

End CreateBucketUrl.

(** ** Assignment: SimplePublisher.getBucket and calculateBucket *)

Section Assignment.
Import Publisher EventSource.

Lemma StronglySorted_lookup_le (l : list Z) i j a b :
  StronglySorted Z.le l → i ≤ j → l !! i = Some a → l !! j = Some b → (a ≤ b)%Z.
Proof.
  intros Hs. revert i j a b.
  induction Hs as [|x l Hs IH Hall]; intros i j a b Hij Hi Hj; [done|].
  destruct i as [|i], j as [|j]; simpl in *; simplify_eq; try lia.
  - rewrite Forall_forall in Hall. apply Hall. by eapply list_elem_of_lookup_2.
  - eapply (IH i j); [lia|done..].
Qed.

Lemma boundaries_lookup (l : list Date) i d :
  l !! i = Some d → boundaries l !! i = Some (getTime d).
Proof. intros H. unfold boundaries. by rewrite list_lookup_fmap, H. Qed.

Lemma findIndex_Some l ts i :
  findIndex ts l = Some i →
  ∃ d, l !! i = Some d ∧ (getTime d > ts)%Z
       ∧ ∀ j d', l !! j = Some d' → j < i → (getTime d' ≤ ts)%Z.
Proof.
  unfold findIndex. destruct (list_find _ l) as [[i' d]|] eqn:Hfind; [|done].
  intros [= <-]. apply list_find_Some in Hfind as (Hd & Hgt & Hbefore).
  exists d. repeat split; [done..|]. intros j d' Hj Hlt.
  specialize (Hbefore j d' Hj Hlt). lia.
Qed.

Lemma findIndex_None l ts :
  findIndex ts l = None → ∀ d, d ∈ l → (getTime d ≤ ts)%Z.
Proof.
  unfold findIndex. destruct (list_find _ l) as [[i' d]|] eqn:Hfind; [done|].
  intros _ d Hd. apply list_find_None in Hfind. rewrite Forall_forall in Hfind.
  specialize (Hfind d Hd). lia.
Qed.

(** [getBucket] on a non-empty list of buckets with sorted boundaries. *)
Lemma getBucket_sorted (l : list Date) (ts : Z) :
  l ≠ [] → StronglySorted Z.le (boundaries l) →
  ((∀ d, d ∈ l → (ts < getTime d)%Z) → getBucket l ts = Error)
  ∧ ((∃ d, d ∈ l ∧ (getTime d ≤ ts)%Z) →
       ∃ d, getBucket l ts = Bucket d ∧ closestInPast l ts d)
  ∧ ((∀ d, d ∈ l → (getTime d < ts)%Z) → Some (getBucket l ts) = Bucket <$> last l).
Proof.
  intros Hne Hsorted.
  assert (Hle : ∀ i j a b, i ≤ j → l !! i = Some a → l !! j = Some b → (getTime a ≤ getTime b)%Z).
  { intros i j a b Hij Ha Hb.
    eapply (StronglySorted_lookup_le _ i j); eauto using boundaries_lookup. }
  unfold getBucket. destruct (findIndex ts l) as [[|k]|] eqn:Hfind.
  - apply findIndex_Some in Hfind as (d0 & Hd0 & Hgt & _).
    split; [done|]. split.
    + intros (d & Hd & Hdle). apply list_elem_of_lookup in Hd as [j Hj].
      pose proof (Hle 0 j d0 d ltac:(lia) Hd0 Hj). lia.
    + intros Hall. assert (d0 ∈ l) as Hin by by eapply list_elem_of_lookup_2.
      specialize (Hall d0 Hin). lia.
  - apply findIndex_Some in Hfind as (dk & Hdk & Hgt & Hbefore).
    destruct (lookup_lt_is_Some_2 l k) as [d Hd].
    { apply lookup_lt_Some in Hdk. lia. }
    rewrite Hd. split; [|split].
    + intros Hall. assert (d ∈ l) as Hin by by eapply list_elem_of_lookup_2.
      specialize (Hall d Hin). specialize (Hbefore k d Hd ltac:(lia)). lia.
    + intros _. exists d. split; [done|]. split; [by eapply list_elem_of_lookup_2|].
      split; [apply (Hbefore k d Hd); lia|].
      intros d' Hd' Hle'. apply list_elem_of_lookup in Hd' as [j Hj].
      destruct (decide (j ≤ k)) as [Hjk|Hjk]; [by eapply (Hle j k)|].
      pose proof (Hle (S k) j dk d' ltac:(lia) Hdk Hj). lia.
    + intros Hall. assert (dk ∈ l) as Hin by by eapply list_elem_of_lookup_2.
      specialize (Hall dk Hin). lia.
  - pose proof (findIndex_None _ _ Hfind) as Hall.
    destruct (last l) as [d|] eqn:Hlast; [|by apply last_None in Hlast].
    assert (Hd : l !! (length l - 1) = Some d).
    { rewrite last_lookup in Hlast. by replace (length l - 1) with (pred (length l)) by lia. }
    split; [|split].
    + intros Hall'. assert (d ∈ l) as Hin by by eapply list_elem_of_lookup_2.
      specialize (Hall d Hin). specialize (Hall' d Hin). lia.
    + intros _. exists d. split; [done|]. split; [by eapply list_elem_of_lookup_2|].
      split; [apply Hall; by eapply list_elem_of_lookup_2|].
      intros d' Hd' _. apply list_elem_of_lookup in Hd' as [j Hj].
      eapply (Hle j (length l - 1)); [|done..].
      apply lookup_lt_Some in Hj. lia.
    + done.
Qed.

Lemma calculateLoop_spec relations ts smaller url :
  ((∀ r, r ∈ relations → ¬ (relationTs r ≤ ts ∧ smaller < relationTs r)%Z)
     ∧ calculateLoop relations ts smaller url = url)
  ∨ (∃ r, r ∈ relations ∧ calculateLoop relations ts smaller url = node r
          ∧ (relationTs r ≤ ts)%Z ∧ (smaller < relationTs r)%Z
          ∧ ∀ r', r' ∈ relations → (relationTs r' ≤ ts)%Z → (relationTs r' ≤ relationTs r)%Z).
Proof.
  revert smaller url. induction relations as [|r rest IH]; intros smaller url; simpl.
  - left. split; [|done]. intros r Hr. by apply elem_of_nil in Hr.
  - destruct (decide _) as [[Hle Hlt]|Hno].
    + right. destruct (IH (relationTs r) (node r)) as [[Hnone ->]|(r1 & Hin & -> & H1 & H2 & H3)].
      * exists r. split; [apply list_elem_of_here|]. split; [done|]. split; [done|]. split; [done|].
        intros r' Hr' Hle'. apply elem_of_cons in Hr' as [->|Hr']; [lia|].
        specialize (Hnone r' Hr'). lia.
      * exists r1. split; [by apply list_elem_of_further|]. split; [done|].
        split; [done|]. split; [lia|].
        intros r' Hr' Hle'. apply elem_of_cons in Hr' as [->|Hr']; [lia|]. by apply H3.
    + destruct (IH smaller url) as [[Hnone ->]|(r1 & Hin & -> & H1 & H2 & H3)].
      * left. split; [|done]. intros r' Hr'.
        apply elem_of_cons in Hr' as [->|Hr']; [done|]. by apply Hnone.
      * right. exists r1. split; [by apply list_elem_of_further|]. split; [done|].
        split; [done|]. split; [done|].
        intros r' Hr' Hle'. apply elem_of_cons in Hr' as [->|Hr']; [lia|]. by apply H3.
Qed.

(** [calculateBucket] when every boundary lies after the epoch. *)
Lemma calculateBucket_positive (relations : list Relation) (ts : Z) :
  (∀ r, r ∈ relations → (0 < relationTs r)%Z) →
  ((∀ r, r ∈ relations → (ts < relationTs r)%Z) → calculateBucket relations ts = "none"%string)
  ∧ ((∃ r, r ∈ relations ∧ (relationTs r ≤ ts)%Z) →
       ∃ r, calculateBucket relations ts = node r ∧ closestRelation relations ts r).
Proof.
  intros Hpos. unfold calculateBucket.
  destruct (calculateLoop_spec relations ts 0 "none"%string)
    as [[Hnone ->]|(r1 & Hin & -> & H1 & H2 & H3)].
  - split; [done|]. intros (r & Hr & Hle). specialize (Hnone r Hr). specialize (Hpos r Hr). lia.
  - split.
    + intros Hall. specialize (Hall r1 Hin). lia.
    + intros _. exists r1. by repeat split.
Qed.

(** C4 (failing input).  With a single bucket whose boundary is the epoch
    itself, [calculateBucket] answers "none" for a resource stamped five
    milliseconds later, although that boundary is the greatest one not
    exceeding the timestamp. *)
Theorem calculateBucket_epoch_boundary :
  calculateBucket [mkRelation 0 "bucket0"%string] 5 = "none"%string
  ∧ closestRelation [mkRelation 0 "bucket0"%string] 5 (mkRelation 0 "bucket0"%string).
Proof.
  split; [reflexivity|]. unfold closestRelation. split; [apply list_elem_of_here|].
  split; [simpl; lia|]. intros r' Hr' _. apply list_elem_of_singleton in Hr' as ->. simpl. lia.
Qed.

(** [getBucket] on three buckets and a resource stamped between the last
    two of them. *)
Lemma getBucket_sorted_three_buckets :
  ((∀ d, d ∈ [Examples.t0; Examples.t1; Examples.t2] → (1500 < getTime d)%Z) →
     getBucket [Examples.t0; Examples.t1; Examples.t2] 1500 = Error)
  ∧ ((∃ d, d ∈ [Examples.t0; Examples.t1; Examples.t2] ∧ (getTime d ≤ 1500)%Z) →
       ∃ d, getBucket [Examples.t0; Examples.t1; Examples.t2] 1500 = Bucket d
            ∧ closestInPast [Examples.t0; Examples.t1; Examples.t2] 1500 d)
  ∧ ((∀ d, d ∈ [Examples.t0; Examples.t1; Examples.t2] → (getTime d < 1500)%Z) →
       Some (getBucket [Examples.t0; Examples.t1; Examples.t2] 1500)
       = Bucket <$> last [Examples.t0; Examples.t1; Examples.t2]).
Proof.
  apply (getBucket_sorted [Examples.t0; Examples.t1; Examples.t2] 1500); [done|].
  simpl. repeat (constructor; [|repeat (constructor; [lia|]); constructor]). constructor.
Defined.

(** [calculateBucket] on two relations after the epoch. *)
Lemma calculateBucket_positive_two_relations :
  ((∀ r, r ∈ [mkRelation 1000 "b1"%string; mkRelation 2000 "b2"%string] →
         (1500 < relationTs r)%Z) →
     calculateBucket [mkRelation 1000 "b1"%string; mkRelation 2000 "b2"%string] 1500
     = "none"%string)
  ∧ ((∃ r, r ∈ [mkRelation 1000 "b1"%string; mkRelation 2000 "b2"%string]
           ∧ (relationTs r ≤ 1500)%Z) →
       ∃ r, calculateBucket [mkRelation 1000 "b1"%string; mkRelation 2000 "b2"%string] 1500
            = node r
            ∧ closestRelation [mkRelation 1000 "b1"%string; mkRelation 2000 "b2"%string] 1500 r).
Proof.
  apply (calculateBucket_positive [mkRelation 1000 "b1"%string; mkRelation 2000 "b2"%string] 1500).
  intros r Hr. repeat (apply elem_of_cons in Hr as [->|Hr]; [simpl; lia|]).
  by apply elem_of_nil in Hr.
Defined.

End Assignment.

(** ** SimplePublisher.getBucket on any list of buckets *)

Section AssignmentAnyOrder.
Import Publisher.

(** X27. Whatever the order of the known buckets, [getBucket] never
    assigns a resource to a bucket that starts after it: the bucket it
    returns is a known one whose boundary does not exceed the date of the
    resource.  It throws exactly when the first bucket of the list starts
    after the resource, and returns [undefined] exactly when no bucket is
    known. *)
Theorem getBucket_any_order (l : list Date) (ts : Z) :
  (getBucket l ts = Error ↔ ∃ d0, head l = Some d0 ∧ (ts < getTime d0)%Z)
  ∧ (getBucket l ts = NoBucket ↔ l = [])
  ∧ (∀ d, getBucket l ts = Bucket d → d ∈ l ∧ (getTime d ≤ ts)%Z).
Proof.
  unfold getBucket. destruct (findIndex ts l) as [[|k]|] eqn:Hfind.
  - apply findIndex_Some in Hfind as (d0 & Hd0 & Hgt & _).
    rewrite <- head_lookup in Hd0. split; [|split; [|done]].
    + split; [|done]. intros _. exists d0. split; [done|lia].
    + split; [done|]. intros ->. done.
  - apply findIndex_Some in Hfind as (dk & Hdk & Hgt & Hbefore).
    destruct (lookup_lt_is_Some_2 l k) as [d Hd].
    { apply lookup_lt_Some in Hdk. lia. }
    rewrite Hd. split; [|split].
    + split; [done|]. intros (d0 & Hd0 & Hlater). rewrite head_lookup in Hd0.
      specialize (Hbefore 0 d0 Hd0 ltac:(lia)). lia.
    + split; [done|]. intros ->. done.
    + intros d' [= <-]. split; [by eapply list_elem_of_lookup_2|].
      apply (Hbefore k d Hd). lia.
  - pose proof (findIndex_None _ _ Hfind) as Hall.
    destruct (last l) as [d|] eqn:Hlast.
    + assert (d ∈ l) as Hd.
      { rewrite last_lookup in Hlast. by eapply list_elem_of_lookup_2. }
      split; [|split].
      * split; [done|]. intros (d0 & Hd0 & Hlater). rewrite head_lookup in Hd0.
        apply list_elem_of_lookup_2, Hall in Hd0. lia.
      * split; [done|]. intros ->. by apply elem_of_nil in Hd.
      * intros d' [= <-]. split; [done|by apply Hall].
    + apply last_None in Hlast as ->. split; [|split; [done|done]].
      split; [done|]. by intros (d0 & Hd0 & _).
Qed.

End AssignmentAnyOrder.

(** ** extractResources *)

Section ExtractResources.
Import N3 Vocab Processing.
Local Open Scope string_scope.
Local Open Scope list_scope.
Local Open Scope nat_scope.

Implicit Types (store : Store) (quads : Resource) (ex U mainSubjects : gset string).

Lemma uniqueBy_subset {A K : Type} `{EqDecision K} (key : A → K) seen (l : list A) x :
  x ∈ uniqueBy key seen l → x ∈ l.
Proof.
  revert seen. induction l as [|y l IH]; intros seen; simpl; [done|].
  destruct (decide _); [intros ?; apply list_elem_of_further; eauto|].
  intros [->|?]%elem_of_cons; [apply list_elem_of_here|apply list_elem_of_further; eauto].
Qed.

Lemma getQuads_elem store s p o q :
  q ∈ getQuads store s p o ↔
  (matches s (subject q) ∧ matches p (predicate q) ∧ matches o (object q)) ∧ q ∈ store.
Proof. unfold getQuads. by rewrite list_elem_of_filter. Qed.

Lemma getQuads_length store s p o : length (getQuads store s p o) ≤ length store.
Proof. unfold getQuads. apply length_filter. Qed.

Lemma referenced_store store mainSubjects root o q :
  q ∈ referenced store mainSubjects root o → q ∈ store.
Proof.
  unfold referenced. intros [_ Hq]%list_elem_of_filter. by apply getQuads_elem in Hq as [_ ?].
Qed.

Lemma referenced_length store mainSubjects root o :
  length (referenced store mainSubjects root o) ≤ length store.
Proof.
  unfold referenced. etrans; [apply length_filter|apply getQuads_length].
Qed.

Lemma rootId_app quads extra q i :
  quads !! i = Some q → rootId (quads ++ extra) = rootId quads.
Proof. by destruct quads. Qed.

(** The result of the walk extends the list it started from. *)
Lemma walk_extends fuel store mainSubjects quads i ex r :
  walk fuel store mainSubjects quads i ex = Some r → ∃ extra, r = quads ++ extra.
Proof.
  revert quads i ex. induction fuel as [|fuel IH]; intros quads i ex; simpl; [done|].
  destruct (quads !! i) as [q|] eqn:Hq.
  - destruct (decide _).
    + apply IH.
    + intros (extra & ->)%IH. eexists. by rewrite <- app_assoc.
  - intros [= <-]. exists []. by rewrite app_nil_r.
Qed.

(** More fuel does not change a result. *)
Lemma walk_more_fuel fuel extra store mainSubjects quads i ex r :
  walk fuel store mainSubjects quads i ex = Some r →
  walk (fuel + extra) store mainSubjects quads i ex = Some r.
Proof.
  revert quads i ex. induction fuel as [|fuel IH]; intros quads i ex; simpl; [done|].
  destruct (quads !! i) as [q|]; [|done]. destruct (decide _); apply IH.
Qed.

(** The shape of the result: the quads of every object that was met for the
    first time were pushed once. *)
Lemma walk_visits_once fuel store mainSubjects quads i ex r :
  walk fuel store mainSubjects quads i ex = Some r →
  ∃ visited, NoDup visited ∧ (∀ o, o ∈ visited → o ∉ ex)
    ∧ r = quads ++ concat (map (referenced store mainSubjects (rootId quads)) visited).
Proof.
  revert quads i ex. induction fuel as [|fuel IH]; intros quads i ex; simpl; [done|].
  destruct (quads !! i) as [q|] eqn:Hq.
  - destruct (decide _) as [Hin|Hnotin].
    + apply IH.
    + intros (visited & Hnd & Hex & ->)%IH. exists (id (object q) :: visited).
      split; [|split].
      * apply NoDup_cons. split; [|done]. intros Hv. apply (Hex _ Hv). set_solver.
      * intros o [->|Ho]%elem_of_cons; [done|]. specialize (Hex o Ho). set_solver.
      * rewrite (rootId_app _ _ _ _ Hq). simpl. by rewrite <- app_assoc.
  - intros [= <-]. exists []. split; [constructor|]. split; [set_solver|].
    simpl. by rewrite app_nil_r.
Qed.

Lemma size_difference_insert U ex o :
  o ∈ U → o ∉ ex → size (U ∖ ({[o]} ∪ ex)) < size (U ∖ ex).
Proof. intros HU Hex. apply subset_size. set_solver. Qed.

(** The walk returns once the fuel exceeds its measure: the objects not met
    yet, each worth one more than the quads it can pull in, plus the quads
    still to look at. *)
Lemma walk_terminates fuel store mainSubjects U quads i ex :
  (∀ q, q ∈ store → id (object q) ∈ U) →
  (∀ k q, i ≤ k → quads !! k = Some q → id (object q) ∈ U ∪ ex) →
  size (U ∖ ex) * S (length store) + (length quads - i) < fuel →
  ∃ r, walk fuel store mainSubjects quads i ex = Some r.
Proof.
  intros HU. revert quads i ex.
  induction fuel as [|fuel IH]; intros quads i ex Hinv Hfuel; simpl; [lia|].
  destruct (quads !! i) as [q|] eqn:Hq; [|by eexists].
  pose proof (lookup_lt_Some _ _ _ Hq) as Hlt.
  destruct (decide _) as [Hin|Hnotin].
  - apply IH; [|lia]. intros k q' Hk. apply Hinv. lia.
  - assert (HqU : id (object q) ∈ U).
    { specialize (Hinv i q ltac:(lia) Hq). set_solver. }
    pose proof (size_difference_insert U ex _ HqU Hnotin) as Hsize.
    pose proof (referenced_length store mainSubjects (rootId quads) (id (object q))) as Hlen.
    apply IH.
    + intros k q' Hk Hq'. destruct (decide (k < length quads)) as [Hk'|Hk'].
      * rewrite lookup_app_l in Hq' by done.
        specialize (Hinv k q' ltac:(lia) Hq'). set_solver.
      * rewrite lookup_app_r in Hq' by lia.
        apply list_elem_of_lookup_2, referenced_store in Hq'.
        specialize (HU q' Hq'). set_solver.
    + rewrite length_app. nia.
Qed.

Lemma size_list_to_set_le (l : list string) : size (list_to_set l : gset string) ≤ length l.
Proof.
  induction l as [|x l IH]; [by rewrite list_to_set_nil, size_empty|].
  rewrite list_to_set_cons. simpl length.
  rewrite size_union_alt, size_singleton.
  pose proof (subseteq_size (list_to_set l ∖ {[x]}) (list_to_set l : gset string)
                ltac:(set_solver)). lia.
Qed.

(** The walk of every main subject returns within [walkFuel store] steps. *)
Lemma walk_initial_terminates store mainSubjects eventStreamURI subj :
  ∃ r, walk (walkFuel store) store mainSubjects
         (initialResource store eventStreamURI subj) 0
         {[ rootId (initialResource store eventStreamURI subj) ]} = Some r.
Proof.
  set (U := ({[ id subj ]} ∪ list_to_set (map (λ q, id (object q)) store) : gset string)).
  apply (walk_terminates _ _ _ U).
  - intros q Hq. unfold U. apply elem_of_union_r, elem_of_list_to_set, list_elem_of_fmap. eauto.
  - intros k q _ Hq. apply list_elem_of_lookup_2 in Hq. unfold initialResource in Hq.
    apply elem_of_app in Hq as [Hq|Hq].
    + apply getQuads_elem in Hq as [_ Hq]. apply elem_of_union_l. unfold U.
      apply elem_of_union_r, elem_of_list_to_set, list_elem_of_fmap. eauto.
    + apply list_elem_of_singleton in Hq as ->. simpl. set_solver.
  - assert (size (U ∖ {[rootId (initialResource store eventStreamURI subj)]}) ≤ S (length store)).
    { etrans; [apply subseteq_size, subseteq_difference_l; reflexivity|].
      unfold U. rewrite size_union_alt, size_singleton.
      pose proof (size_list_to_set_le (map (λ q, id (object q)) store)) as Hle.
      rewrite length_map in Hle.
      pose proof (subseteq_size
        ((list_to_set (map (λ q, id (object q)) store) : gset string) ∖ {[id subj]})
        (list_to_set (map (λ q, id (object q)) store)) ltac:(set_solver)). lia. }
    assert (length (initialResource store eventStreamURI subj) ≤ S (length store)).
    { unfold initialResource. rewrite length_app. simpl.
      pose proof (getQuads_length store (Some (id subj)) None None). lia. }
    unfold walkFuel. nia.
Qed.

Lemma walk_main_subjects store mainSubjects eventStreamURI (subjects : list Term) :
  ∃ resources,
    (∀ extra,
       mapM (λ quads, walk (walkFuel store + extra) store mainSubjects quads 0 {[ rootId quads ]})
            (map (initialResource store eventStreamURI) subjects) = Some resources)
    ∧ Forall2 (λ subj r, ∃ extra visited,
                 walk (walkFuel store + extra) store mainSubjects
                   (initialResource store eventStreamURI subj) 0
                   {[ rootId (initialResource store eventStreamURI subj) ]} = Some r
                 ∧ NoDup visited
                 ∧ r = initialResource store eventStreamURI subj
                       ++ concat (map (referenced store mainSubjects
                                         (rootId (initialResource store eventStreamURI subj)))
                                      visited))
              subjects resources.
Proof.
  induction subjects as [|subj rest (resources & Hres & Hall)].
  - exists []. split; [done|constructor].
  - destruct (walk_initial_terminates store mainSubjects eventStreamURI subj) as [r Hr].
    exists (r :: resources). split.
    + intros extra. apply mapM_Some_2. constructor.
      * by apply walk_more_fuel.
      * apply mapM_Some_1, Hres.
    + constructor; [|done].
      destruct (walk_visits_once _ _ _ _ _ _ _ Hr) as (visited & Hnd & _ & Heq).
      exists 0, visited. rewrite Nat.add_0_r. done.
Qed.

(** C6.  [extractResources] returns, and the resource it returns for a main
    subject holds the membership triple that links the stream to that
    subject and every triple of the store whose subject is that subject
    (so every triple that asserts the distinguishing predicate on it). *)
Theorem extractResources_contains_own_triples (store : list Quad) (treePath eventStreamURI : string) :
  ∃ resources,
    (∀ extra, extractResources (walkFuel store + extra) store treePath eventStreamURI
              = Some resources)
    ∧ Forall2 (containsOwnTriples store eventStreamURI) (getSubjects store treePath) resources.
Proof.
  destruct (walk_main_subjects store (list_to_set (map id (getSubjects store treePath)))
              eventStreamURI (getSubjects store treePath)) as (resources & Hres & Hall).
  exists resources. split; [exact Hres|].
  eapply Forall2_impl; [exact Hall|]. cbv beta.
  intros subj r (extra & visited & Hwalk & _ & _).
  apply walk_extends in Hwalk as [more ->]. unfold containsOwnTriples, initialResource. split.
  - apply elem_of_app. left. apply elem_of_app. right. apply list_elem_of_here.
  - intros q Hq Hsubj. apply elem_of_app. left. apply elem_of_app. left.
    apply getQuads_elem. by repeat split.
Qed.

(** C7.  On every store, cyclic or not, the walk of [extractResources]
    comes to an end within [walkFuel store] iterations for every main
    subject, and the resource it leaves is the initial one followed by the
    quads of pairwise distinct object identifiers: no identifier is
    expanded twice. *)
Theorem extractResources_terminates (store : list Quad) (treePath eventStreamURI : string) :
  ∃ resources,
    (∀ extra, extractResources (walkFuel store + extra) store treePath eventStreamURI
              = Some resources)
    ∧ Forall2 (visitedOnce store treePath eventStreamURI) (getSubjects store treePath) resources.
Proof.
  destruct (walk_main_subjects store (list_to_set (map id (getSubjects store treePath)))
              eventStreamURI (getSubjects store treePath)) as (resources & Hres & Hall).
  exists resources. split; [exact Hres|].
  eapply Forall2_impl; [exact Hall|]. cbv beta.
  intros subj r (extra & visited & _ & Hnd & Heq). by exists visited.
Qed.

(** C6 and C7 on a store with a cycle of length two and a self-loop: the
    resource of [a] holds its own triples, the membership triple and the
    triples of [b], each once. *)
Example extractResources_cyclicStore :
  extractResources (walkFuel Examples.cyclicStore) Examples.cyclicStore Examples.created
    "http://example.org/stream#EventStream"
  = Some [[quad (Examples.ex "a") (NamedNode Examples.created)
             (Literal "2022-01-01T00:00:00Z" EmptyString xsd_string);
           quad (Examples.ex "a") (Examples.ex "knows") (Examples.ex "b");
           quad (NamedNode "http://example.org/stream#EventStream") (NamedNode TREE_member)
             (Examples.ex "a");
           quad (Examples.ex "b") (Examples.ex "knows") (Examples.ex "a");
           quad (Examples.ex "b") (Examples.ex "self") (Examples.ex "b")]].
Proof. vm_compute. reflexivity. Qed.

End ExtractResources.

(** ** extractResources: the content of a resource *)

Section ExtractedResources.
Import N3 Vocab Processing.
Local Open Scope string_scope.
Local Open Scope list_scope.
Local Open Scope nat_scope.

(** *** What a resource holds *)

Lemma Forall2_elem_of_l {B C : Type} (P : B → C → Prop) (l : list B) (k : list C) :
  Forall2 P l k → Forall2 (λ x y, x ∈ l ∧ P x y) l k.
Proof.
  intros H.
  assert (∀ l0 : list B, (∀ x, x ∈ l → x ∈ l0) → Forall2 (λ x y, x ∈ l0 ∧ P x y) l k) as Haux.
  { induction H as [|x y l' k' Hxy _ IH]; intros l0 Hsub; constructor.
    - split; [apply Hsub, list_elem_of_here|done].
    - apply IH. intros z Hz. by apply Hsub, list_elem_of_further. }
  by apply Haux.
Qed.

Lemma elem_of_concat {B : Type} (x : B) (ls : list (list B)) :
  x ∈ concat ls ↔ ∃ l, x ∈ l ∧ l ∈ ls.
Proof.
  induction ls as [|l0 ls IH]; simpl.
  - split; [by intros ?%elem_of_nil|by intros (l & _ & ?%elem_of_nil)].
  - rewrite elem_of_app, IH. split.
    + intros [Hx|(l & Hx & Hl)].
      * exists l0. split; [done|apply list_elem_of_here].
      * exists l. split; [done|by apply list_elem_of_further].
    + intros (l & Hx & [->|Hl]%elem_of_cons); [by left|right; eauto].
Qed.

(** The first quad of the initial resource of a main subject is one of its
    own quads. *)
Lemma rootId_main_subject store treePath eventStreamURI subj :
  subj ∈ getSubjects store treePath →
  rootId (initialResource store eventStreamURI subj) = id subj.
Proof.
  intros Hsubj. apply uniqueBy_subset, list_elem_of_fmap in Hsubj as (q0 & -> & Hq0).
  apply getQuads_elem in Hq0 as [_ Hq0].
  assert (q0 ∈ getQuads store (Some (id (subject q0))) None None) as Hown.
  { apply getQuads_elem. by repeat split. }
  unfold initialResource.
  destruct (getQuads store (Some (id (subject q0))) None None) as [|q1 rest] eqn:Hquads.
  - by apply elem_of_nil in Hown.
  - simpl. assert (q1 ∈ getQuads store (Some (id (subject q0))) None None) as Hq1.
    { rewrite Hquads. apply list_elem_of_here. }
    apply getQuads_elem in Hq1 as [[Hs _] _]. exact Hs.
Qed.

(** When the walk ends, the object of every quad of the resource was met. *)
Lemma walk_objects_met fuel store mainSubjects quads i ex r :
  walk fuel store mainSubjects quads i ex = Some r →
  (∀ k q, k < i → quads !! k = Some q → id (object q) ∈ ex) →
  ∃ visited,
    r = quads ++ concat (map (referenced store mainSubjects (rootId quads)) visited)
    ∧ ∀ q, q ∈ r → id (object q) ∈ ex ∨ id (object q) ∈ visited.
Proof.
  revert quads i ex. induction fuel as [|fuel IH]; intros quads i ex; simpl; [done|].
  destruct (quads !! i) as [q|] eqn:Hq.
  - pose proof (lookup_lt_Some _ _ _ Hq) as Hlt.
    destruct (decide _) as [Hin|Hnotin]; intros Hwalk Hinv.
    + apply (IH _ _ _ Hwalk). intros k q' Hk Hq'.
      destruct (decide (k = i)) as [->|Hne]; [congruence|].
      apply (Hinv k); [lia|done].
    + destruct (IH _ _ _ Hwalk) as (visited & -> & Hmet).
      { intros k q' Hk Hq'. rewrite lookup_app_l in Hq' by lia.
        destruct (decide (k = i)) as [->|Hne]; [set_solver|].
        apply elem_of_union_r, (Hinv k); [lia|done]. }
      exists (id (object q) :: visited). split.
      * rewrite (rootId_app _ _ _ _ Hq). simpl. by rewrite <- app_assoc.
      * intros q' Hq'. destruct (Hmet q' Hq') as [Hex|Hv].
        -- apply elem_of_union in Hex as [->%elem_of_singleton|Hex]; [|by left].
           right. apply list_elem_of_here.
        -- right. by apply list_elem_of_further.
  - intros [= <-] Hinv. exists []. split; [simpl; by rewrite app_nil_r|].
    intros q' Hq'. left. apply list_elem_of_lookup in Hq' as [k Hk].
    apply (Hinv k); [|done].
    apply lookup_ge_None in Hq. apply lookup_lt_Some in Hk. lia.
Qed.

(** What the walk of a main subject leaves. *)
Lemma walk_main_subject_content store treePath eventStreamURI subj r fuel :
  subj ∈ getSubjects store treePath →
  walk fuel store (list_to_set (map id (getSubjects store treePath)))
    (initialResource store eventStreamURI subj) 0
    {[ rootId (initialResource store eventStreamURI subj) ]} = Some r →
  ∃ visited,
    r = initialResource store eventStreamURI subj
        ++ concat (map (referenced store (list_to_set (map id (getSubjects store treePath)))
                          (id subj)) visited)
    ∧ ∀ q, q ∈ r → id (object q) = id subj ∨ id (object q) ∈ visited.
Proof.
  intros Hsubj Hwalk.
  apply walk_objects_met in Hwalk as (visited & -> & Hmet); [|intros k q Hk; lia].
  rewrite (rootId_main_subject _ _ _ _ Hsubj) in *.
  exists visited. split; [done|].
  intros q Hq. destruct (Hmet q Hq) as [->%elem_of_singleton|Hv]; [by left|by right].
Qed.

Lemma main_subject_id store treePath (o : string) :
  o ∈ (list_to_set (map id (getSubjects store treePath)) : gset string)
  ↔ ∃ main, main ∈ getSubjects store treePath ∧ o = id main.
Proof.
  rewrite elem_of_list_to_set, list_elem_of_fmap. naive_solver.
Qed.

(** X10. [extractResources] returns, and every quad of the resource of a
    main subject is the membership triple of that subject or a quad of the
    store; a quad of the store that points to another main subject is in
    the resource only as a quad of the main subject itself. *)
Theorem extractResources_only_store_quads (store : list Quad) (treePath eventStreamURI : string) :
  ∃ resources,
    (∀ extra, extractResources (walkFuel store + extra) store treePath eventStreamURI
              = Some resources)
    ∧ Forall2 (onlyStoreQuads store treePath eventStreamURI)
        (getSubjects store treePath) resources.
Proof.
  destruct (walk_main_subjects store (list_to_set (map id (getSubjects store treePath)))
              eventStreamURI (getSubjects store treePath)) as (resources & Hres & Hall).
  exists resources. split; [exact Hres|].
  apply Forall2_elem_of_l in Hall.
  eapply Forall2_impl; [exact Hall|]. cbv beta.
  intros subj r (Hsubj & extra & _ & Hwalk & _ & _).
  apply (walk_main_subject_content _ _ _ _ _ _ Hsubj) in Hwalk as (visited & -> & _).
  intros q [Hq|Hq]%elem_of_app.
  - unfold initialResource in Hq. apply elem_of_app in Hq as [Hq|Hq].
    + right. apply getQuads_elem in Hq as [[Hs _] Hq]. split; [done|]. by left.
    + left. by apply list_elem_of_singleton in Hq.
  - right. apply elem_of_concat in Hq as (block & Hq & Hblock).
    apply list_elem_of_fmap in Hblock as (o & -> & _).
    unfold referenced in Hq. apply list_elem_of_filter in Hq as [Hkeep Hq].
    apply getQuads_elem in Hq as [_ Hq]. split; [done|]. right.
    destruct Hkeep as [Hroot|Hother]; [by left|right].
    intros main Hmain Heq. apply Hother, main_subject_id. eauto.
Qed.

(** X11. [extractResources] returns, and the resource of a main subject
    is closed under references: with a quad it holds the quads of the
    store whose subject is the object of that quad, except those that
    point to another main subject. *)
Theorem extractResources_closed_under_references (store : list Quad)
    (treePath eventStreamURI : string) :
  ∃ resources,
    (∀ extra, extractResources (walkFuel store + extra) store treePath eventStreamURI
              = Some resources)
    ∧ Forall2 (closedUnderReferences store treePath) (getSubjects store treePath) resources.
Proof.
  destruct (walk_main_subjects store (list_to_set (map id (getSubjects store treePath)))
              eventStreamURI (getSubjects store treePath)) as (resources & Hres & Hall).
  exists resources. split; [exact Hres|].
  apply Forall2_elem_of_l in Hall.
  eapply Forall2_impl; [exact Hall|]. cbv beta.
  intros subj r (Hsubj & extra & _ & Hwalk & _ & _).
  apply (walk_main_subject_content _ _ _ _ _ _ Hsubj) in Hwalk as (visited & Hr & Hmet).
  intros q q' Hq Hq' Hlink Hkeep.
  destruct (Hmet q Hq) as [Hroot|Hv]; rewrite Hr; apply elem_of_app.
  - left. unfold initialResource. apply elem_of_app. left.
    apply getQuads_elem. repeat split; [|done]. simpl. congruence.
  - right. apply elem_of_concat. eexists. split; [|apply list_elem_of_fmap; eauto].
    unfold referenced. apply list_elem_of_filter. split.
    + destruct Hkeep as [Hroot|Hother]; [by left|right].
      intros (main & Hmain & Heq)%main_subject_id. by apply (Hother main).
    + apply getQuads_elem. by repeat split.
Qed.

End ExtractedResources.
(** ** The indexes of the store *)

Section StoreIndex.
Import N3 Vocab Processing.
Local Open Scope string_scope.
Local Open Scope list_scope.
Local Open Scope nat_scope.

Implicit Types (store : Store).

Lemma elem_of_flat_map {B C : Type} (f : B → list C) (l : list B) (y : C) :
  y ∈ flat_map f l ↔ ∃ x, x ∈ l ∧ y ∈ f x.
Proof.
  rewrite list_elem_of_In, in_flat_map.
  split; intros (x & Hx & Hy); exists x; split; by apply list_elem_of_In.
Qed.

Lemma uniqueBy_complete {A K : Type} `{EqDecision K} (key : A → K) seen (l : list A) x :
  x ∈ l → key x ∉ seen → ∃ y, y ∈ uniqueBy key seen l ∧ key y = key x.
Proof.
  revert seen. induction l as [|a l IH]; intros seen Hx Hseen; [by apply elem_of_nil in Hx|].
  simpl. destruct (decide (key a ∈ seen)) as [Hin|Hnotin].
  - apply elem_of_cons in Hx as [->|Hx]; [done|]. by apply IH.
  - destruct (decide (key a = key x)) as [Heq|Hne].
    + exists a. split; [apply list_elem_of_here|done].
    + apply elem_of_cons in Hx as [->|Hx]; [done|].
      destruct (IH (key a :: seen) Hx) as (y & Hy & Hk).
      { intros [?|?]%elem_of_cons; congruence. }
      exists y. split; [by apply list_elem_of_further|done].
Qed.

Lemma uniqueBy_NoDup {A K : Type} `{EqDecision K} (key : A → K) seen (l : list A) :
  NoDup (map key (uniqueBy key seen l)) ∧ ∀ x, x ∈ uniqueBy key seen l → key x ∉ seen.
Proof.
  revert seen. induction l as [|a l IH]; intros seen; simpl.
  - split; [constructor|by intros x ?%elem_of_nil].
  - destruct (decide (key a ∈ seen)) as [Hin|Hnotin]; [apply IH|].
    destruct (IH (key a :: seen)) as [Hnd Hfresh]. split.
    + simpl. apply NoDup_cons. split; [|done].
      intros (y & Hy & Hin)%list_elem_of_fmap. apply Hfresh in Hin.
      apply Hin. rewrite Hy. apply list_elem_of_here.
    + intros x [->|Hx]%elem_of_cons; [done|].
      apply Hfresh in Hx. intros ?. apply Hx. by apply list_elem_of_further.
Qed.

Lemma distinct_elem {K : Type} `{EqDecision K} (l : list K) x :
  x ∈ uniqueBy (λ i, i) [] l ↔ x ∈ l.
Proof.
  split; [apply uniqueBy_subset|]. intros Hx.
  destruct (uniqueBy_complete (λ i : K, i) [] l x Hx) as (y & Hy & ->); [|done].
  apply not_elem_of_nil.
Qed.

Lemma distinct_NoDup {K : Type} `{EqDecision K} (l : list K) : NoDup (uniqueBy (λ i, i) [] l).
Proof.
  destruct (uniqueBy_NoDup (λ i : K, i) [] l) as [Hnd _]. by rewrite map_id in Hnd.
Qed.

(** The enumeration of the keys of an object is a rearrangement of the
    keys. *)
Lemma ownKeys_Permutation (created : list string) : JS.ownKeys created ≡ₚ created.
Proof.
  unfold JS.ownKeys. rewrite merge_sort_Permutation.
  induction created as [|k created IH]; [done|].
  rewrite !filter_cons. destruct (decide (is_Some (JS.arrayIndex k))) as [[n Hk]|Hk].
  - destruct (decide (JS.arrayIndex k = None)); [congruence|]. simpl. by rewrite IH.
  - destruct (decide (JS.arrayIndex k = None)) as [_|Hno];
      [|by destruct Hno; apply eq_None_not_Some].
    rewrite <- Permutation_middle. by rewrite IH.
Qed.

Lemma entities_subject store q : q ∈ store → id (subject q) ∈ entities store.
Proof.
  intros Hq. apply distinct_elem, elem_of_flat_map. exists q. split; [done|].
  apply list_elem_of_here.
Qed.

Lemma entities_object store q : q ∈ store → id (object q) ∈ entities store.
Proof.
  intros Hq. apply distinct_elem, elem_of_flat_map. exists q. split; [done|].
  do 2 apply list_elem_of_further. apply list_elem_of_here.
Qed.

Lemma graphs_graph store q : q ∈ store → graphId (graph q) ∈ graphs store.
Proof.
  intros Hq. unfold graphs. rewrite ownKeys_Permutation. apply distinct_elem.
  by apply (list_elem_of_fmap_2 (λ q, graphId (graph q))).
Qed.

Lemma graphs_NoDup store : NoDup (graphs store).
Proof. unfold graphs. rewrite ownKeys_Permutation. apply distinct_NoDup. Qed.

(** *** Reading an index by its keys *)

Lemma flat_map_nil {B C : Type} (l : list B) : flat_map (λ _ : B, @nil C) l = [].
Proof. by induction l. Qed.

Lemma flat_map_app_Permutation {B C : Type} (f g : B → list C) (l : list B) :
  flat_map (λ k, f k ++ g k) l ≡ₚ flat_map f l ++ flat_map g l.
Proof.
  induction l as [|k l IH]; simpl; [done|]. rewrite IH.
  rewrite <- !app_assoc. apply Permutation_app_head.
  rewrite !app_assoc. apply Permutation_app_tail, Permutation_app_comm.
Qed.

Lemma flat_map_Permutation_ext {B C : Type} (f g : B → list C) (l : list B) :
  (∀ k, f k ≡ₚ g k) → flat_map f l ≡ₚ flat_map g l.
Proof. intros Hfg. induction l as [|k l IH]; simpl; [done|]. by rewrite Hfg, IH. Qed.

Lemma flat_map_single {B C : Type} `{EqDecision B} (k0 : B) (ys : list C) (l : list B) :
  NoDup l →
  flat_map (λ k, if decide (k0 = k) then ys else []) l = if decide (k0 ∈ l) then ys else [].
Proof.
  induction l as [|k l IH]; intros Hnd; cbn [flat_map].
  - destruct (decide (k0 ∈ [])) as [?%elem_of_nil|]; done.
  - apply NoDup_cons in Hnd as [Hnotin Hnd]. rewrite (IH Hnd).
    destruct (decide (k0 ∈ k :: l)) as [Hin'|Hnotin''], (decide (k0 ∈ l)) as [Hin|Hnotin'],
      (decide (k0 = k)) as [Heq|Hne]; subst; try done;
      try (destruct Hnotin''; (apply list_elem_of_here || by apply list_elem_of_further)).
    + apply app_nil_r.
    + apply elem_of_cons in Hin' as [?|?]; done.
Qed.

(** An index that is read key by key yields what it holds. *)
Lemma flat_map_filter_key {B K : Type} `{EqDecision K} (key : B → K)
    (Q : B → Prop) `{∀ x, Decision (Q x)} (keys : list K) (l : list B) :
  NoDup keys → (∀ x, x ∈ l → key x ∈ keys) →
  flat_map (λ k, filter (λ x, Q x ∧ key x = k) l) keys ≡ₚ filter Q l.
Proof.
  intros Hnd. induction l as [|x l IH]; intros Hkeys.
  - rewrite (flat_map_Permutation_ext _ (λ _, [])) by done. by rewrite flat_map_nil.
  - assert (flat_map (λ k, filter (λ x, Q x ∧ key x = k) (x :: l)) keys
            ≡ₚ flat_map (λ k, (if decide (key x = k)
                               then (if decide (Q x) then [x] else []) else [])
                              ++ filter (λ x, Q x ∧ key x = k) l) keys) as ->.
    { apply flat_map_Permutation_ext. intros k. rewrite filter_cons.
      destruct (decide (key x = k)) as [->|Hne].
      - destruct (decide (Q x)); [by rewrite decide_True|by rewrite decide_False by naive_solver].
      - by rewrite decide_False by naive_solver. }
    rewrite flat_map_app_Permutation, IH
      by (intros y Hy; by apply Hkeys, list_elem_of_further).
    rewrite flat_map_single, decide_True by (done || apply Hkeys, list_elem_of_here).
    rewrite filter_cons. by destruct (decide (Q x)).
Qed.

Lemma filter_iff {B : Type} (P Q : B → Prop)
    `{∀ x, Decision (P x)} `{∀ x, Decision (Q x)} (l : list B) :
  (∀ x, P x ↔ Q x) → filter P l = filter Q l.
Proof.
  intros HPQ. induction l as [|x l IH]; [done|]. rewrite !filter_cons, IH.
  destruct (decide (P x)) as [HP|HP].
  - by rewrite decide_True by by apply HPQ.
  - by rewrite decide_False by by rewrite <- HPQ.
Qed.

(** The predicate index holds the quads of the store with that predicate,
    each of them once. *)
Lemma getQuadsByPredicate_Permutation store (p : string) :
  getQuadsByPredicate store p ≡ₚ getQuads store None (Some p) None.
Proof.
  unfold getQuadsByPredicate, getQuads.
  transitivity (flat_map (λ g, filter (λ q, id (predicate q) = p ∧ graphId (graph q) = g) store)
                  (graphs store)).
  - apply flat_map_Permutation_ext. intros g.
    transitivity (flat_map (λ o, filter (λ q, (id (predicate q) = p ∧ graphId (graph q) = g)
                                               ∧ id (object q) = o) store)
                    (entities store)).
    + apply flat_map_Permutation_ext. intros o.
      rewrite <- (flat_map_filter_key (λ q, id (subject q))
                   (λ q, (id (predicate q) = p ∧ graphId (graph q) = g) ∧ id (object q) = o)
                   (entities store) store)
        by (apply distinct_NoDup || apply entities_subject).
      apply flat_map_Permutation_ext. intros s.
      rewrite (filter_iff _
                 (λ q, ((id (predicate q) = p ∧ graphId (graph q) = g) ∧ id (object q) = o)
                       ∧ id (subject q) = s)); [done|].
      naive_solver.
    + apply flat_map_filter_key; [apply distinct_NoDup|apply entities_object].
  - rewrite (flat_map_filter_key (λ q, graphId (graph q)) (λ q, id (predicate q) = p))
      by (apply graphs_NoDup || apply graphs_graph).
    rewrite (filter_iff
               (λ q, matches None (subject q) ∧ matches (Some p) (predicate q)
                     ∧ matches None (object q))
               (λ q, id (predicate q) = p)); [done|].
    intros q. simpl. naive_solver.
Qed.

Lemma getQuadsByPredicate_elem store (p : string) q :
  q ∈ getQuadsByPredicate store p ↔ q ∈ store ∧ id (predicate q) = p.
Proof.
  rewrite getQuadsByPredicate_Permutation, getQuads_elem. simpl. naive_solver.
Qed.

End StoreIndex.

(** ** generateShape *)

(** Closes a goal whose hypothesis [H] equates two different constants of
    the vocabulary. *)
Ltac vocabulary_clash H := exfalso; vm_compute in H; discriminate H.

Section GenerateShape.
Import N3 Vocab Processing.

Local Open Scope string_scope.
Local Open Scope list_scope.
Local Open Scope nat_scope.

Implicit Types (resource shape : list Quad) (subjects : gmap string Term).

(** *** The store of a resource *)

Lemma uniqueBy_length {A K : Type} `{Countable K} (key : A → K) (seen : list K) (l : list A) :
  length (uniqueBy key seen l)
  = size ((list_to_set (map key l) : gset K) ∖ list_to_set seen).
Proof.
  revert seen. induction l as [|x l IH]; intros seen.
  - cbn [uniqueBy map length]. rewrite list_to_set_nil.
    replace (∅ ∖ list_to_set seen : gset K) with (∅ : gset K) by set_solver.
    by rewrite size_empty.
  - cbn [uniqueBy map]. rewrite list_to_set_cons. destruct (decide (key x ∈ seen)) as [Hin|Hnotin].
    + rewrite IH. f_equal. apply set_eq. intros k.
      rewrite !elem_of_difference, elem_of_union, elem_of_singleton, !elem_of_list_to_set.
      naive_solver.
    + cbn [length]. rewrite IH, list_to_set_cons.
      assert (Heq : (({[key x]} ∪ list_to_set (map key l)) ∖ list_to_set seen : gset K)
                    = {[key x]} ∪ (list_to_set (map key l) ∖ ({[key x]} ∪ list_to_set seen))).
      { apply set_eq. intros k.
        rewrite !elem_of_union, !elem_of_difference, !elem_of_union, elem_of_singleton,
          !elem_of_list_to_set.
        destruct (decide (k = key x)) as [->|]; naive_solver. }
      rewrite Heq, (size_union (C:=gset K) {[key x]}) by set_solver.
      by rewrite size_singleton.
Qed.

Lemma newStore_sound resource q : q ∈ newStore resource → q ∈ resource.
Proof. apply uniqueBy_subset. Qed.

Lemma newStore_complete resource q :
  q ∈ resource → ∃ q', q' ∈ newStore resource ∧ quadKey q' = quadKey q.
Proof. intros Hq. apply uniqueBy_complete; [done|]. apply not_elem_of_nil. Qed.

Lemma size_insert_list_to_set {K : Type} `{Countable K} (x : K) (l : list K) :
  size (list_to_set (C:=gset K) (x :: l))
  = if decide (x ∈ l) then size (list_to_set (C:=gset K) l)
    else S (size (list_to_set (C:=gset K) l)).
Proof.
  rewrite list_to_set_cons. destruct (decide (x ∈ l)) as [Hin|Hnotin].
  - f_equal. apply set_eq. intros k. rewrite elem_of_union, elem_of_singleton, elem_of_list_to_set.
    naive_solver.
  - rewrite (size_union (C:=gset K) {[x]}), size_singleton; [done|].
    apply disjoint_singleton_l. by rewrite elem_of_list_to_set.
Qed.

Lemma size_list_to_set_inj {K L : Type} `{Countable K, Countable L} (f : K → L) (l : list K) :
  (∀ a b, f a = f b → a = b) →
  size (list_to_set (C:=gset L) (map f l)) = size (list_to_set (C:=gset K) l).
Proof.
  intros Hinj. induction l as [|x l IH]; [done|].
  cbn [map]. rewrite !size_insert_list_to_set, IH.
  destruct (decide (x ∈ l)) as [Hin|Hnotin].
  - rewrite decide_True; [done|]. apply list_elem_of_fmap. eauto.
  - rewrite decide_False; [done|]. intros (y & Hy & Hin)%list_elem_of_fmap.
    apply Hinj in Hy as ->. done.
Qed.

(** [getObjects] counts the distinct triples of the resource that share
    the subject and the predicate. *)
Lemma getObjects_length resource (s p : string) :
  length (getObjects (newStore resource) s p) = distinctTriples resource s p.
Proof.
  unfold getObjects, distinctTriples. rewrite uniqueBy_length.
  rewrite list_to_set_nil, difference_empty_L.
  set (objs := map id (map object (getQuads (newStore resource) (Some s) (Some p) None))).
  rewrite <- (size_list_to_set_inj (λ o, (s, p, o)) objs) by (by intros a b [= ->]).
  f_equal. apply set_eq. intros [[s' p'] o']. unfold objs.
  rewrite !elem_of_list_to_set, !list_elem_of_fmap. split.
  - intros (o & Heq & Ho). injection Heq as -> -> ->.
    apply list_elem_of_fmap in Ho as (t & -> & Ht).
    apply list_elem_of_fmap in Ht as (q & -> & Hq).
    apply getQuads_elem in Hq as [(Hs & Hp & _) Hq]. simpl in Hs, Hp.
    exists q. split; [unfold tripleKey; by rewrite Hs, Hp|].
    apply list_elem_of_filter. split; [done|]. by apply newStore_sound.
  - intros (q & Hkey & Hq). apply list_elem_of_filter in Hq as [[Hs Hp] Hq].
    unfold tripleKey in Hkey. injection Hkey as -> -> ->.
    destruct (newStore_complete _ _ Hq) as (q' & Hq' & Hkey').
    unfold quadKey in Hkey'. injection Hkey' as Hs' Hp' Ho' _.
    exists (id (object q)). split; [by rewrite Hs, Hp|]. rewrite <- Ho'.
    apply list_elem_of_fmap. exists (object q'). split; [done|].
    apply list_elem_of_fmap. exists q'. split; [done|].
    apply getQuads_elem. split; [|done]. repeat split; simpl; congruence.
Qed.

(** *** The two loops *)

Lemma typeAssertions_elem resource q :
  q ∈ typeAssertions resource ↔ q ∈ newStore resource ∧ id (predicate q) = RDF_type.
Proof. apply getQuadsByPredicate_elem. Qed.

Lemma targetClassTriples_app T shape1 shape2 :
  targetClassTriples T (shape1 ++ shape2)
  = targetClassTriples T shape1 ++ targetClassTriples T shape2.
Proof. unfold targetClassTriples. apply filter_app. Qed.

Lemma typeLoop_count T eventStreamURL (l : list Quad) acc acc' :
  foldM (typeStep eventStreamURL) acc l = Some acc' →
  length (targetClassTriples T acc'.1)
  = length (targetClassTriples T acc.1) + length (filter (λ q, id (object q) = id T) l).
Proof.
  revert acc. induction l as [|q l IH]; intros acc; cbn [foldM].
  - intros [= <-]. rewrite filter_nil. simpl. lia.
  - destruct (typeStep eventStreamURL acc q) as [acc1|] eqn:Hstep; simpl; [|done].
    unfold typeStep in Hstep.
    destruct (extractValue (value (object q))) as [v|] eqn:Hv; simpl in Hstep; [|done].
    injection Hstep as <-. intros ->%IH. simpl.
    rewrite targetClassTriples_app, length_app, (filter_cons _ q).
    unfold targetClassTriples at 2.
    rewrite filter_cons, decide_False by (intros [H _]; vocabulary_clash H).
    rewrite filter_cons, filter_nil. simpl.
    destruct (decide (id (object q) = id T)) as [Heq|Hne].
    + rewrite decide_True by done. simpl. lia.
    + rewrite decide_False by (by intros [_ ?]). simpl. lia.
Qed.

(** The quads of the shape after the first loop: those it held before,
    and the node shape and the target class of every type assertion. *)
Lemma typeLoop_elem eventStreamURL (l : list Quad) acc acc' c :
  foldM (typeStep eventStreamURL) acc l = Some acc' →
  c ∈ acc'.1 ↔
  c ∈ acc.1
  ∨ ∃ q v, q ∈ l ∧ extractValue (value (object q)) = Some v
           ∧ (c = quad (NamedNode (eventStreamURL +:+ v +:+ "Shape")) (NamedNode RDF_type)
                       (NamedNode (sh +:+ "NodeShape"))
              ∨ c = targetClassTriple eventStreamURL v (object q)).
Proof.
  revert acc. induction l as [|q l IH]; intros acc; cbn [foldM].
  - intros [= <-]. split; [by left|]. by intros [?|(q & v & ?%elem_of_nil & _)].
  - destruct (typeStep eventStreamURL acc q) as [acc1|] eqn:Hstep; simpl; [|done].
    unfold typeStep in Hstep.
    destruct (extractValue (value (object q))) as [v|] eqn:Hv; simpl in Hstep; [|done].
    injection Hstep as <-. intros Hloop. rewrite (IH _ Hloop). simpl.
    rewrite elem_of_app, !elem_of_cons, elem_of_nil. split.
    + intros [[?|[->|[->|[]]]]|(q' & v' & Hq' & Hv' & Hc)].
      * by left.
      * right. exists q, v. split; [apply list_elem_of_here|]. split; [done|by left].
      * right. exists q, v. split; [apply list_elem_of_here|]. split; [done|by right].
      * right. exists q', v'. split; [by apply list_elem_of_further|done].
    + intros [?|(q' & v' & [->|Hq']%elem_of_cons & Hv' & Hc)].
      * left. by left.
      * left. right. rewrite Hv in Hv'. injection Hv' as <-.
        destruct Hc as [->| ->]; [by left|right; by left].
      * right. by exists q', v'.
Qed.

Lemma propertyQuads_block eventStreamURL store subjects subj q block :
  propertyQuads eventStreamURL store subjects subj q = Some block →
  ∃ v, extractValue (value (predicate q)) = Some v
    ∧ let maxCount := quad (propertyNode eventStreamURL v) (NamedNode (sh +:+ "maxCount"))
                        (literalOfNat (length (getObjects store (id (subject q))
                                                 (id (predicate q))))) in
      let property := quad subj (NamedNode (sh +:+ "property")) (propertyNode eventStreamURL v) in
      property ∈ block ∧ maxCount ∈ block
      ∧ (∀ c, c ∈ block → id (predicate c) = sh +:+ "property" → c = property)
      ∧ (∀ c, c ∈ block → id (predicate c) = sh +:+ "maxCount" → c = maxCount)
      ∧ (∀ c, c ∈ block → id (predicate c) ≠ sh +:+ "targetClass").
Proof.
  unfold propertyQuads. destruct (extractValue (value (predicate q))) as [v|]; simpl; [|done].
  intros [= <-]. exists v. split; [done|]. cbv zeta. split; [|split; [|split; [|split]]].
  - apply list_elem_of_here.
  - do 5 apply list_elem_of_further. apply list_elem_of_here.
  - intros c Hc Hpred.
    repeat (apply elem_of_cons in Hc as [->|Hc]; [try done; try vocabulary_clash Hpred|]).
    destruct (subjects !! id (object q)); [|by apply elem_of_nil in Hc].
    apply list_elem_of_singleton in Hc as ->. vocabulary_clash Hpred.
  - intros c Hc Hpred.
    repeat (apply elem_of_cons in Hc as [->|Hc]; [try done; try vocabulary_clash Hpred|]).
    destruct (subjects !! id (object q)); [|by apply elem_of_nil in Hc].
    apply list_elem_of_singleton in Hc as ->. vocabulary_clash Hpred.
  - intros c Hc Hpred.
    repeat (apply elem_of_cons in Hc as [->|Hc]; [vocabulary_clash Hpred|]).
    destruct (subjects !! id (object q)); [|by apply elem_of_nil in Hc].
    apply list_elem_of_singleton in Hc as ->. vocabulary_clash Hpred.
Qed.

(** The quads of the shape after the second loop: those it held before,
    and the property constraint of every quad that is no type assertion
    and whose subject has a shape node. *)
Lemma propertyLoop_elem eventStreamURL store subjects (l : list Quad) shape shape' c :
  foldM (propertyStep eventStreamURL store subjects) shape l = Some shape' →
  c ∈ shape' ↔
  c ∈ shape
  ∨ ∃ q subj block,
      q ∈ l ∧ id (predicate q) ≠ RDF_type ∧ subjects !! id (subject q) = Some subj
      ∧ propertyQuads eventStreamURL store subjects subj q = Some block ∧ c ∈ block.
Proof.
  revert shape. induction l as [|q l IH]; intros shape; cbn [foldM].
  - intros [= <-]. split; [by left|]. by intros [?|(q & ? & ? & ?%elem_of_nil & _)].
  - destruct (propertyStep eventStreamURL store subjects shape q) as [shape1|] eqn:Hstep;
      simpl; [|done].
    intros Hloop. rewrite (IH _ Hloop). clear IH Hloop.
    assert (∀ rest : Prop,
              (rest ↔ ∃ q' subj block,
                 q' ∈ l ∧ id (predicate q') ≠ RDF_type ∧ subjects !! id (subject q') = Some subj
                 ∧ propertyQuads eventStreamURL store subjects subj q' = Some block ∧ c ∈ block) →
              ¬ (id (predicate q) ≠ RDF_type ∧ is_Some (subjects !! id (subject q))) →
              (c ∈ shape ∨ rest) ↔
              (c ∈ shape ∨ ∃ q' subj block,
                 q' ∈ q :: l ∧ id (predicate q') ≠ RDF_type
                 ∧ subjects !! id (subject q') = Some subj
                 ∧ propertyQuads eventStreamURL store subjects subj q' = Some block ∧ c ∈ block))
      as Hskip.
    { intros rest Hrest Hnot. rewrite Hrest. split.
      - intros [?|(q' & subj & block & Hq' & ?)]; [by left|right].
        exists q', subj, block. split; [by apply list_elem_of_further|done].
      - intros [?|(q' & subj & block & [->|Hq']%elem_of_cons & Hp & Hs & ?)]; [by left| |].
        + destruct Hnot. split; [done|by eexists].
        + right. by exists q', subj, block. }
    unfold propertyStep in Hstep.
    destruct (decide (id (predicate q) = RDF_type)) as [Htype|Hnot].
    { injection Hstep as <-. apply Hskip; [done|]. by intros [? _]. }
    destruct (subjects !! id (subject q)) as [subj|] eqn:Hsubj.
    2:{ injection Hstep as <-. apply Hskip; [done|]. by intros [_ [? ?]]. }
    destruct (propertyQuads eventStreamURL store subjects subj q) as [block|] eqn:Hblock;
      simpl in Hstep; [|done].
    injection Hstep as <-. rewrite elem_of_app. split.
    + intros [[?|Hc]|(q' & subj' & block' & Hq' & ?)].
      * by left.
      * right. exists q, subj, block. split; [apply list_elem_of_here|done].
      * right. exists q', subj', block'. split; [by apply list_elem_of_further|done].
    + intros [?|(q' & subj' & block' & [->|Hq']%elem_of_cons & Hp & Hs & Hb & Hc)].
      * left. by left.
      * left. right. rewrite Hsubj in Hs. injection Hs as <-.
        rewrite Hblock in Hb. by injection Hb as <-.
      * right. by exists q', subj', block'.
Qed.

Lemma propertyLoop_count T eventStreamURL store subjects (l : list Quad) shape shape' :
  foldM (propertyStep eventStreamURL store subjects) shape l = Some shape' →
  length (targetClassTriples T shape') = length (targetClassTriples T shape).
Proof.
  revert shape. induction l as [|q l IH]; intros shape; cbn [foldM].
  - by intros [= <-].
  - destruct (propertyStep eventStreamURL store subjects shape q) as [shape1|] eqn:Hstep;
      simpl; [|done].
    intros ->%IH. unfold propertyStep in Hstep.
    destruct (decide (id (predicate q) = RDF_type)); [by injection Hstep as <-|].
    destruct (subjects !! id (subject q)) as [subj|]; [|by injection Hstep as <-].
    destruct (propertyQuads eventStreamURL store subjects subj q) as [block|] eqn:Hblock;
      simpl in Hstep; [|done].
    injection Hstep as <-.
    destruct (propertyQuads_block _ _ _ _ _ _ Hblock) as (v & _ & _ & _ & _ & _ & Hnone).
    rewrite targetClassTriples_app, length_app.
    assert (targetClassTriples T block = []) as ->; [|simpl; lia].
    unfold targetClassTriples.
    destruct (filter _ block) as [|c rest] eqn:Hfilter; [done|]. exfalso.
    assert (c ∈ filter (λ q0, id (predicate q0) = sh +:+ "targetClass" ∧ id (object q0) = id T)
                  block) as Hc by (rewrite Hfilter; apply list_elem_of_here).
    apply list_elem_of_filter in Hc as [[Hpred _] Hc]. by apply (Hnone c Hc).
Qed.

End GenerateShape.

(** ** generateShape: local names and failures *)

Section LocalNames.
Import N3 Vocab Processing.
Local Open Scope string_scope.
Local Open Scope list_scope.
Local Open Scope nat_scope.

Local Arguments String.append _ _ : simpl nomatch.

(** *** extractValue *)

Lemma list_ascii_of_string_app (a b : string) :
  list_ascii_of_string (a +:+ b) = list_ascii_of_string a ++ list_ascii_of_string b.
Proof. induction a as [|c a IH]; simpl; [done|by rewrite IH]. Qed.

Lemma string_of_list_ascii_app (l k : list ascii) :
  string_of_list_ascii (l ++ k) = string_of_list_ascii l +:+ string_of_list_ascii k.
Proof. induction l as [|c l IH]; simpl; [done|by rewrite IH]. Qed.

Lemma takeWhile_drop {B : Type} (f : B → bool) (l : list B) :
  l = takeWhile f l ++ drop (length (takeWhile f l)) l
  ∧ Forall (λ x, f x = true) (takeWhile f l)
  ∧ ∀ x rest, drop (length (takeWhile f l)) l = x :: rest → f x = false.
Proof.
  induction l as [|x l (Heq & Hall & Hstop)]; simpl.
  - split; [done|]. split; [constructor|done].
  - destruct (f x) eqn:Hx; simpl.
    + split; [by rewrite <- Heq|]. split; [by constructor|done].
    + split; [done|]. split; [constructor|]. by intros ? ? [= <- _].
Qed.

Lemma takeWhile_app_stop {B : Type} (f : B → bool) (l : list B) x rest :
  Forall (λ y, f y = true) l → f x = false → takeWhile f (l ++ x :: rest) = l.
Proof.
  intros Hall Hx. induction Hall as [|y l Hy _ IH]; simpl; [by rewrite Hx|].
  by rewrite Hy, IH.
Qed.

Lemma separator_not_word c : isSeparator c = true → isWordChar c = false.
Proof.
  unfold isSeparator, isWordChar. cbv zeta.
  generalize (nat_of_ascii c). intros n Hsep.
  apply orb_true_iff in Hsep as [Hn|Hn]; apply Nat.eqb_eq in Hn; subst n; reflexivity.
Qed.

(** X12. On a string of printing characters, [extractValue] returns the
    local name: the letters, digits, underscores and dashes after the last
    slash or hash, provided that slash or hash is not the first character
    and only such characters follow it; in every other case it throws. *)
Theorem extractValue_local_name (val v : string) :
  printable val →
  extractValue val = Some v ↔ localName val v.
Proof.
  intros Hprint. unfold extractValue.
  set (rev := reverse (list_ascii_of_string val)).
  destruct (takeWhile_drop isWordChar rev) as (Hrev & Hword & Hstop).
  assert (list_ascii_of_string val
          = reverse (drop (length (takeWhile isWordChar rev)) rev)
            ++ reverse (takeWhile isWordChar rev)) as Hval.
  { rewrite <- reverse_app, <- Hrev. unfold rev. by rewrite reverse_involutive. }
  split.
  - destruct (drop (length (takeWhile isWordChar rev)) rev) as [|c [|c' before]] eqn:Hrest;
      [done|done|].
    destruct (isSeparator c) eqn:Hsep; cbn [andb]; [|done].
    destruct (endsWithLineTerminator (c' :: before)); [done|]. intros [= <-].
    exists (string_of_list_ascii (reverse (c' :: before))), c.
    split; [|split; [|split]].
    + rewrite <- (string_of_list_ascii_of_string val), Hval.
      rewrite (reverse_cons _ c), <- app_assoc, string_of_list_ascii_app. done.
    + intros Hnil. apply (f_equal list_ascii_of_string) in Hnil.
      rewrite list_ascii_of_string_of_list_ascii, reverse_cons in Hnil.
      apply (f_equal length) in Hnil. rewrite length_app in Hnil. simpl in Hnil. lia.
    + done.
    + rewrite list_ascii_of_string_of_list_ascii. by apply Forall_reverse.
  - intros (before & c & -> & Hbefore & Hsep & Hv).
    assert (rev = reverse (list_ascii_of_string v) ++ c :: reverse (list_ascii_of_string before))
      as Hshape.
    { unfold rev. rewrite list_ascii_of_string_app. simpl.
      rewrite reverse_app, reverse_cons, <- app_assoc. done. }
    assert (takeWhile isWordChar rev = reverse (list_ascii_of_string v)) as Htake.
    { rewrite Hshape. apply takeWhile_app_stop; [apply Forall_reverse, Hv|].
      by apply separator_not_word. }
    rewrite Htake, Hshape, drop_app_length.
    destruct (reverse (list_ascii_of_string before)) as [|c' rest] eqn:Hb.
    { exfalso. apply Hbefore. destruct before; [done|].
      simpl in Hb. rewrite reverse_cons in Hb.
      apply (f_equal length) in Hb. rewrite length_app in Hb. simpl in Hb. lia. }
    rewrite Hsep. cbn [andb].
    assert (endsWithLineTerminator (c' :: rest) = false) as ->.
    { assert (c' ∈ list_ascii_of_string before) as Hc'.
      { rewrite <- elem_of_reverse, Hb. apply list_elem_of_here. }
      unfold printable in Hprint. rewrite list_ascii_of_string_app in Hprint.
      apply Forall_app in Hprint as [Hprint _].
      rewrite Forall_forall in Hprint. specialize (Hprint c' Hc').
      unfold endsWithLineTerminator. cbv zeta.
      destruct (Nat.eqb_spec (nat_of_ascii c') 10); [lia|].
      destruct (Nat.eqb_spec (nat_of_ascii c') 13); [lia|].
      destruct (Nat.eqb_spec (nat_of_ascii c') 168); [lia|].
      destruct (Nat.eqb_spec (nat_of_ascii c') 169); [lia|]. done. }
    by rewrite reverse_involutive, string_of_list_ascii_of_string.
Qed.

(** X12 on the type of an observation. *)
Lemma extractValue_local_name_observation :
  printable "http://example.org/ns#Observation"
  ∧ (extractValue "http://example.org/ns#Observation" = Some "Observation"
     ↔ localName "http://example.org/ns#Observation" "Observation").
Proof.
  split; [|apply (extractValue_local_name "http://example.org/ns#Observation" "Observation")];
    unfold printable; vm_compute list_ascii_of_string;
    repeat (constructor; [vm_compute; split; repeat constructor|]); constructor.
Defined.

(** Beyond the printing characters: a line break before the local name
    does no harm unless it stands right before the slash, since the
    expression is not anchored at the start of the string. *)
Example extractValue_after_line_break :
  extractValue ("ab" +:+ String "010" "cd/ef") = Some "ef"
  ∧ extractValue ("ab" +:+ String "010" "/ef") = None.
Proof. split; reflexivity. Qed.

(** *** When generateShape returns *)

Lemma typeLoop_returns eventStreamURL (l : list Quad) acc :
  is_Some (foldM (typeStep eventStreamURL) acc l)
  ↔ ∀ t, t ∈ l → is_Some (extractValue (value (object t))).
Proof.
  revert acc. induction l as [|q l IH]; intros acc; cbn [foldM].
  - split; [by intros _ t ?%elem_of_nil|by eexists].
  - destruct (typeStep eventStreamURL acc q) as [acc1|] eqn:Hstep; simpl;
      unfold typeStep in Hstep;
      destruct (extractValue (value (object q))) as [v|] eqn:Hv; simpl in Hstep; try done.
    + rewrite IH. split.
      * intros Hall t [->|Ht]%elem_of_cons; [by rewrite Hv|by apply Hall].
      * intros Hall t Ht. by apply Hall, list_elem_of_further.
    + split; [by intros [? ?]|].
      intros Hall. specialize (Hall q (list_elem_of_here _ _)). rewrite Hv in Hall.
      by destruct Hall.
Qed.

Lemma typeLoop_subjects eventStreamURL (l : list Quad) acc acc' (s : string) :
  foldM (typeStep eventStreamURL) acc l = Some acc' →
  is_Some (acc'.2 !! s) ↔ is_Some (acc.2 !! s) ∨ ∃ t, t ∈ l ∧ id (subject t) = s.
Proof.
  revert acc. induction l as [|q l IH]; intros acc; cbn [foldM].
  - intros [= <-]. split; [by left|]. intros [?|(t & ?%elem_of_nil & _)]; done.
  - destruct (typeStep eventStreamURL acc q) as [acc1|] eqn:Hstep; simpl; [|done].
    unfold typeStep in Hstep.
    destruct (extractValue (value (object q))) as [v|]; simpl in Hstep; [|done].
    injection Hstep as <-. intros ->%IH. simpl.
    rewrite lookup_insert_is_Some. split.
    + intros [[Heq|[_ Hold]]|(t & Ht & Hs)].
      * right. exists q. split; [apply list_elem_of_here|done].
      * by left.
      * right. exists t. split; [by apply list_elem_of_further|done].
    + intros [Hold|(t & [->|Ht]%elem_of_cons & Hs)].
      * destruct (decide (id (subject q) = s)); [left; by left|left; by right].
      * left. by left.
      * right. eauto.
Qed.

Lemma propertyLoop_returns eventStreamURL store subjects (l : list Quad) shape :
  is_Some (foldM (propertyStep eventStreamURL store subjects) shape l)
  ↔ ∀ q, q ∈ l → id (predicate q) ≠ RDF_type → is_Some (subjects !! id (subject q)) →
         is_Some (extractValue (value (predicate q))).
Proof.
  revert shape. induction l as [|q l IH]; intros shape; cbn [foldM].
  - split; [by intros _ q ?%elem_of_nil|by eexists].
  - assert (∀ P : Quad → Prop, P q → ((∀ q', q' ∈ l → P q') ↔ ∀ q', q' ∈ q :: l → P q'))
      as Hcons.
    { intros P HP. split.
      - intros Hall q' [->|Hq']%elem_of_cons; [done|by apply Hall].
      - intros Hall q' Hq'. by apply Hall, list_elem_of_further. }
    destruct (propertyStep eventStreamURL store subjects shape q) as [shape1|] eqn:Hstep;
      simpl; unfold propertyStep in Hstep.
    + rewrite IH. apply (Hcons (λ q', _ → _ → _)).
      destruct (decide (id (predicate q) = RDF_type)); [done|]. intros _ Htyped.
      destruct (subjects !! id (subject q)) as [subj|]; [|by destruct Htyped].
      unfold propertyQuads in Hstep.
      by destruct (extractValue (value (predicate q))).
    + split; [by intros [? ?]|]. intros Hall.
      destruct (decide (id (predicate q) = RDF_type)) as [|Hnot]; [done|].
      destruct (subjects !! id (subject q)) as [subj|] eqn:Hsubj; [|done].
      specialize (Hall q (list_elem_of_here _ _) Hnot).
      rewrite Hsubj in Hall. specialize (Hall ltac:(by eexists)).
      unfold propertyQuads in Hstep.
      destruct (extractValue (value (predicate q))); [done|by destruct Hall].
Qed.

(** X13. [generateShape] returns exactly when every value it names a
    shape after has a local name: the type of every type assertion, and
    the predicate of every other quad whose subject has a type.  In every
    other case it throws. *)
Theorem generateShape_returns_iff (resource : list Quad) (eventStreamURL : string) :
  is_Some (generateShape resource eventStreamURL)
  ↔ ∀ val, namedAfter resource val → is_Some (extractValue val).
Proof.
  unfold generateShape. fold (typeAssertions resource).
  destruct (foldM (typeStep eventStreamURL) ([], ∅) (typeAssertions resource))
    as [[shape0 subjects]|] eqn:Htypes; simpl.
  - assert (∀ s, is_Some (subjects !! s) ↔ ∃ t, t ∈ typeAssertions resource ∧ id (subject t) = s)
      as Hsubjects.
    { intros s. rewrite (typeLoop_subjects _ _ _ _ s Htypes). simpl.
      rewrite lookup_empty. split; [intros [[? ?]|?]; done|by right]. }
    rewrite propertyLoop_returns. split.
    + intros Hall val [(t & Ht & ->)|(q & Hq & Hnot & Htyped & ->)].
      * apply (proj1 (typeLoop_returns eventStreamURL (typeAssertions resource) ([], ∅)));
          [by rewrite Htypes|done].
      * apply Hall; [done|done|]. by apply Hsubjects.
    + intros Hall q Hq Hnot Htyped. apply Hall. right. exists q.
      repeat split; [done|done|]. by apply Hsubjects.
  - split; [by intros [? ?]|]. intros Hall.
    assert (is_Some (foldM (typeStep eventStreamURL) ([], ∅) (typeAssertions resource))) as Hsome.
    { apply typeLoop_returns. intros t Ht. apply Hall. left. eauto. }
    rewrite Htypes in Hsome. by destruct Hsome.
Qed.

Lemma untyped_no_assertions (resource : list Quad) :
  (∀ q, q ∈ resource → id (predicate q) ≠ RDF_type) → typeAssertions resource = [].
Proof.
  intros Hnone. destruct (typeAssertions resource) as [|t rest] eqn:Hquads; [done|].
  assert (t ∈ typeAssertions resource) as Ht.
  { rewrite Hquads. apply list_elem_of_here. }
  apply typeAssertions_elem in Ht as [Ht Hp]. apply newStore_sound in Ht.
  by apply Hnone in Ht.
Qed.

(** X14. A resource without a type assertion has an empty shape:
    [generateShape] returns no quad for it, and does not throw. *)
Theorem generateShape_untyped (resource : list Quad) (eventStreamURL : string) :
  (∀ q, q ∈ resource → id (predicate q) ≠ RDF_type) →
  generateShape resource eventStreamURL = Some [].
Proof.
  intros Hnone. unfold generateShape. fold (typeAssertions resource).
  rewrite (untyped_no_assertions _ Hnone). simpl.
  clear Hnone. generalize (newStore resource). intros store.
  induction resource as [|q l IH]; cbn [foldM]; [done|].
  assert (propertyStep eventStreamURL store ∅ [] q = Some []) as ->; [|exact IH].
  unfold propertyStep. destruct (decide (id (predicate q) = RDF_type)); [done|].
  by rewrite lookup_empty.
Qed.

End LocalNames.

(** X14 on a resource that holds one value. *)
Lemma generateShape_untyped_value :
  (∀ q, q ∈ [N3.quad (Examples.ex "obs1") (Examples.ex "value") (N3.literalOfNat 1)] →
        N3.id (N3.predicate q) ≠ Vocab.RDF_type)
  ∧ Processing.generateShape
      [N3.quad (Examples.ex "obs1") (Examples.ex "value") (N3.literalOfNat 1)]
      "http://example.org/" = Some [].
Proof.
  assert (∀ q, q ∈ [N3.quad (Examples.ex "obs1") (Examples.ex "value") (N3.literalOfNat 1)] →
               N3.id (N3.predicate q) ≠ Vocab.RDF_type) as Hnone.
  { intros q ->%list_elem_of_singleton. vm_compute. discriminate. }
  split; [exact Hnone|].
  apply (generateShape_untyped
    [N3.quad (Examples.ex "obs1") (Examples.ex "value") (N3.literalOfNat 1)]
    "http://example.org/" Hnone).
Defined.
(** ** generateShape: what the shape holds *)

Section ShapeCounts.
Import N3 Vocab Processing.
Local Open Scope string_scope.
Local Open Scope list_scope.
Local Open Scope nat_scope.

Implicit Types (resource shape : list Quad) (subjects : gmap string Term).

Lemma generateShape_returns resource (eventStreamURL : string) :
  (∀ val, namedAfter resource val → is_Some (extractValue val)) →
  is_Some (generateShape resource eventStreamURL).
Proof.
  intros Hnamed. unfold generateShape. fold (typeAssertions resource).
  assert (is_Some (foldM (typeStep eventStreamURL) ([], ∅) (typeAssertions resource)))
    as [[shape0 subjects] Htypes].
  { apply typeLoop_returns. intros t Ht. apply Hnamed. left. eauto. }
  rewrite Htypes. simpl. apply propertyLoop_returns. intros q Hq Hnot Htyped.
  apply Hnamed. right. exists q. repeat split; [done|done|].
  apply (typeLoop_subjects _ _ _ _ (id (subject q)) Htypes) in Htyped
    as [[? Hempty]|Htyped]; [|done].
  simpl in Hempty. by rewrite lookup_empty in Hempty.
Qed.

(** C8 (as amended).  On a resource in which every type, and every
    predicate of a quad that is no type assertion and whose subject has a
    type, has a local name, [generateShape] returns a shape with these
    properties.  For every type asserted in the resource the shape holds
    exactly one [sh:targetClass] triple, which links the shape node named
    after the type to the type, and it holds no other [sh:targetClass]
    triple; the array that is returned lists that triple once for every
    distinct assertion of the type.  Every [sh:property] triple of the
    shape comes from a quad of the resource, and the property node it
    points to carries the [sh:maxCount] of that quad: the number of
    distinct triples of the resource that share its subject and its
    predicate.  Every quad of the resource that is no type assertion and
    whose subject has a type has its [sh:property] and its [sh:maxCount]
    triple in the shape, and the shape holds no other [sh:maxCount]
    triple. *)
Theorem generateShape_counts (resource : list Quad) (eventStreamURL : string) :
  (∀ val, namedAfter resource val → is_Some (extractValue val)) →
  ∃ shape,
    generateShape resource eventStreamURL = Some shape
    ∧ (∀ T, assertedType resource T →
         ∃ v, extractValue (value T) = Some v
           ∧ ∀ c, c ∈ shape ∧ id (predicate c) = sh +:+ "targetClass" ∧ object c = T
                  ↔ c = targetClassTriple eventStreamURL v T)
    ∧ (∀ c, c ∈ shape → id (predicate c) = sh +:+ "targetClass" →
         assertedType resource (object c))
    ∧ (∀ T, length (targetClassTriples T shape)
            = length (filter (λ q, id (object q) = id T) (typeAssertions resource)))
    ∧ (∀ c, c ∈ shape → id (predicate c) = sh +:+ "property" →
         ∃ q v, constrained resource q
                ∧ extractValue (value (predicate q)) = Some v
                ∧ object c = propertyNode eventStreamURL v
                ∧ maxCountTriple resource eventStreamURL v q ∈ shape)
    ∧ (∀ q, constrained resource q →
         ∃ v subj, extractValue (value (predicate q)) = Some v
                   ∧ quad subj (NamedNode (sh +:+ "property")) (propertyNode eventStreamURL v)
                     ∈ shape
                   ∧ maxCountTriple resource eventStreamURL v q ∈ shape)
    ∧ (∀ c, c ∈ shape → id (predicate c) = sh +:+ "maxCount" →
         ∃ q v, constrained resource q
                ∧ extractValue (value (predicate q)) = Some v
                ∧ c = maxCountTriple resource eventStreamURL v q).
Proof.
  intros Hnamed.
  destruct (generateShape_returns resource eventStreamURL Hnamed) as [shape Hshape].
  exists shape. split; [done|].
  unfold generateShape in Hshape. fold (typeAssertions resource) in Hshape.
  destruct (foldM (typeStep eventStreamURL) ([], ∅) (typeAssertions resource))
    as [[shape0 subjects]|] eqn:Htypes; simpl in Hshape; [|done].
  assert (∀ s, is_Some (subjects !! s) ↔ ∃ t, t ∈ typeAssertions resource ∧ id (subject t) = s)
    as Hsubjects.
  { intros s. rewrite (typeLoop_subjects _ _ _ _ s Htypes). simpl.
    rewrite lookup_empty. split; [intros [[? ?]|?]; done|by right]. }
  assert (∀ c, c ∈ shape0 ↔
            ∃ q v, q ∈ typeAssertions resource ∧ extractValue (value (object q)) = Some v
              ∧ (c = quad (NamedNode (eventStreamURL +:+ v +:+ "Shape")) (NamedNode RDF_type)
                          (NamedNode (sh +:+ "NodeShape"))
                 ∨ c = targetClassTriple eventStreamURL v (object q))) as Hfirst.
  { intros c. rewrite (typeLoop_elem _ _ _ _ c Htypes). simpl. split; [|by right].
    by intros [?%elem_of_nil|?]. }
  pose proof (λ c, propertyLoop_elem _ _ _ _ _ _ c Hshape) as Hsecond.
  assert (∀ c, c ∈ shape → id (predicate c) = sh +:+ "targetClass" →
            ∃ q v, q ∈ typeAssertions resource ∧ extractValue (value (object q)) = Some v
                   ∧ c = targetClassTriple eventStreamURL v (object q)) as Htarget.
  { intros c Hc Hpred. apply Hsecond in Hc as [Hc|(q & subj & block & _ & _ & _ & Hblock & Hc)].
    - apply Hfirst in Hc as (q & v & Hq & Hv & [->| ->]); [vocabulary_clash Hpred|].
      by exists q, v.
    - destruct (propertyQuads_block _ _ _ _ _ _ Hblock) as (v & _ & _ & _ & _ & _ & Hnone).
      by destruct (Hnone c Hc). }
  assert (∀ q subj block,
            q ∈ resource → id (predicate q) ≠ RDF_type →
            subjects !! id (subject q) = Some subj →
            propertyQuads eventStreamURL (newStore resource) subjects subj q = Some block →
            ∃ v, constrained resource q ∧ extractValue (value (predicate q)) = Some v
                 ∧ quad subj (NamedNode (sh +:+ "property")) (propertyNode eventStreamURL v)
                   ∈ shape
                 ∧ maxCountTriple resource eventStreamURL v q ∈ shape
                 ∧ (∀ c, c ∈ block → id (predicate c) = sh +:+ "property" →
                      object c = propertyNode eventStreamURL v)
                 ∧ (∀ c, c ∈ block → id (predicate c) = sh +:+ "maxCount" →
                      c = maxCountTriple resource eventStreamURL v q)) as Hblocks.
  { intros q subj block Hq Hnot Hsubj Hblock.
    destruct (propertyQuads_block _ _ _ _ _ _ Hblock)
      as (v & Hv & Hproperty & Hmax & Honly & Honlymax & _).
    rewrite getObjects_length in Hmax, Honlymax. fold (maxCountTriple resource eventStreamURL v q)
      in Hmax, Honlymax.
    exists v. split; [|split; [done|split; [|split; [|split]]]].
    - split; [done|]. split; [done|]. apply Hsubjects. by eexists.
    - apply Hsecond. right. by exists q, subj, block.
    - apply Hsecond. right. by exists q, subj, block.
    - intros c Hc Hpred. by rewrite (Honly c Hc Hpred).
    - done. }
  split; [|split; [|split; [|split; [|split]]]].
  - intros T (t & Ht & <-).
    destruct (Hnamed (value (object t))) as [v Hv]; [left; eauto|].
    exists v. split; [done|]. intros c. split.
    + intros (Hc & Hpred & Hobj).
      destruct (Htarget c Hc Hpred) as (q & v' & _ & Hv' & ->). simpl in Hobj.
      rewrite Hobj in Hv'. rewrite Hv in Hv'. injection Hv' as <-. by rewrite Hobj.
    + intros ->. split; [|done]. apply Hsecond. left. apply Hfirst.
      exists t, v. split; [done|]. split; [done|by right].
  - intros c Hc Hpred. destruct (Htarget c Hc Hpred) as (q & v & Hq & _ & ->).
    by exists q.
  - intros T. rewrite (propertyLoop_count T _ _ _ _ _ _ Hshape).
    apply (typeLoop_count T _ _ _ _ Htypes).
  - intros c Hc Hpred.
    apply Hsecond in Hc as [Hc|(q & subj & block & Hq & Hnot & Hsubj & Hblock & Hc)].
    { apply Hfirst in Hc as (q & v & _ & _ & [->| ->]); vocabulary_clash Hpred. }
    destruct (Hblocks q subj block Hq Hnot Hsubj Hblock)
      as (v & Hcon & Hv & _ & Hmax & Hobj & _).
    exists q, v. split; [done|]. split; [done|]. split; [by apply Hobj|done].
  - intros q (Hq & Hnot & Htyped).
    destruct (proj2 (Hsubjects (id (subject q))) Htyped) as [subj Hsubj].
    destruct (Hnamed (value (predicate q))) as [v Hv].
    { right. by exists q. }
    destruct (propertyQuads eventStreamURL (newStore resource) subjects subj q)
      as [block|] eqn:Hblock.
    2:{ unfold propertyQuads in Hblock. by rewrite Hv in Hblock. }
    destruct (Hblocks q subj block Hq Hnot Hsubj Hblock)
      as (v' & _ & Hv' & Hproperty & Hmax & _).
    rewrite Hv in Hv'. injection Hv' as <-. by exists v, subj.
  - intros c Hc Hpred.
    apply Hsecond in Hc as [Hc|(q & subj & block & Hq & Hnot & Hsubj & Hblock & Hc)].
    { apply Hfirst in Hc as (q & v & _ & _ & [->| ->]); vocabulary_clash Hpred. }
    destruct (Hblocks q subj block Hq Hnot Hsubj Hblock)
      as (v & Hcon & Hv & _ & _ & _ & Honly).
    exists q, v. split; [done|]. split; [done|by apply Honly].
Qed.

End ShapeCounts.

(** C8 (an instance): the shape of an observation with three value
    triples, two of them equal, made by a typed sensor. *)
Lemma generateShape_counts_observation :
  (∀ val, Processing.namedAfter Examples.observation val → is_Some (Processing.extractValue val))
  ∧ ∃ shape,
      Processing.generateShape Examples.observation "http://example.org/" = Some shape
      ∧ (∀ T, Processing.assertedType Examples.observation T →
           ∃ v, Processing.extractValue (N3.value T) = Some v
             ∧ ∀ c, c ∈ shape ∧ N3.id (N3.predicate c) = Vocab.sh +:+ "targetClass"
                    ∧ N3.object c = T
                    ↔ c = Processing.targetClassTriple "http://example.org/" v T)
      ∧ (∀ c, c ∈ shape → N3.id (N3.predicate c) = Vocab.sh +:+ "targetClass" →
           Processing.assertedType Examples.observation (N3.object c))
      ∧ (∀ T, length (Processing.targetClassTriples T shape)
              = length (filter (λ q, N3.id (N3.object q) = N3.id T)
                          (Processing.typeAssertions Examples.observation)))
      ∧ (∀ c, c ∈ shape → N3.id (N3.predicate c) = Vocab.sh +:+ "property" →
           ∃ q v, Processing.constrained Examples.observation q
                  ∧ Processing.extractValue (N3.value (N3.predicate q)) = Some v
                  ∧ N3.object c = Processing.propertyNode "http://example.org/" v
                  ∧ Processing.maxCountTriple Examples.observation "http://example.org/" v q ∈ shape)
      ∧ (∀ q, Processing.constrained Examples.observation q →
           ∃ v subj, Processing.extractValue (N3.value (N3.predicate q)) = Some v
                     ∧ N3.quad subj (N3.NamedNode (Vocab.sh +:+ "property"))
                         (Processing.propertyNode "http://example.org/" v) ∈ shape
                     ∧ Processing.maxCountTriple Examples.observation "http://example.org/" v q ∈ shape)
      ∧ (∀ c, c ∈ shape → N3.id (N3.predicate c) = Vocab.sh +:+ "maxCount" →
           ∃ q v, Processing.constrained Examples.observation q
                  ∧ Processing.extractValue (N3.value (N3.predicate q)) = Some v
                  ∧ c = Processing.maxCountTriple Examples.observation "http://example.org/" v q).
Proof.
  assert (∀ val, Processing.namedAfter Examples.observation val → is_Some (Processing.extractValue val))
    as Hnamed.
  { intros val [(t & Ht & ->)|(q & Hq & _ & _ & ->)].
    - vm_compute in Ht.
      repeat (apply elem_of_cons in Ht as [->|Ht]; [vm_compute; by eexists|]).
      by apply elem_of_nil in Ht.
    - unfold Examples.observation in Hq.
      repeat (apply elem_of_cons in Hq as [->|Hq]; [vm_compute; by eexists|]).
      by apply elem_of_nil in Hq. }
  split; [exact Hnamed|].
  exact (generateShape_counts Examples.observation "http://example.org/" Hnamed).
Defined.

(** The shape of that observation: the value triples are three in the
    resource and two of them are distinct, so that their property node
    carries the count two. *)
Example generateShape_observation_value_count :
  ∃ shape,
    Processing.generateShape Examples.observation "http://example.org/" = Some shape
    ∧ N3.quad (N3.NamedNode "http://example.org/valueProperty")
        (N3.NamedNode "http://www.w3.org/ns/shacl#maxCount") (N3.literalOfNat 2) ∈ shape.
Proof.
  eexists. split; [vm_compute; reflexivity|].
  repeat first [apply list_elem_of_here|apply list_elem_of_further].
Qed.

(** The type assertions are read in the order of the index, not in the
    order of the resource: the type that the store met first comes first,
    and the property of a subject with two types hangs off the shape node
    of the type that comes last. *)
Example generateShape_types_in_index_order :
  map (λ t, N3.object t) (Processing.typeAssertions Examples.twoTypes)
  = [Examples.ex "Sensor"; Examples.ex "Device"]
  ∧ ∃ shape,
      Processing.generateShape Examples.twoTypes "http://example.org/" = Some shape
      ∧ N3.quad (N3.NamedNode "http://example.org/DeviceShape")
          (N3.NamedNode "http://www.w3.org/ns/shacl#property")
          (N3.NamedNode "http://example.org/valueProperty") ∈ shape.
Proof.
  split; [vm_compute; reflexivity|].
  eexists. split; [vm_compute; reflexivity|].
  repeat first [apply list_elem_of_here|apply list_elem_of_further].
Qed.

(** C8 (counterexample).  [generateShape] does not produce a shape for
    every resource: it throws on an observation whose type is a URN,
    which has no local name after a slash or a hash.  And where it
    returns, the array it returns repeats the [sh:targetClass] triple of
    a type that is asserted of two subjects. *)
Lemma generateShape_not_for_every_resource :
  Processing.assertedType Examples.urnObservation (N3.NamedNode "urn:example:Observation")
  ∧ Processing.generateShape Examples.urnObservation "http://example.org/" = None
  ∧ ∃ shape,
      Processing.generateShape Examples.twoObservations "http://example.org/" = Some shape
      ∧ length (Processing.targetClassTriples (Examples.ex "Observation") shape) = 2.
Proof.
  split; [|split].
  - eexists. split; [apply list_elem_of_here|reflexivity].
  - vm_compute. reflexivity.
  - eexists. split; [vm_compute; reflexivity|]. vm_compute. reflexivity.
Qed.

(** ** resourceToOptimisedTurtle *)

Section Turtle.
Import N3 Vocab EventSource.
Local Open Scope string_scope.
Local Open Scope list_scope.
Local Open Scope nat_scope.

Implicit Types (k s p : string) (o : Term) (objs : list Term).

(** *** JavaScript maps *)

Lemma mapGet_mapSet_eq {V : Type} k (v : V) m : mapGet k (mapSet k v m) = Some v.
Proof.
  induction m as [|[k' v'] m IH]; simpl.
  - by rewrite decide_True.
  - destruct (decide (k' = k)) as [->|Hne]; simpl.
    + by rewrite decide_True.
    + by rewrite decide_False.
Qed.

Lemma mapGet_mapSet_ne {V : Type} k k0 (v : V) m :
  k0 ≠ k → mapGet k0 (mapSet k v m) = mapGet k0 m.
Proof.
  intros Hne. induction m as [|[k' v'] m IH]; simpl.
  - destruct (decide (k = k0)); congruence.
  - destruct (decide (k' = k)) as [->|Hne']; simpl.
    + destruct (decide (k = k0)); congruence.
    + destruct (decide (k' = k0)); [done|apply IH].
Qed.

Lemma mapGet_Some_elem {V : Type} k (v : V) m : mapGet k m = Some v → (k, v) ∈ m.
Proof.
  induction m as [|[k' v'] m IH]; simpl; [done|].
  destruct (decide (k' = k)) as [->|].
  - intros [= ->]. apply list_elem_of_here.
  - intros ?. apply list_elem_of_further. auto.
Qed.

Lemma mapSet_keys {V : Type} k (v : V) m :
  map fst (mapSet k v m)
  = if decide (k ∈ map fst m) then map fst m else map fst m ++ [k].
Proof.
  induction m as [|[k' v'] m IH]; cbn [mapSet map fst].
  - destruct (decide (k ∈ [])) as [Hin|_]; [by apply elem_of_nil in Hin|done].
  - destruct (decide (k' = k)) as [->|Hne]; cbn [map fst].
    + destruct (decide (k ∈ k :: map fst m)) as [_|Hnotin]; [done|].
      exfalso. apply Hnotin, list_elem_of_here.
    + rewrite IH. destruct (decide (k ∈ map fst m)) as [Hin|Hnotin].
      * destruct (decide (k ∈ k' :: map fst m)) as [_|Hnotin]; [done|].
        exfalso. by apply Hnotin, list_elem_of_further.
      * destruct (decide (k ∈ k' :: map fst m)) as [Hin|_]; [|done].
        apply elem_of_cons in Hin as [->|Hin]; done.
Qed.

Lemma mapSet_NoDup {V : Type} k (v : V) m :
  NoDup (map fst m) → NoDup (map fst (mapSet k v m)).
Proof.
  intros Hnd. rewrite mapSet_keys. destruct (decide _); [done|].
  apply NoDup_app. split; [done|]. split; [|apply NoDup_singleton].
  intros x Hx ->%list_elem_of_singleton. done.
Qed.

(** *** The groupings *)

Lemma addObject_NoDup objs o : NoDup (map id objs) → NoDup (map id (addObject objs o)).
Proof.
  intros Hnd. unfold addObject. destruct (decide _) as [Hex|Hnex]; [done|].
  rewrite map_app. apply NoDup_app. split; [done|]. split; [|apply NoDup_singleton].
  intros x Hx ->%list_elem_of_singleton. apply Hnex, Exists_exists.
  apply list_elem_of_fmap in Hx as (o' & Hid & Ho'). eauto.
Qed.

Lemma addObject_elem objs o o' :
  o' ∈ addObject objs o ↔ o' ∈ objs ∨ (o' = o ∧ ¬ ∃ x, x ∈ objs ∧ id x = id o).
Proof.
  unfold addObject. destruct (decide _) as [Hex|Hnex].
  - apply Exists_exists in Hex. naive_solver.
  - rewrite elem_of_app, list_elem_of_singleton. rewrite Exists_exists in Hnex. naive_solver.
Qed.

Lemma addObject_has objs o : ∃ o', o' ∈ addObject objs o ∧ id o' = id o.
Proof.
  unfold addObject. destruct (decide _) as [Hex|Hnex].
  - apply Exists_exists in Hex as (x & ? & ?). eauto.
  - exists o. split; [|done]. apply elem_of_app. right. apply list_elem_of_here.
Qed.

Lemma addToGrouping_wf data q : wfGrouping data → wfGrouping (addToGrouping data q).
Proof.
  intros [Hkeys Hprops]. unfold addToGrouping.
  destruct (mapGet (id (subject q)) data) as [props|] eqn:Hs.
  - destruct (Hprops _ _ Hs) as [Hpkeys Hobjs].
    destruct (mapGet (id (predicate q)) props) as [objs|] eqn:Hp.
    + split; [by apply mapSet_NoDup|]. intros s props'.
      destruct (decide (s = id (subject q))) as [->|Hne].
      * rewrite mapGet_mapSet_eq. intros [= <-]. split; [by apply mapSet_NoDup|].
        intros p objs'. destruct (decide (p = id (predicate q))) as [->|Hne].
        -- rewrite mapGet_mapSet_eq. intros [= <-]. apply addObject_NoDup. eauto.
        -- rewrite mapGet_mapSet_ne by done. eauto.
      * rewrite mapGet_mapSet_ne by done. eauto.
    + split; [by apply mapSet_NoDup|]. intros s props'.
      destruct (decide (s = id (subject q))) as [->|Hne].
      * rewrite mapGet_mapSet_eq. intros [= <-]. split; [by apply mapSet_NoDup|].
        intros p objs'. destruct (decide (p = id (predicate q))) as [->|Hne].
        -- rewrite mapGet_mapSet_eq. intros [= <-]. apply NoDup_singleton.
        -- rewrite mapGet_mapSet_ne by done. eauto.
      * rewrite mapGet_mapSet_ne by done. eauto.
  - split; [by apply mapSet_NoDup|]. intros s props'.
    destruct (decide (s = id (subject q))) as [->|Hne].
    + rewrite mapGet_mapSet_eq. intros [= <-]. split; [apply NoDup_singleton|].
      intros p objs'. simpl. destruct (decide _); [|done]. intros [= <-]. apply NoDup_singleton.
    + rewrite mapGet_mapSet_ne by done. eauto.
Qed.

(** What is recorded after one more quad. *)
Lemma addToGrouping_recorded data q s p o :
  recorded (addToGrouping data q) s p o ↔
  recorded data s p o
  ∨ (s = id (subject q) ∧ p = id (predicate q) ∧ o = object q
     ∧ ¬ ∃ x, recorded data s p x ∧ id x = id o).
Proof.
  unfold recorded, addToGrouping.
  destruct (mapGet (id (subject q)) data) as [props|] eqn:Hs.
  - destruct (mapGet (id (predicate q)) props) as [objs|] eqn:Hp.
    + destruct (decide (s = id (subject q))) as [->|Hne].
      * setoid_rewrite mapGet_mapSet_eq.
        destruct (decide (p = id (predicate q))) as [->|Hne].
        -- split.
           ++ intros (props' & objs' & [= <-] & Hget & Ho).
              rewrite mapGet_mapSet_eq in Hget. injection Hget as <-.
              apply addObject_elem in Ho as [Ho|[-> Hno]]; [left; eauto|].
              right. repeat split; [done..|]. intros (x & (props' & objs' & ? & ? & ?) & ?).
              simplify_eq. eauto.
           ++ intros [(props' & objs' & ? & ? & Ho)|(_ & _ & -> & Hno)]; simplify_eq.
              ** eexists _, _. split; [done|]. rewrite mapGet_mapSet_eq. split; [done|].
                 apply addObject_elem. by left.
              ** eexists _, _. split; [done|]. rewrite mapGet_mapSet_eq. split; [done|].
                 apply addObject_elem. right. split; [done|]. intros (x & Hx & Hid).
                 apply Hno. exists x. split; [|done]. eauto.
        -- split.
           ++ intros (props' & objs' & [= <-] & Hget & Ho).
              rewrite mapGet_mapSet_ne in Hget by done. left. eauto.
           ++ intros [(props' & objs' & ? & ? & Ho)|(_ & ? & _)]; [|done]. simplify_eq.
              eexists _, _. split; [done|]. rewrite mapGet_mapSet_ne by done. eauto.
      * setoid_rewrite (mapGet_mapSet_ne _ _ _ _ Hne). naive_solver.
    + destruct (decide (s = id (subject q))) as [->|Hne].
      * setoid_rewrite mapGet_mapSet_eq.
        destruct (decide (p = id (predicate q))) as [->|Hne].
        -- split.
           ++ intros (props' & objs' & [= <-] & Hget & Ho).
              rewrite mapGet_mapSet_eq in Hget. injection Hget as <-.
              apply list_elem_of_singleton in Ho as ->. right. repeat split; [done..|].
              intros (x & (props' & objs' & ? & ? & ?) & ?). simplify_eq.
           ++ intros [(props' & objs' & ? & ? & Ho)|(_ & _ & -> & Hno)]; simplify_eq.
              eexists _, _. split; [done|]. rewrite mapGet_mapSet_eq. split; [done|].
              apply list_elem_of_here.
        -- split.
           ++ intros (props' & objs' & [= <-] & Hget & Ho).
              rewrite mapGet_mapSet_ne in Hget by done. left. eauto.
           ++ intros [(props' & objs' & ? & ? & Ho)|(_ & ? & _)]; [|done]. simplify_eq.
              eexists _, _. split; [done|]. rewrite mapGet_mapSet_ne by done. eauto.
      * setoid_rewrite (mapGet_mapSet_ne _ _ _ _ Hne). naive_solver.
  - destruct (decide (s = id (subject q))) as [->|Hne].
    + setoid_rewrite mapGet_mapSet_eq. setoid_rewrite Hs. split.
      * intros (props' & objs' & [= <-] & Hget & Ho). simpl in Hget.
        destruct (decide (id (predicate q) = p)) as [<-|]; [|done]. injection Hget as <-.
        apply list_elem_of_singleton in Ho as ->. right. repeat split; [done..|].
        intros (x & (props' & objs' & ? & _) & _). done.
      * intros [(props' & objs' & ? & _)|(_ & -> & -> & _)]; [done|].
        eexists _, _. split; [done|]. simpl. rewrite decide_True by done.
        split; [done|apply list_elem_of_here].
    + setoid_rewrite (mapGet_mapSet_ne _ _ _ _ Hne). naive_solver.
Qed.

Lemma addToGrouping_has data q :
  ∃ o, recorded (addToGrouping data q) (id (subject q)) (id (predicate q)) o
       ∧ id o = id (object q).
Proof.
  unfold recorded, addToGrouping.
  destruct (mapGet (id (subject q)) data) as [props|] eqn:Hs.
  - destruct (mapGet (id (predicate q)) props) as [objs|] eqn:Hp.
    + destruct (addObject_has objs (object q)) as (o & Ho & Hid).
      exists o. split; [|done]. eexists _, _.
      split; [apply mapGet_mapSet_eq|]. split; [apply mapGet_mapSet_eq|done].
    + exists (object q). split; [|done]. eexists _, _.
      split; [apply mapGet_mapSet_eq|]. split; [apply mapGet_mapSet_eq|apply list_elem_of_here].
  - exists (object q). split; [|done]. eexists _, _.
    split; [apply mapGet_mapSet_eq|]. simpl. rewrite decide_True by done.
    split; [done|apply list_elem_of_here].
Qed.

Lemma addElement_invariant seen g q :
  groupingInvariant seen g → groupingInvariant (seen ++ [q]) (addElement g q).
Proof.
  intros (Hnamed & Hblank & Hfrom & Hall). unfold addElement.
  destruct (decide (termType (subject q) = TBlankNode)) as [Hb|Hnb]; simpl.
  - split; [done|]. split; [by apply addToGrouping_wf|]. split.
    + intros s p o (q' & Hq' & <-)%Hfrom. exists q'. split; [|done]. apply elem_of_app. by left.
    + intros q' [Hq'|Hq']%elem_of_app Hnb; [by apply Hall|].
      by apply list_elem_of_singleton in Hq' as ->.
  - split; [by apply addToGrouping_wf|]. split; [done|]. split.
    + intros s p o [Hold|(_ & _ & -> & _)]%addToGrouping_recorded.
      * destruct (Hfrom _ _ _ Hold) as (q' & Hq' & <-). exists q'. split; [|done].
        apply elem_of_app. by left.
      * exists q. split; [|done]. apply elem_of_app. right. apply list_elem_of_here.
    + intros q' [Hq'|Hq']%elem_of_app Hnb'.
      * destruct (Hall q' Hq' Hnb') as (o & Ho & Hid). exists o. split; [|done].
        apply addToGrouping_recorded. by left.
      * apply list_elem_of_singleton in Hq' as ->. apply addToGrouping_has.
Qed.

Lemma addElements_invariant resource : groupingInvariant resource (addElements resource).
Proof.
  unfold addElements.
  assert (Hgen : ∀ l seen g, groupingInvariant seen g →
                   groupingInvariant (seen ++ l) (foldl addElement g l)).
  { induction l as [|q l IH]; intros seen g Hinv; simpl.
    - by rewrite app_nil_r.
    - rewrite (assoc_L _ seen [q] l : seen ++ q :: l = (seen ++ [q]) ++ l).
      apply IH. by apply addElement_invariant. }
  apply (Hgen resource [] (mkGroupings [] [])).
  repeat split; simpl; try apply NoDup_nil_2; try done.
  - intros s p o (props & objs & ? & _). done.
  - intros q Hq. by apply elem_of_nil in Hq.
Qed.

(** *** What the writer is handed *)

Lemma allOrNothing_app {A : Type} (l1 l2 : list (option (list A))) r :
  allOrNothing (l1 ++ l2) = Some r →
  ∃ r1 r2, allOrNothing l1 = Some r1 ∧ allOrNothing l2 = Some r2 ∧ r = r1 ++ r2.
Proof.
  revert r. induction l1 as [|x l1 IH]; intros r; simpl.
  - intros Hr. by exists [], r.
  - destruct x as [a|]; simpl; [|done].
    destruct (allOrNothing (l1 ++ l2)) as [b|] eqn:Hb; simpl; [|done].
    intros [= <-]. destruct (IH b eq_refl) as (r1 & r2 & -> & -> & ->).
    exists (a ++ r1), r2. simpl. by rewrite app_assoc.
Qed.

Lemma mapGet_not_key {V : Type} k (m : list (string * V)) :
  k ∉ map fst m → mapGet k m = None.
Proof.
  induction m as [|[k' v'] m IH]; simpl; [done|].
  intros [Hne Hnotin]%not_elem_of_cons. destruct (decide (k' = k)); [congruence|auto].
Qed.

Lemma written_app q out1 out2 : written q (out1 ++ out2) = written q out1 + written q out2.
Proof. unfold written. by rewrite filter_app, length_app. Qed.

Lemma written_no_plain q out :
  (∀ st, st ∈ out → ∀ o, stObject st ≠ Plain o) → written q out = 0.
Proof.
  unfold written. induction out as [|st out IH]; intros Hall; [done|].
  rewrite filter_cons, decide_False.
  - apply IH. intros st' Hst'. apply Hall. by apply list_elem_of_further.
  - intros (_ & _ & Hobj). destruct (stObject st) as [o|] eqn:Ho; [|done].
    by apply (Hall st (list_elem_of_here _ _) o).
Qed.

Lemma writeObject_written blankNodes subj pred o q out :
  writeObject blankNodes subj pred o = Some out →
  written q out
  = if decide (subj = id (subject q) ∧ pred = id (predicate q)
               ∧ id o = id (object q) ∧ termType o ≠ TBlankNode)
    then 1 else 0.
Proof.
  unfold writeObject. destruct (decide (termType o = TBlankNode)) as [Hb|Hnb].
  - destruct (mapGet (id o) blankNodes) as [props|]; simpl; [|done]. intros [= <-].
    destruct (decide _) as [(_ & _ & _ & ?)|_]; [done|].
    apply written_no_plain. intros st Hst o'.
    apply list_elem_of_In, in_flat_map in Hst as ([bp bos] & _ & Hst).
    apply in_map_iff in Hst as (bo & <- & _). done.
  - intros [= <-]. unfold written. rewrite filter_cons, filter_nil. unfold writes. simpl.
    destruct (decide (subj = id (subject q) ∧ pred = id (predicate q)
                      ∧ id o = id (object q) ∧ termType o ≠ TBlankNode))
      as [(-> & -> & Hid & _)|Hno].
    + rewrite decide_True; [done|]. by repeat split.
    + rewrite decide_False; [done|]. intros (Hs & Hp & Ho). apply Hno. by repeat split.
Qed.

Lemma writeObjects_written blankNodes subj pred objs q out :
  allOrNothing (map (writeObject blankNodes subj pred) objs) = Some out →
  written q out
  = if decide (subj = id (subject q) ∧ pred = id (predicate q))
    then length (filter (λ o, id o = id (object q) ∧ termType o ≠ TBlankNode) objs)
    else 0.
Proof.
  revert out. induction objs as [|o objs IH]; intros out; simpl.
  - intros [= <-]. by destruct (decide _).
  - destruct (writeObject blankNodes subj pred o) as [a|] eqn:Ha; simpl; [|done].
    destruct (allOrNothing _) as [b|] eqn:Hb; simpl; [|done].
    intros [= <-]. rewrite written_app, (IH b eq_refl), (writeObject_written _ _ _ _ q _ Ha).
    rewrite filter_cons.
    destruct (decide (subj = id (subject q) ∧ pred = id (predicate q))) as [[-> ->]|Hno].
    + destruct (decide (id o = id (object q) ∧ termType o ≠ TBlankNode)) as [[? ?]|Hno].
      * rewrite decide_True by done. done.
      * rewrite decide_False by naive_solver. done.
    + rewrite decide_False by naive_solver. done.
Qed.

Lemma writeProperties_written blankNodes subj (props : list (string * list Term)) q out :
  NoDup (map fst props) →
  writeProperties blankNodes subj props = Some out →
  written q out
  = if decide (subj = id (subject q))
    then match mapGet (id (predicate q)) props with
         | Some objs => length (filter (λ o, id o = id (object q) ∧ termType o ≠ TBlankNode) objs)
         | None => 0
         end
    else 0.
Proof.
  unfold writeProperties. revert out.
  induction props as [|[pred objs] props IH]; intros out Hnd; simpl.
  - intros [= <-]. by destruct (decide _).
  - intros (r1 & r2 & Hr1 & Hr2 & ->)%allOrNothing_app.
    apply NoDup_cons in Hnd as [Hnotin Hnd]. simpl in Hnotin.
    rewrite written_app, (writeObjects_written _ _ _ _ q _ Hr1), (IH _ Hnd Hr2).
    destruct (decide (subj = id (subject q))) as [->|Hne].
    + destruct (decide (pred = id (predicate q))) as [->|Hne].
      * rewrite (decide_True (P := _ ∧ _)) by done. rewrite (mapGet_not_key _ _ Hnotin). lia.
      * rewrite (decide_False (P := _ ∧ _)) by naive_solver. done.
    + rewrite (decide_False (P := _ ∧ _)) by naive_solver. done.
Qed.

Lemma writeGrouping_written (g : Groupings) q out :
  wfGrouping (named g) →
  writeGrouping g = Some out →
  written q out = length (plainCopies (named g) q).
Proof.
  unfold writeGrouping, plainCopies. intros [Hnd Hwf]. revert out Hnd Hwf.
  generalize (blank g) as blankNodes. generalize (named g) as data.
  induction data as [|[subj props] data IH]; intros blankNodes out Hnd Hwf; simpl.
  - by intros [= <-].
  - destruct (writeProperties blankNodes subj props) as [a|] eqn:Ha; simpl; [|done].
    destruct (allOrNothing _) as [b|] eqn:Hb; simpl; [|done].
    intros [= <-]. apply NoDup_cons in Hnd as [Hnotin Hnd]. simpl in Hnotin.
    assert (Hprops : wfProperties props).
    { apply (Hwf subj). simpl. by rewrite decide_True. }
    assert (Hwf' : ∀ s props', mapGet s data = Some props' → wfProperties props').
    { intros s props' Hs. apply (Hwf s). simpl. rewrite decide_False; [done|].
      intros ->. apply Hnotin. apply mapGet_Some_elem in Hs.
      by apply (list_elem_of_fmap_2 fst) in Hs. }
    rewrite written_app, (writeProperties_written _ _ _ q _ (proj1 Hprops) Ha).
    rewrite (IH blankNodes b Hnd Hwf' Hb).
    destruct (decide (subj = id (subject q))) as [->|Hne]; [|done].
    rewrite (mapGet_not_key _ _ Hnotin).
    destruct (mapGet (id (predicate q)) props); simpl; lia.
Qed.

Lemma filter_id_at_most_one (i : string) (Q : Term → Prop) `{∀ o, Decision (Q o)} objs :
  NoDup (map id objs) → length (filter (λ o, id o = i ∧ Q o) objs) ≤ 1.
Proof.
  induction objs as [|o objs IH]; intros Hnd; [simpl; lia|].
  apply NoDup_cons in Hnd as [Hnotin Hnd]. rewrite filter_cons.
  destruct (decide (id o = i ∧ Q o)) as [[<- _]|_]; [|by apply IH].
  assert (Hnone : filter (λ o', id o' = id o ∧ Q o') objs = []).
  { destruct (filter _ objs) as [|o' rest] eqn:Hf; [done|]. exfalso.
    assert (Ho' : o' ∈ filter (λ o', id o' = id o ∧ Q o') objs).
    { rewrite Hf. apply list_elem_of_here. }
    apply list_elem_of_filter in Ho' as [[Hid _] Ho']. apply Hnotin.
    rewrite <- Hid. by apply (list_elem_of_fmap_2 id). }
  rewrite Hnone. simpl. lia.
Qed.

Lemma plainCopies_at_most_one data q : wfGrouping data → length (plainCopies data q) ≤ 1.
Proof.
  intros [_ Hwf]. unfold plainCopies.
  destruct (mapGet (id (subject q)) data) as [props|] eqn:Hs; [|simpl; lia].
  destruct (mapGet (id (predicate q)) props) as [objs|] eqn:Hp; [|simpl; lia].
  apply (filter_id_at_most_one _ (λ o, termType o ≠ TBlankNode)).
  by apply (proj2 (Hwf _ _ Hs) _ _ Hp).
Qed.

Lemma plainCopies_recorded data q o :
  recorded data (id (subject q)) (id (predicate q)) o →
  id o = id (object q) → termType o ≠ TBlankNode →
  1 ≤ length (plainCopies data q).
Proof.
  intros (props & objs & Hs & Hp & Ho) Hid Hplain. unfold plainCopies. rewrite Hs, Hp.
  assert (Hin : o ∈ filter (λ o, id o = id (object q) ∧ termType o ≠ TBlankNode) objs).
  { apply list_elem_of_filter. by repeat split. }
  destruct (filter _ objs); [by apply elem_of_nil in Hin|simpl; lia].
Qed.

End Turtle.

(** ** resourceToOptimisedTurtle: what is written, and when it throws *)

Section TurtleStatements.
Import N3 Vocab EventSource.
Local Open Scope string_scope.
Local Open Scope list_scope.
Local Open Scope nat_scope.

Implicit Types (k s p : string) (o : Term) (objs : list Term).

Lemma mapGet_elem_NoDup {V : Type} k (v : V) m :
  NoDup (map fst m) → (k, v) ∈ m → mapGet k m = Some v.
Proof.
  induction m as [|[k' v'] m IH]; intros Hnd Hin; [by apply elem_of_nil in Hin|].
  apply NoDup_cons in Hnd as [Hnotin Hnd]. simpl.
  apply elem_of_cons in Hin as [[= -> ->]|Hin].
  - by rewrite decide_True.
  - rewrite decide_False; [by apply IH|]. intros ->. apply Hnotin.
    by apply (list_elem_of_fmap_2 fst) in Hin.
Qed.

Lemma allOrNothing_elem {B : Type} (l : list (option (list B))) r x :
  allOrNothing l = Some r → x ∈ r → ∃ a, Some a ∈ l ∧ x ∈ a.
Proof.
  revert r. induction l as [|[a|] l IH]; intros r; simpl; [| |done].
  - intros [= <-] ?%elem_of_nil. done.
  - destruct (allOrNothing l) as [b|]; simpl; [|done].
    intros [= <-] [Hx|Hx]%elem_of_app.
    + exists a. split; [apply list_elem_of_here|done].
    + destruct (IH b eq_refl Hx) as (a' & Ha' & Hxa').
      exists a'. split; [by apply list_elem_of_further|done].
Qed.

Lemma allOrNothing_None {B : Type} (l : list (option (list B))) :
  allOrNothing l = None ↔ None ∈ l.
Proof.
  induction l as [|[a|] l IH]; simpl.
  - split; [done|by intros ?%elem_of_nil].
  - destruct (allOrNothing l) as [b|]; simpl.
    + split; [done|]. intros [?|Hin]%elem_of_cons; [done|]. by apply IH in Hin.
    + split; [|done]. intros _. apply list_elem_of_further. by apply IH.
  - split; [|done]. intros _. apply list_elem_of_here.
Qed.

(** *** Where the entries of the two maps come from *)

Lemma addToGrouping_keys data q k :
  is_Some (mapGet k (addToGrouping data q)) ↔ is_Some (mapGet k data) ∨ k = id (subject q).
Proof.
  unfold addToGrouping.
  destruct (decide (k = id (subject q))) as [->|Hne].
  - split; [by right|]. intros _.
    destruct (mapGet (id (subject q)) data) as [props|];
      [destruct (mapGet (id (predicate q)) props)|]; by rewrite mapGet_mapSet_eq.
  - assert (∀ v, mapGet k (mapSet (id (subject q)) v data) = mapGet k data) as Hne'.
    { intros v. by apply mapGet_mapSet_ne. }
    destruct (mapGet (id (subject q)) data) as [props|];
      [destruct (mapGet (id (predicate q)) props)|]; rewrite Hne'; naive_solver.
Qed.

Lemma addElement_origins seen g q :
  origins seen g → origins (seen ++ [q]) (addElement g q).
Proof.
  intros (Hnamed & Hblank & Hkeys & Hall).
  assert (∀ P : Quad → Prop, (∃ q', q' ∈ seen ∧ P q') → ∃ q', q' ∈ seen ++ [q] ∧ P q') as Hold.
  { intros P (q' & Hq' & HP). exists q'. split; [apply elem_of_app; by left|done]. }
  assert (∀ P : Quad → Prop, P q → ∃ q', q' ∈ seen ++ [q] ∧ P q') as Hnew.
  { intros P HP. exists q. split; [apply elem_of_app; right; apply list_elem_of_here|done]. }
  unfold addElement.
  destruct (decide (termType (subject q) = TBlankNode)) as [Hb|Hnb];
    (split; [|split; [|split]]); cbn [named blank].
  - intros s p o Hr. apply (Hold (λ q', _)), Hnamed, Hr.
  - intros s p o [Hr|(-> & -> & -> & _)]%addToGrouping_recorded.
    + by apply (Hold (λ q', _)), Hblank.
    + by apply (Hnew (λ q', _)).
  - intros k. rewrite addToGrouping_keys, Hkeys. split.
    + intros [Hk| ->]; [by apply (Hold (λ q', _))|by apply (Hnew (λ q', _))].
    + intros (q' & [Hq'|Hq']%elem_of_app & Hb' & Hk); [left; eauto|].
      apply list_elem_of_singleton in Hq' as ->. by right.
  - intros q' [Hq'|Hq']%elem_of_app Hb'.
    + destruct (Hall q' Hq' Hb') as (o & Ho & Hid). exists o. split; [|done].
      apply addToGrouping_recorded. by left.
    + apply list_elem_of_singleton in Hq' as ->. apply addToGrouping_has.
  - intros s p o [Hr|(-> & -> & -> & _)]%addToGrouping_recorded.
    + by apply (Hold (λ q', _)), Hnamed.
    + by apply (Hnew (λ q', _)).
  - intros s p o Hr. apply (Hold (λ q', _)), Hblank, Hr.
  - intros k. rewrite Hkeys. split.
    + intros Hk. by apply (Hold (λ q', _)).
    + intros (q' & [Hq'|Hq']%elem_of_app & Hb' & Hk); [eauto|].
      by apply list_elem_of_singleton in Hq' as ->.
  - intros q' [Hq'|Hq']%elem_of_app Hb'; [by apply Hall|].
    by apply list_elem_of_singleton in Hq' as ->.
Qed.

Lemma addElements_origins resource : origins resource (addElements resource).
Proof.
  unfold addElements.
  assert (∀ l seen g, origins seen g → origins (seen ++ l) (foldl addElement g l)) as Hgen.
  { induction l as [|q l IH]; intros seen g Hinv; simpl.
    - by rewrite app_nil_r.
    - rewrite (assoc_L _ seen [q] l : seen ++ q :: l = (seen ++ [q]) ++ l).
      apply IH. by apply addElement_origins. }
  apply (Hgen resource [] (mkGroupings [] [])).
  split; [|split; [|split]]; simpl.
  - by intros s p o (props & objs & ? & _).
  - by intros s p o (props & objs & ? & _).
  - intros k. split; [by intros [? ?]|by intros (q & ?%elem_of_nil & _)].
  - by intros q ?%elem_of_nil.
Qed.

(** *** The statements of a grouping *)

Lemma recorded_elem data s p o :
  wfGrouping data →
  recorded data s p o ↔ ∃ props objs, (s, props) ∈ data ∧ (p, objs) ∈ props ∧ o ∈ objs.
Proof.
  intros [Hnd Hwf]. split; intros (props & objs & Hs & Hp & Ho); exists props, objs.
  - split; [by apply mapGet_Some_elem|]. split; [by apply mapGet_Some_elem|done].
  - assert (mapGet s data = Some props) as Hget by by apply mapGet_elem_NoDup.
    split; [done|]. split; [|done].
    apply mapGet_elem_NoDup; [|done]. by apply (Hwf s props).
Qed.

Lemma writeGrouping_elem (g : Groupings) out st :
  wfGrouping (named g) →
  writeGrouping g = Some out → st ∈ out →
  ∃ s p o written, recorded (named g) s p o
    ∧ writeObject (blank g) s p o = Some written ∧ st ∈ written.
Proof.
  intros Hwf Hout Hst. unfold writeGrouping in Hout.
  destruct (allOrNothing_elem _ _ _ Hout Hst) as (a & Ha & Hsta).
  apply list_elem_of_fmap in Ha as ([subj props] & Ha & Hsubj).
  symmetry in Ha. unfold writeProperties in Ha.
  destruct (allOrNothing_elem _ _ _ Ha Hsta) as (b & Hb & Hstb).
  apply elem_of_flat_map in Hb as ([pred objects] & Hpred & Hb).
  apply list_elem_of_fmap in Hb as (o & Hb & Ho).
  exists subj, pred, o, b. split; [|done].
  apply recorded_elem; [done|]. by exists props, objects.
Qed.

Lemma writeGrouping_None (g : Groupings) :
  wfGrouping (named g) →
  writeGrouping g = None
  ↔ ∃ s p o, recorded (named g) s p o ∧ termType o = TBlankNode
             ∧ mapGet (id o) (blank g) = None.
Proof.
  intros Hwf. unfold writeGrouping. rewrite allOrNothing_None. split.
  - intros ([subj props] & Hnone & Hsubj)%list_elem_of_fmap.
    symmetry in Hnone. unfold writeProperties in Hnone.
    apply allOrNothing_None, elem_of_flat_map in Hnone as ([pred objects] & Hpred & Hnone).
    apply list_elem_of_fmap in Hnone as (o & Hnone & Ho).
    exists subj, pred, o. split; [apply recorded_elem; [done|]; by exists props, objects|].
    symmetry in Hnone. unfold writeObject in Hnone.
    destruct (decide (termType o = TBlankNode)); [|done].
    split; [done|]. by destruct (mapGet (id o) (blank g)).
  - intros (s & p & o & (props & objs & Hs & Hp & Ho)%recorded_elem & Hb & Hnone); [|done].
    apply list_elem_of_fmap. exists (s, props). split; [|done].
    symmetry. unfold writeProperties. apply allOrNothing_None, elem_of_flat_map.
    exists (p, objs). split; [done|]. apply list_elem_of_fmap. exists o. split; [|done].
    unfold writeObject. rewrite decide_True by done. by rewrite Hnone.
Qed.

Lemma allOrNothing_in {B : Type} (l : list (option (list B))) r x :
  allOrNothing l = Some r → x ∈ l → ∃ a, x = Some a ∧ ∀ y, y ∈ a → y ∈ r.
Proof.
  revert r. induction l as [|[a|] l IH]; intros r; simpl; [| |done].
  - by intros _ ?%elem_of_nil.
  - destruct (allOrNothing l) as [b|]; simpl; [|done].
    intros [= <-] [->|Hx]%elem_of_cons.
    + exists a. split; [done|]. intros y Hy. apply elem_of_app. by left.
    + destruct (IH b eq_refl Hx) as (a' & -> & Ha').
      exists a'. split; [done|]. intros y Hy. apply elem_of_app. right. by apply Ha'.
Qed.

Lemma writeGrouping_complete (g : Groupings) out s p o :
  wfGrouping (named g) →
  writeGrouping g = Some out →
  recorded (named g) s p o →
  ∃ written, writeObject (blank g) s p o = Some written ∧ ∀ st, st ∈ written → st ∈ out.
Proof.
  intros Hwf Hout (props & objs & Hs & Hp & Ho)%recorded_elem; [|done].
  unfold writeGrouping in Hout.
  destruct (allOrNothing_in _ _ (writeProperties (blank g) s props) Hout) as (a & Ha & Hsub).
  { apply list_elem_of_fmap. by exists (s, props). }
  unfold writeProperties in Ha.
  destruct (allOrNothing_in _ _ (writeObject (blank g) s p o) Ha) as (b & Hb & Hsub').
  { apply elem_of_flat_map. exists (p, objs). split; [done|].
    apply list_elem_of_fmap. by exists o. }
  exists b. split; [done|]. intros st Hst. by apply Hsub, Hsub'.
Qed.

(** X15. The statements that [resourceToOptimisedTurtle] hands to the
    writer come from the resource: each is made of a quad whose subject is
    no blank node, with the object of that quad or, when that object is a
    blank node, with a property of that blank node, one level deep.  On a
    resource whose equal objects are the same term, it hands over every
    such statement. *)
Theorem resourceToOptimisedTurtle_statements (resource : list Quad)
    (out : list Statement) (st : Statement) :
  resourceToOptimisedTurtle resource = Some out →
  (st ∈ out → justified resource st)
  ∧ (distinctObjects resource → justified resource st → st ∈ out).
Proof.
  unfold resourceToOptimisedTurtle. intros Hout.
  destruct (addElements_invariant resource) as (Hwf & Hwfb & _ & Hall).
  destruct (addElements_origins resource) as (Hnamed & Hblank & _ & Hallb).
  split.
  - intros Hst.
    destruct (writeGrouping_elem _ _ _ Hwf Hout Hst) as (s & p & o & written & Hr & Hw & Hin).
    destruct (Hnamed s p o Hr) as (q & Hq & Hnb & <- & <- & <-).
    exists q. split; [done|]. split; [done|].
    unfold writeObject in Hw.
    destruct (decide (termType (object q) = TBlankNode)) as [Hb|Hnbo].
    + destruct (mapGet (id (object q)) (blank (addElements resource))) as [blankProperties|]
        eqn:Hprops; simpl in Hw; [|done].
      injection Hw as <-.
      apply elem_of_flat_map in Hin as ([blankPredicate blankObjects] & Hbp & Hin).
      apply list_elem_of_fmap in Hin as (blankObject & -> & Hbo). simpl.
      repeat split; [done|].
      destruct (Hblank (id (object q)) blankPredicate blankObject)
        as (q' & Hq' & Hb' & Hs' & <- & <-).
      { apply recorded_elem; [done|]. exists blankProperties, blankObjects.
        split; [by apply mapGet_Some_elem|done]. }
      by exists q'.
    + injection Hw as <-. apply list_elem_of_singleton in Hin as ->. done.
  - intros Hdistinct (q & Hq & Hnb & Hsubj & Hpred & Hobj).
    destruct (Hall q Hq Hnb) as (o & Hr & Hid).
    assert (o = object q) as ->.
    { destruct (Hnamed _ _ _ Hr) as (q0 & Hq0 & _ & _ & _ & <-). by apply Hdistinct. }
    destruct (writeGrouping_complete _ _ _ _ _ Hwf Hout Hr) as (written & Hw & Hsub).
    apply Hsub. unfold writeObject in Hw.
    destruct st as [stS stP stO]. simpl in Hsubj, Hpred, Hobj. subst stS stP.
    destruct stO as [o'|blankPredicate blankObject].
    + destruct Hobj as [-> Hnbo]. rewrite decide_False in Hw by done.
      injection Hw as <-. apply list_elem_of_here.
    + destruct Hobj as (Hb & q' & Hq' & Hb' & Hs' & -> & ->).
      rewrite decide_True in Hw by done.
      destruct (mapGet (id (object q)) (blank (addElements resource))) as [blankProperties|]
        eqn:Hprops; simpl in Hw; [|done].
      injection Hw as <-.
      destruct (Hallb q' Hq' Hb') as (o2 & (props & objs & Hk & Hp & Ho) & Hid2).
      assert (o2 = object q') as ->.
      { destruct (Hblank (id (subject q')) (id (predicate q')) o2) as (q2 & Hq2 & _ & _ & _ & <-).
        - by exists props, objs.
        - by apply Hdistinct. }
      rewrite Hs', Hprops in Hk. injection Hk as <-.
      apply elem_of_flat_map. exists (id (predicate q'), objs).
      split; [by apply mapGet_Some_elem|].
      apply list_elem_of_fmap. by exists (object q').
Qed.

(** *** The statements of one subject stand together *)

Lemma grouped_app_const {K : Type} (key : K) (block l : list K) :
  (∀ x, x ∈ block → x = key) → key ∉ l → grouped l → grouped (block ++ l).
Proof.
  intros Hblock Hnotin Hl. induction block as [|x block IH]; [done|].
  assert (x = key) as -> by apply Hblock, list_elem_of_here.
  simpl. split.
  - intros Hin. destruct block as [|y block]; simpl in *; [done|].
    f_equal. apply Hblock, list_elem_of_further, list_elem_of_here.
  - apply IH. intros y Hy. by apply Hblock, list_elem_of_further.
Qed.

Lemma grouped_concat {B K : Type} (key : B → K) (keys : list K) (blocks : list (list B)) :
  NoDup keys →
  Forall2 (λ key0 block, ∀ x, x ∈ block → key x = key0) keys blocks →
  grouped (map key (concat blocks))
  ∧ ∀ x, x ∈ concat blocks → key x ∈ keys.
Proof.
  intros Hnd Hall. induction Hall as [|key0 block keys blocks Hblock _ IH];
    [split; [done|by intros x ?%elem_of_nil]|].
  apply NoDup_cons in Hnd as [Hnotin Hnd]. destruct (IH Hnd) as [Hgrouped Hkeys].
  simpl. split.
  - rewrite map_app. apply (grouped_app_const key0); [| |done].
    + intros y (x & -> & Hx)%list_elem_of_fmap. by apply Hblock.
    + intros (x & Hkey & Hx)%list_elem_of_fmap. apply Hnotin. rewrite Hkey. by apply Hkeys.
  - intros x [Hx|Hx]%elem_of_app.
    + rewrite (Hblock x Hx). apply list_elem_of_here.
    + by apply list_elem_of_further, Hkeys.
Qed.

Lemma grouped_between {K : Type} (x : K) (l1 l2 l3 : list K) :
  grouped (l1 ++ x :: l2 ++ x :: l3) → ∀ y, y ∈ l2 → y = x.
Proof.
  induction l1 as [|z l1 IH]; [|by intros [_ ?]; apply IH].
  simpl. induction l2 as [|y l2 IH2]; intros [Hhead Hrest] y' Hy'; [by apply elem_of_nil in Hy'|].
  assert (y = x) as ->.
  { simpl in Hhead. assert (Some y = Some x) as [= ->]; [|done].
    apply Hhead, list_elem_of_further, elem_of_app. right. apply list_elem_of_here. }
  apply elem_of_cons in Hy' as [->|Hy']; [done|]. by apply IH2.
Qed.

Lemma allOrNothing_blocks {B : Type} (l : list (option (list B))) r :
  allOrNothing l = Some r → ∃ blocks, l = map Some blocks ∧ r = concat blocks.
Proof.
  revert r. induction l as [|[a|] l IH]; intros r; simpl; [| |done].
  - intros [= <-]. by exists [].
  - destruct (allOrNothing l) as [b|]; simpl; [|done].
    intros [= <-]. destruct (IH b eq_refl) as (blocks & -> & ->). by exists (a :: blocks).
Qed.

Lemma writeProperties_subject blankNodes subj (props : list (string * list Term)) out st :
  writeProperties blankNodes subj props = Some out → st ∈ out →
  stSubject st = NamedNode subj.
Proof.
  unfold writeProperties. intros Hout Hst.
  destruct (allOrNothing_elem _ _ _ Hout Hst) as (b & Hb & Hstb).
  apply elem_of_flat_map in Hb as ([pred objects] & _ & Hb).
  apply list_elem_of_fmap in Hb as (o & Hb & _). symmetry in Hb.
  unfold writeObject in Hb. destruct (decide (termType o = TBlankNode)).
  - destruct (mapGet (id o) blankNodes) as [blankProperties|]; simpl in Hb; [|done].
    injection Hb as <-.
    apply elem_of_flat_map in Hstb as ([blankPredicate blankObjects] & _ & Hstb).
    by apply list_elem_of_fmap in Hstb as (blankObject & -> & _).
  - injection Hb as <-. by apply list_elem_of_singleton in Hstb as ->.
Qed.

Lemma blocks_subjects blankNodes (data : list (string * list (string * list Term)))
    (blocks : list (list Statement)) :
  map (λ '(subj, props), writeProperties blankNodes subj props) data = map Some blocks →
  Forall2 (λ key0 block, ∀ x, x ∈ block → stSubject x = key0)
    (map (λ entry, NamedNode entry.1) data) blocks.
Proof.
  revert blocks. induction data as [|[subj props] data IH]; intros [|block blocks] Heq;
    simpl in Heq; try discriminate Heq; simpl.
  - constructor.
  - injection Heq as Hblock Hrest. constructor; [|by apply IH].
    intros x Hx. by apply (writeProperties_subject _ _ _ _ _ Hblock).
Qed.

(** X28. [resourceToOptimisedTurtle] groups the statements by subject:
    between two statements with the same subject the writer is handed
    statements with that subject only. *)
Theorem resourceToOptimisedTurtle_groups_subjects (resource : list Quad)
    (before between after : list Statement) (a b : Statement) :
  resourceToOptimisedTurtle resource = Some (before ++ a :: between ++ b :: after) →
  stSubject a = stSubject b →
  ∀ st, st ∈ between → stSubject st = stSubject a.
Proof.
  unfold resourceToOptimisedTurtle, writeGrouping. intros Hout Hsame st Hst.
  destruct (addElements_invariant resource) as ([Hnd _] & _).
  destruct (allOrNothing_blocks _ _ Hout) as (blocks & Hblocks & Hconcat).
  destruct (grouped_concat stSubject
              (map (λ entry, NamedNode entry.1) (named (addElements resource))) blocks)
    as [Hgrouped _].
  - rewrite <- (map_map fst NamedNode). apply NoDup_fmap_2; [|done]. by intros x y [= ->].
  - by apply (blocks_subjects (blank (addElements resource))).
  - rewrite <- Hconcat, !map_app in Hgrouped. simpl in Hgrouped.
    rewrite map_app in Hgrouped. simpl in Hgrouped. rewrite <- Hsame in Hgrouped.
    apply (grouped_between _ _ _ _ Hgrouped). apply list_elem_of_fmap. by exists st.
Qed.

(** X16. When [resourceToOptimisedTurtle] throws, the resource refers,
    from a subject that is no blank node, to a blank node that is the
    subject of none of its quads; on a resource whose equal objects are
    terms of the same kind it throws whenever the resource does so. *)
Theorem resourceToOptimisedTurtle_throws (resource : list Quad) :
  (resourceToOptimisedTurtle resource = None → ∃ q, dangling resource q)
  ∧ (consistentObjects resource → (∃ q, dangling resource q) →
     resourceToOptimisedTurtle resource = None).
Proof.
  unfold resourceToOptimisedTurtle.
  destruct (addElements_invariant resource) as (Hwf & _ & _ & Hall).
  destruct (addElements_origins resource) as (Hnamed & _ & Hkeys & _).
  rewrite writeGrouping_None by done. split.
  - intros (s & p & o & Hr & Hb & Hnone).
    destruct (Hnamed s p o Hr) as (q & Hq & Hnb & <- & <- & <-).
    exists q. repeat split; [done..|].
    intros q' Hq' Hb' Heq.
    assert (is_Some (mapGet (id (object q)) (blank (addElements resource)))) as [? Hsome].
    { apply Hkeys. by exists q'. }
    congruence.
  - intros Hconsistent (q & Hq & Hnb & Hb & Hnone).
    destruct (Hall q Hq Hnb) as (o & Hr & Hid).
    exists (id (subject q)), (id (predicate q)), o. split; [done|].
    destruct (Hnamed _ _ _ Hr) as (q0 & Hq0 & _ & _ & _ & <-).
    split; [by rewrite (Hconsistent q0 q Hq0 Hq Hid)|].
    destruct (mapGet (id (object q0)) (blank (addElements resource))) as [props|] eqn:Hget;
      [|done].
    exfalso. assert (is_Some (mapGet (id (object q0)) (blank (addElements resource)))) as Hsome
      by by rewrite Hget.
    apply Hkeys in Hsome as (q' & Hq' & Hb' & Hk). apply (Hnone q' Hq' Hb'). congruence.
Qed.

End TurtleStatements.

(** X15 on a measurement whose result is a blank node. *)
Lemma resourceToOptimisedTurtle_statements_measurement :
  EventSource.resourceToOptimisedTurtle Examples.measurement
  = Some [EventSource.mkStatement (Examples.ex "m1") (Examples.ex "result")
            (EventSource.Anonymous (Examples.ex "value")
               (N3.Literal "1" EmptyString N3.xsd_integer))]
  ∧ ∀ st,
      (st ∈ [EventSource.mkStatement (Examples.ex "m1") (Examples.ex "result")
               (EventSource.Anonymous (Examples.ex "value")
                  (N3.Literal "1" EmptyString N3.xsd_integer))]
       → EventSource.justified Examples.measurement st)
      ∧ (EventSource.distinctObjects Examples.measurement →
         EventSource.justified Examples.measurement st →
         st ∈ [EventSource.mkStatement (Examples.ex "m1") (Examples.ex "result")
                 (EventSource.Anonymous (Examples.ex "value")
                    (N3.Literal "1" EmptyString N3.xsd_integer))]).
Proof.
  split; [vm_compute; reflexivity|]. intros st.
  apply (resourceToOptimisedTurtle_statements Examples.measurement
           [EventSource.mkStatement (Examples.ex "m1") (Examples.ex "result")
              (EventSource.Anonymous (Examples.ex "value")
                 (N3.Literal "1" EmptyString N3.xsd_integer))] st).
  vm_compute. reflexivity.
Defined.

(** X16 on a measurement whose blank node is not described. *)
Example resourceToOptimisedTurtle_throws_dangling :
  EventSource.resourceToOptimisedTurtle Examples.danglingMeasurement = None
  ∧ EventSource.dangling Examples.danglingMeasurement
      (N3.quad (Examples.ex "m1") (Examples.ex "result") (N3.BlankNode "b0")).
Proof.
  split; [reflexivity|]. split; [apply list_elem_of_here|]. split; [done|]. split; [done|].
  intros q' ->%list_elem_of_singleton. done.
Qed.

(** X28 on two sensors whose quads alternate. *)
Lemma resourceToOptimisedTurtle_groups_subjects_interleaved :
  EventSource.resourceToOptimisedTurtle Examples.interleaved
  = Some ([] ++ EventSource.mkStatement (Examples.ex "s1") (Examples.ex "a")
                  (EventSource.Plain (Examples.ex "o1"))
             :: [EventSource.mkStatement (Examples.ex "s1") (Examples.ex "b")
                   (EventSource.Plain (Examples.ex "o3"))]
             ++ EventSource.mkStatement (Examples.ex "s1") (Examples.ex "c")
                  (EventSource.Plain (Examples.ex "o4"))
             :: [EventSource.mkStatement (Examples.ex "s2") (Examples.ex "a")
                   (EventSource.Plain (Examples.ex "o2"))])
  ∧ ∀ st, st ∈ [EventSource.mkStatement (Examples.ex "s1") (Examples.ex "b")
                  (EventSource.Plain (Examples.ex "o3"))] →
          EventSource.stSubject st = Examples.ex "s1".
Proof.
  split; [vm_compute; reflexivity|].
  apply (resourceToOptimisedTurtle_groups_subjects Examples.interleaved []
           [EventSource.mkStatement (Examples.ex "s1") (Examples.ex "b")
              (EventSource.Plain (Examples.ex "o3"))]
           [EventSource.mkStatement (Examples.ex "s2") (Examples.ex "a")
              (EventSource.Plain (Examples.ex "o2"))]
           (EventSource.mkStatement (Examples.ex "s1") (Examples.ex "a")
              (EventSource.Plain (Examples.ex "o1")))
           (EventSource.mkStatement (Examples.ex "s1") (Examples.ex "c")
              (EventSource.Plain (Examples.ex "o4"))));
    [vm_compute; reflexivity|reflexivity].
Defined.
(** ** resourceToOptimisedTurtle: the groupings and the distinct triples *)

Section TurtleEntries.
Import N3 Vocab EventSource.
Local Open Scope string_scope.
Local Open Scope list_scope.
Local Open Scope nat_scope.

Implicit Types (s p : string) (o : Term) (objs : list Term).

Lemma uniqueBy_snoc {B K : Type} `{EqDecision K} (key : B → K) seen (l : list B) x :
  uniqueBy key seen (l ++ [x])
  = uniqueBy key seen l ++ (if decide (key x ∈ seen ∨ key x ∈ map key l) then [] else [x]).
Proof.
  revert seen. induction l as [|a l IH]; intros seen; simpl.
  - destruct (decide (key x ∈ seen)) as [Hin|Hnotin].
    + by rewrite decide_True by by left.
    + rewrite decide_False; [done|]. by intros [?|?%elem_of_nil].
  - destruct (decide (key a ∈ seen)) as [Hin|Hnotin].
    + rewrite IH. f_equal. apply decide_ext. split; intros [?|?]; auto.
      * right. by apply list_elem_of_further.
      * apply elem_of_cons in H as [->|?]; auto.
    + rewrite IH. simpl. do 2 f_equal. apply decide_ext. split.
      * intros [[->|?]%elem_of_cons|?]; [right; apply list_elem_of_here|by left|].
        right. by apply list_elem_of_further.
      * intros [?|[->|?]%elem_of_cons]; [left; by apply list_elem_of_further| |by right].
        left. apply list_elem_of_here.
Qed.

Lemma uniqueBy_keys {B K : Type} `{EqDecision K} (key : B → K) (l : list B) k :
  k ∈ map key (uniqueBy key [] l) ↔ k ∈ map key l.
Proof.
  split.
  - intros (x & -> & Hx)%list_elem_of_fmap. apply list_elem_of_fmap. exists x.
    split; [done|]. by apply uniqueBy_subset in Hx.
  - intros (x & -> & Hx)%list_elem_of_fmap.
    destruct (uniqueBy_complete key [] l x Hx) as (y & Hy & Hkey); [apply not_elem_of_nil|].
    apply list_elem_of_fmap. by exists y.
Qed.

(** *** The entries of a map after [set] *)

Lemma flat_map_mapSet_absent {V E : Type} (f : string → V → list E) k (v : V) m :
  mapGet k m = None →
  flat_map (λ '(k0, v0), f k0 v0) (mapSet k v m) = flat_map (λ '(k0, v0), f k0 v0) m ++ f k v.
Proof.
  induction m as [|[k' v'] m IH]; simpl; [by rewrite app_nil_r|].
  destruct (decide (k' = k)); [done|]. intros Hnone. simpl. by rewrite IH, app_assoc.
Qed.

Lemma flat_map_mapSet_present {V E : Type} (f : string → V → list E) k (v v' : V) m extra :
  mapGet k m = Some v →
  f k v' ≡ₚ f k v ++ extra →
  flat_map (λ '(k0, v0), f k0 v0) (mapSet k v' m)
  ≡ₚ flat_map (λ '(k0, v0), f k0 v0) m ++ extra.
Proof.
  intros Hget Hextra. induction m as [|[k0 v0] m IH]; simpl in *; [done|].
  destruct (decide (k0 = k)) as [->|Hne].
  - injection Hget as ->. simpl. rewrite Hextra, <- !app_assoc.
    apply Permutation_app_head, Permutation_app_comm.
  - simpl. by rewrite IH, app_assoc.
Qed.

Lemma entries_recorded data s p o :
  wfGrouping data → (s, p, o) ∈ entries data ↔ recorded data s p o.
Proof.
  intros Hwf. rewrite recorded_elem by done. unfold entries, entriesOf.
  rewrite elem_of_flat_map. split.
  - intros ([s' props] & Hs & Hin). apply elem_of_flat_map in Hin as ([p' objs] & Hp & Hin).
    apply list_elem_of_fmap in Hin as (o' & [= -> -> ->] & Ho). by exists props, objs.
  - intros (props & objs & Hs & Hp & Ho). exists (s, props). split; [done|].
    apply elem_of_flat_map. exists (p, objs). split; [done|].
    apply list_elem_of_fmap. by exists o.
Qed.

Lemma entries_key data q :
  wfGrouping data →
  tripleKey q ∈ map entryKey (entries data)
  ↔ ∃ o', recorded data (id (subject q)) (id (predicate q)) o' ∧ id o' = id (object q).
Proof.
  intros Hwf. split.
  - intros ([[s p] o'] & [= <- <- Hid] & He)%list_elem_of_fmap.
    exists o'. split; [by apply entries_recorded|done].
  - intros (o' & Hr & Hid). apply list_elem_of_fmap.
    exists (id (subject q), id (predicate q), o'). split.
    + unfold entryKey, tripleKey. simpl. by rewrite Hid.
    + by apply entries_recorded.
Qed.

(** One iteration of the [addElements] loop adds the entry of the quad,
    unless the grouping holds its triple. *)
Lemma addToGrouping_entries data q :
  wfGrouping data →
  entries (addToGrouping data q)
  ≡ₚ entries data
     ++ (if decide (tripleKey q ∈ map entryKey (entries data)) then [] else [entry q]).
Proof.
  intros Hwf. pose proof (entries_key data q Hwf) as Hkey.
  unfold addToGrouping, entries.
  destruct (mapGet (id (subject q)) data) as [props|] eqn:Hs.
  - destruct (mapGet (id (predicate q)) props) as [objs|] eqn:Hp.
    + apply (flat_map_mapSet_present entriesOf _ props); [done|].
      unfold entriesOf. unfold addObject.
      destruct (decide (Exists (λ obj, id obj = id (object q)) objs)) as [Hex|Hno].
      * rewrite decide_True.
        { apply (flat_map_mapSet_present (λ p objs, map (λ o, (id (subject q), p, o)) objs)
                 _ objs objs props []); [done|by rewrite app_nil_r]. }
        apply Hkey. apply Exists_exists in Hex as (o' & Ho' & Hid).
        exists o'. split; [by exists props, objs|done].
      * rewrite decide_False.
        { apply (flat_map_mapSet_present (λ p objs, map (λ o, (id (subject q), p, o)) objs)
                   _ objs _ props); [done|]. by rewrite map_app. }
        intros (o' & (props' & objs' & Hs' & Hp' & Ho') & Hid)%Hkey.
        rewrite Hs in Hs'. injection Hs' as <-. rewrite Hp in Hp'. injection Hp' as <-.
        apply Hno, Exists_exists. by exists o'.
    + rewrite decide_False.
      { apply (flat_map_mapSet_present entriesOf _ props); [done|].
        unfold entriesOf.
        by rewrite (flat_map_mapSet_absent
                      (λ p objs, map (λ o, (id (subject q), p, o)) objs)). }
      intros (o' & (props' & objs' & Hs' & Hp' & _) & _)%Hkey.
      rewrite Hs in Hs'. injection Hs' as <-. congruence.
  - rewrite decide_False.
    { rewrite (flat_map_mapSet_absent entriesOf) by done. unfold entriesOf. simpl. done. }
    intros (o' & (props' & objs' & Hs' & _) & _)%Hkey. congruence.
Qed.

Lemma addToGrouping_loop (l : list Quad) :
  wfGrouping (foldl addToGrouping [] l)
  ∧ entries (foldl addToGrouping [] l) ≡ₚ map entry (uniqueBy tripleKey [] l).
Proof.
  induction l as [|q l [Hwf IH]] using rev_ind.
  - split; [|done]. split; [constructor|done].
  - rewrite foldl_snoc. split; [by apply addToGrouping_wf|].
    etransitivity; [by apply addToGrouping_entries|].
    rewrite uniqueBy_snoc, map_app. apply Permutation_app; [exact IH|].
    assert (tripleKey q ∈ map entryKey (map entry (uniqueBy tripleKey [] l))
            ↔ tripleKey q ∈ [] ∨ tripleKey q ∈ map tripleKey l) as Hsame.
    { rewrite <- (uniqueBy_keys tripleKey l), map_map. split; [by right|].
      by intros [?%elem_of_nil|?]. }
    destruct (decide (tripleKey q ∈ map entryKey (entries (foldl addToGrouping [] l))))
      as [Hin|Hnotin].
    + rewrite decide_True; [done|]. apply Hsame. by rewrite <- IH.
    + rewrite decide_False; [done|]. intros Hin. apply Hnotin. rewrite IH. by apply Hsame.
Qed.

Lemma addElements_split (resource : list Quad) :
  named (addElements resource)
  = foldl addToGrouping [] (filter (λ q, termType (subject q) ≠ TBlankNode) resource)
  ∧ blank (addElements resource)
    = foldl addToGrouping [] (filter (λ q, termType (subject q) = TBlankNode) resource).
Proof.
  unfold addElements.
  assert (∀ g,
            named (foldl addElement g resource)
            = foldl addToGrouping (named g)
                (filter (λ q, termType (subject q) ≠ TBlankNode) resource)
            ∧ blank (foldl addElement g resource)
              = foldl addToGrouping (blank g)
                  (filter (λ q, termType (subject q) = TBlankNode) resource)) as Hgen.
  { induction resource as [|q l IH]; intros g; [done|].
    simpl. rewrite !filter_cons. destruct (IH (addElement g q)) as [-> ->].
    unfold addElement.
    destruct (decide (termType (subject q) = TBlankNode)) as [Hb|Hnb]; simpl.
    - by rewrite decide_False by by intros ?.
    - by rewrite decide_True. }
  apply (Hgen (mkGroupings [] [])).
Qed.

(** *** What the writer is handed, entry by entry *)

Lemma allOrNothing_app_eq {B : Type} (l1 l2 : list (option (list B))) :
  allOrNothing (l1 ++ l2)
  = a ← allOrNothing l1; b ← allOrNothing l2; Some (a ++ b).
Proof.
  induction l1 as [|[x|] l1 IH]; simpl; [by destruct (allOrNothing l2)| |done].
  rewrite IH. destruct (allOrNothing l1) as [a|]; simpl; [|done].
  destruct (allOrNothing l2) as [b|]; simpl; [|done]. by rewrite app_assoc.
Qed.

Lemma allOrNothing_flat {B C : Type} (h : C → list (option (list B))) (l : list C) :
  allOrNothing (map (λ x, allOrNothing (h x)) l) = allOrNothing (flat_map h l).
Proof.
  induction l as [|x l IH]; simpl; [done|]. by rewrite allOrNothing_app_eq, IH.
Qed.

Lemma writeGrouping_entries (g : Groupings) :
  writeGrouping g
  = allOrNothing (map (λ '(s, p, o), writeObject (blank g) s p o) (entries (named g))).
Proof.
  unfold writeGrouping, entries.
  assert (∀ s (props : list (string * list Term)),
            writeProperties (blank g) s props
            = allOrNothing (map (λ '(s, p, o), writeObject (blank g) s p o) (entriesOf s props)))
    as Hprops.
  { intros s props. unfold writeProperties, entriesOf. f_equal.
    induction props as [|[p objs] props IH]; simpl; [done|].
    by rewrite map_app, map_map, IH. }
  transitivity (allOrNothing
                  (flat_map (λ '(s, props), map (λ '(s, p, o), writeObject (blank g) s p o)
                                              (entriesOf s props))
                            (named g))).
  - rewrite <- allOrNothing_flat. f_equal.
    induction (named g) as [|[s props] data IH]; simpl; [done|]. by rewrite Hprops, IH.
  - f_equal. induction (named g) as [|[s props] data IH]; simpl; [done|].
    by rewrite map_app, IH.
Qed.

Lemma allOrNothing_default {B C : Type} (F : C → option (list B)) (l : list C) out :
  allOrNothing (map F l) = Some out →
  out = flat_map (λ x, default [] (F x)) l ∧ ∀ x, x ∈ l → is_Some (F x).
Proof.
  revert out. induction l as [|x l IH]; intros out; simpl.
  - intros [= <-]. split; [done|]. by intros x ?%elem_of_nil.
  - destruct (F x) as [a|] eqn:Ha; simpl; [|done].
    destruct (allOrNothing (map F l)) as [b|]; simpl; [|done].
    intros [= <-]. destruct (IH b eq_refl) as [-> Hall]. split; [done|].
    intros y [->|Hy]%elem_of_cons; [by rewrite Ha|by apply Hall].
Qed.

(** The entries of one subject. *)
Lemma entries_of_subject (data : list (string * list (string * list Term))) b :
  NoDup (map fst data) →
  filter (λ e, e.1.1 = b) (entries data) = default [] (entriesOf b <$> mapGet b data).
Proof.
  assert (∀ k (props : list (string * list Term)),
            filter (λ e : string * string * Term, e.1.1 = b) (entriesOf k props)
            = if decide (k = b) then entriesOf k props else []) as Hone.
  { intros k props. unfold entriesOf.
    induction props as [|[p objs] props IH]; simpl; [by destruct (decide _)|].
    rewrite filter_app, IH.
    assert (filter (λ e : string * string * Term, e.1.1 = b) (map (λ o, (k, p, o)) objs)
            = if decide (k = b) then map (λ o, (k, p, o)) objs else []) as ->.
    { induction objs as [|o objs IHo]; simpl; [by destruct (decide _)|].
      rewrite filter_cons, IHo. simpl. by destruct (decide (k = b)). }
    by destruct (decide (k = b)). }
  unfold entries. induction data as [|[k props] data IH]; intros Hnd; simpl; [done|].
  apply NoDup_cons in Hnd as [Hnotin Hnd]. simpl in Hnotin.
  rewrite filter_app, Hone, (IH Hnd).
  destruct (decide (k = b)) as [->|Hne]; [|done].
  rewrite (mapGet_not_key _ _ Hnotin). simpl. apply app_nil_r.
Qed.

Lemma flat_map_Permutation_in {B C : Type} (f g : B → list C) (l : list B) :
  (∀ x, x ∈ l → f x ≡ₚ g x) → flat_map f l ≡ₚ flat_map g l.
Proof.
  induction l as [|x l IH]; intros Hfg; simpl; [done|].
  rewrite (Hfg x) by apply list_elem_of_here.
  apply Permutation_app_head, IH. intros y Hy. by apply Hfg, list_elem_of_further.
Qed.

(** X29. What [resourceToOptimisedTurtle] hands to the writer is, up to
    the order of the statements, what the distinct triples of the resource
    give: for every distinct triple whose subject is no blank node, the
    triple itself or, when its object is a blank node, one anonymous node
    for every distinct triple that describes the blank node.  A triple
    that the resource repeats counts once. *)
Theorem resourceToOptimisedTurtle_distinct (resource : list Quad) (out : list Statement) :
  resourceToOptimisedTurtle resource = Some out →
  out ≡ₚ flat_map (statementsOf resource) (statedTriples resource).
Proof.
  unfold resourceToOptimisedTurtle. rewrite writeGrouping_entries.
  intros [-> Hsome]%allOrNothing_default.
  destruct (addElements_split resource) as [Hnamed Hblank].
  destruct (addToGrouping_loop (filter (λ q, termType (subject q) ≠ TBlankNode) resource))
    as [_ Hentries].
  destruct (addToGrouping_loop (filter (λ q, termType (subject q) = TBlankNode) resource))
    as [[Hnd _] Hdescribed].
  rewrite <- Hnamed in Hentries. rewrite <- Hblank in Hnd, Hdescribed.
  fold (statedTriples resource) in Hentries.
  rewrite Hentries, flat_map_concat_map, map_map, <- flat_map_concat_map.
  apply flat_map_Permutation_in. intros q Hq.
  assert (entry q ∈ entries (named (addElements resource))) as Hin.
  { rewrite Hentries. by apply (list_elem_of_fmap_2 entry). }
  destruct (Hsome _ Hin) as [written Hwritten]. unfold entry in *. rewrite Hwritten. simpl.
  unfold writeObject in Hwritten. unfold statementsOf.
  destruct (decide (termType (object q) = TBlankNode)) as [Hb|Hnb];
    [|by injection Hwritten as <-].
  destruct (mapGet (id (object q)) (blank (addElements resource))) as [props|] eqn:Hprops;
    simpl in Hwritten; [|done].
  injection Hwritten as <-.
  pose proof (entries_of_subject _ (id (object q)) Hnd) as Hsubject.
  rewrite Hprops in Hsubject. simpl in Hsubject.
  assert (entriesOf (id (object q)) props
          ≡ₚ map entry (describingTriples resource (id (object q)))) as Hperm.
  { rewrite <- Hsubject, Hdescribed. unfold describingTriples.
    generalize (uniqueBy tripleKey []
                  (filter (λ q0, termType (subject q0) = TBlankNode) resource)).
    intros l. induction l as [|q0 l IH]; [done|].
    simpl. rewrite !filter_cons. simpl.
    destruct (decide (id (subject q0) = id (object q))); simpl; by rewrite IH. }
  transitivity (map (λ e : string * string * Term,
                       mkStatement (NamedNode (id (subject q))) (NamedNode (id (predicate q)))
                         (Anonymous (NamedNode e.1.2) e.2))
                  (entriesOf (id (object q)) props)).
  - unfold entriesOf. clear. induction props as [|[bp bos] props IH]; simpl; [done|].
    by rewrite map_app, map_map, IH.
  - rewrite Hperm, map_map. done.
Qed.

End TurtleEntries.

(** X29 on two sensors whose quads alternate: the statements of the first
    sensor are written together, so that the order is not that of the
    resource. *)
Lemma resourceToOptimisedTurtle_distinct_interleaved :
  ∃ out,
    EventSource.resourceToOptimisedTurtle Examples.interleaved = Some out
    ∧ out ≡ₚ flat_map (EventSource.statementsOf Examples.interleaved)
               (EventSource.statedTriples Examples.interleaved)
    ∧ out ≠ flat_map (EventSource.statementsOf Examples.interleaved)
              (EventSource.statedTriples Examples.interleaved).
Proof.
  destruct (EventSource.resourceToOptimisedTurtle Examples.interleaved) as [out|] eqn:Hrun;
    [|vm_compute in Hrun; discriminate Hrun].
  exists out. split; [done|].
  split; [exact (resourceToOptimisedTurtle_distinct Examples.interleaved out Hrun)|].
  vm_compute in Hrun. injection Hrun as <-. vm_compute. discriminate.
Defined.
(** ** resourceToOptimisedTurtle: how often a triple is written *)

Section TurtleOnce.
Import N3 Vocab EventSource.
Local Open Scope string_scope.
Local Open Scope list_scope.
Local Open Scope nat_scope.

Implicit Types (s p : string) (o : Term) (objs : list Term).

Lemma filter_length_ext {B : Type} (P Q : B → Prop)
    `{∀ x, Decision (P x)} `{∀ x, Decision (Q x)} (l : list B) :
  (∀ x, x ∈ l → P x ↔ Q x) → length (filter P l) = length (filter Q l).
Proof.
  induction l as [|x l IH]; intros HPQ; [done|].
  rewrite !filter_cons.
  assert (length (filter P l) = length (filter Q l)) as Hrest.
  { apply IH. intros y Hy. by apply HPQ, list_elem_of_further. }
  destruct (decide (P x)) as [HP|HP], (decide (Q x)) as [HQ|HQ]; simpl; try by rewrite Hrest.
  - destruct HQ. by apply (HPQ x (list_elem_of_here _ _)).
  - destruct HP. by apply (HPQ x (list_elem_of_here _ _)).
Qed.

Lemma filter_id_one objs o :
  NoDup (map id objs) → o ∈ objs → length (filter (λ o', id o' = id o) objs) = 1.
Proof.
  induction objs as [|o1 objs IH]; intros Hnd Ho; [by apply elem_of_nil in Ho|].
  apply NoDup_cons in Hnd as [Hnotin Hnd]. rewrite filter_cons.
  destruct (decide (id o1 = id o)) as [Heq|Hne].
  - assert (filter (λ o', id o' = id o) objs = []) as ->; [|done].
    destruct (filter _ objs) as [|o2 rest] eqn:Hfilter; [done|]. exfalso.
    assert (o2 ∈ filter (λ o', id o' = id o) objs) as Ho2
      by (rewrite Hfilter; apply list_elem_of_here).
    apply list_elem_of_filter in Ho2 as [Hid Ho2]. apply Hnotin. rewrite Heq, <- Hid.
    by apply (list_elem_of_fmap_2 id).
  - apply elem_of_cons in Ho as [->|Ho]; [done|]. by apply IH.
Qed.

Lemma flat_map_one {C : Type} (f : Term → list C) objs o :
  NoDup (map id objs) → o ∈ objs →
  (∀ o', o' ∈ objs → id o' ≠ id o → f o' = []) →
  length (flat_map f objs) = length (f o).
Proof.
  induction objs as [|o1 objs IH]; intros Hnd Ho Hothers; [by apply elem_of_nil in Ho|].
  apply NoDup_cons in Hnd as [Hnotin Hnd]. simpl. rewrite length_app.
  apply elem_of_cons in Ho as [->|Ho].
  - assert (flat_map f objs = []) as ->; [|simpl; lia].
    clear IH. induction objs as [|o2 objs IH]; [done|]. simpl.
    rewrite (Hothers o2).
    + apply IH.
      * intros Hin. apply Hnotin. by apply list_elem_of_further.
      * by apply NoDup_cons in Hnd as [_ ?].
      * intros o' [->|Ho']%elem_of_cons; [by apply Hothers, list_elem_of_here|].
        apply Hothers. by do 2 apply list_elem_of_further.
    + apply list_elem_of_further, list_elem_of_here.
    + intros Heq. apply Hnotin. rewrite <- Heq. apply list_elem_of_here.
  - rewrite (Hothers o1).
    + simpl. apply IH; [done|done|]. intros o' Ho'. by apply Hothers, list_elem_of_further.
    + apply list_elem_of_here.
    + intros Heq. apply Hnotin. rewrite Heq. by apply (list_elem_of_fmap_2 id).
Qed.

(** *** The anonymous nodes of one property *)

Lemma anonymous_inlined subj pred blankPredicate (blankObjects : list Term) q q' :
  length (filter (inlines q q')
            (map (λ blankObject,
                    mkStatement (NamedNode subj) (NamedNode pred)
                      (Anonymous (NamedNode blankPredicate) blankObject))
                 blankObjects))
  = if decide (subj = id (subject q) ∧ pred = id (predicate q)
               ∧ blankPredicate = id (predicate q'))
    then length (filter (λ o', id o' = id (object q')) blankObjects)
    else 0.
Proof.
  induction blankObjects as [|o blankObjects IH]; cbn [map]; [by destruct (decide _)|].
  rewrite (filter_cons (inlines q q')).
  destruct (decide (inlines q q' _)) as [(Hs & Hp & Hbp & Hbo)|Hno];
    cbn [length stSubject stPredicate stObject id] in *; rewrite IH.
  - subst subj pred blankPredicate. rewrite !(decide_True (P := _ ∧ _)) by done.
    rewrite filter_cons, decide_True by done. done.
  - destruct (decide (subj = id (subject q) ∧ pred = id (predicate q)
                      ∧ blankPredicate = id (predicate q'))) as [(-> & -> & ->)|]; [|done].
    rewrite filter_cons, decide_False; [done|]. intros Hid. apply Hno. by repeat split.
Qed.

Lemma blankProperties_inlined subj pred (blankProperties : list (string * list Term)) q q' :
  NoDup (map fst blankProperties) →
  length (filter (inlines q q')
            (flat_map (λ '(blankPredicate, blankObjects),
                         map (λ blankObject,
                                mkStatement (NamedNode subj) (NamedNode pred)
                                  (Anonymous (NamedNode blankPredicate) blankObject))
                             blankObjects)
                      blankProperties))
  = if decide (subj = id (subject q) ∧ pred = id (predicate q))
    then match mapGet (id (predicate q')) blankProperties with
         | Some blankObjects => length (filter (λ o', id o' = id (object q')) blankObjects)
         | None => 0
         end
    else 0.
Proof.
  induction blankProperties as [|[blankPredicate blankObjects] rest IH]; intros Hnd; simpl.
  - by destruct (decide _).
  - apply NoDup_cons in Hnd as [Hnotin Hnd]. simpl in Hnotin.
    rewrite filter_app, length_app, anonymous_inlined, (IH Hnd).
    destruct (decide (subj = id (subject q) ∧ pred = id (predicate q))) as [[-> ->]|Hno].
    + destruct (decide (blankPredicate = id (predicate q'))) as [->|Hne].
      * rewrite decide_True by done. rewrite (mapGet_not_key _ _ Hnotin). lia.
      * by rewrite decide_False by naive_solver.
    + by rewrite decide_False by naive_solver.
Qed.

Lemma writeObject_inlined blankNodes subj pred o q q' out :
  wfGrouping blankNodes →
  writeObject blankNodes subj pred o = Some out →
  length (filter (inlines q q') out)
  = if decide (subj = id (subject q) ∧ pred = id (predicate q))
    then length (if decide (termType o = TBlankNode)
                 then propertyCopies blankNodes o q' else [])
    else 0.
Proof.
  intros [_ Hwf]. unfold writeObject, propertyCopies.
  destruct (decide (termType o = TBlankNode)) as [Hb|Hnb].
  - destruct (mapGet (id o) blankNodes) as [blankProperties|] eqn:Hprops; simpl; [|done].
    intros [= <-]. rewrite blankProperties_inlined by apply (Hwf _ _ Hprops).
    destruct (decide _); [|done]. by destruct (mapGet _ blankProperties).
  - intros [= <-]. rewrite filter_cons, filter_nil. unfold inlines. simpl.
    rewrite decide_False by naive_solver. by destruct (decide _).
Qed.

Lemma writeObjects_inlined blankNodes subj pred objs q q' out :
  wfGrouping blankNodes →
  allOrNothing (map (writeObject blankNodes subj pred) objs) = Some out →
  length (filter (inlines q q') out)
  = if decide (subj = id (subject q) ∧ pred = id (predicate q))
    then length (flat_map (λ o, if decide (termType o = TBlankNode)
                                then propertyCopies blankNodes o q' else []) objs)
    else 0.
Proof.
  intros Hwf. revert out. induction objs as [|o objs IH]; intros out; simpl.
  - intros [= <-]. by destruct (decide _).
  - destruct (writeObject blankNodes subj pred o) as [a|] eqn:Ha; simpl; [|done].
    destruct (allOrNothing _) as [b|] eqn:Hb; simpl; [|done].
    intros [= <-].
    rewrite filter_app, !length_app, (IH b eq_refl), (writeObject_inlined _ _ _ _ q q' _ Hwf Ha).
    by destruct (decide _).
Qed.

Lemma writeProperties_inlined blankNodes subj (props : list (string * list Term)) q q' out :
  wfGrouping blankNodes →
  NoDup (map fst props) →
  writeProperties blankNodes subj props = Some out →
  length (filter (inlines q q') out)
  = if decide (subj = id (subject q))
    then match mapGet (id (predicate q)) props with
         | Some objs =>
             length (flat_map (λ o, if decide (termType o = TBlankNode)
                                    then propertyCopies blankNodes o q' else []) objs)
         | None => 0
         end
    else 0.
Proof.
  intros Hwf. unfold writeProperties. revert out.
  induction props as [|[pred objs] props IH]; intros out Hnd; simpl.
  - intros [= <-]. by destruct (decide _).
  - intros (r1 & r2 & Hr1 & Hr2 & ->)%allOrNothing_app.
    apply NoDup_cons in Hnd as [Hnotin Hnd]. simpl in Hnotin.
    rewrite filter_app, length_app, (writeObjects_inlined _ _ _ _ q q' _ Hwf Hr1),
      (IH _ Hnd Hr2).
    destruct (decide (subj = id (subject q))) as [->|Hne].
    + destruct (decide (pred = id (predicate q))) as [->|Hne].
      * rewrite (decide_True (P := _ ∧ _)) by done. rewrite (mapGet_not_key _ _ Hnotin). lia.
      * rewrite (decide_False (P := _ ∧ _)) by naive_solver. done.
    + rewrite (decide_False (P := _ ∧ _)) by naive_solver. done.
Qed.

Lemma writeGrouping_inlined (g : Groupings) q q' out :
  wfGrouping (named g) → wfGrouping (blank g) →
  writeGrouping g = Some out →
  length (filter (inlines q q') out) = length (inlinedCopies g q q').
Proof.
  unfold writeGrouping, inlinedCopies. intros [Hnd Hwf] Hwfb. revert out Hnd Hwf.
  generalize (named g) as data.
  induction data as [|[subj props] data IH]; intros out Hnd Hwf; simpl.
  - by intros [= <-].
  - destruct (writeProperties (blank g) subj props) as [a|] eqn:Ha; simpl; [|done].
    destruct (allOrNothing _) as [b|] eqn:Hb; simpl; [|done].
    intros [= <-]. apply NoDup_cons in Hnd as [Hnotin Hnd]. simpl in Hnotin.
    assert (Hprops : wfProperties props).
    { apply (Hwf subj). simpl. by rewrite decide_True. }
    assert (Hwf' : ∀ s props', mapGet s data = Some props' → wfProperties props').
    { intros s props' Hs. apply (Hwf s). simpl. rewrite decide_False; [done|].
      intros ->. apply Hnotin. apply mapGet_Some_elem in Hs.
      by apply (list_elem_of_fmap_2 fst) in Hs. }
    rewrite filter_app, length_app,
      (writeProperties_inlined _ _ _ q q' _ Hwfb (proj1 Hprops) Ha), (IH b Hnd Hwf' eq_refl).
    destruct (decide (subj = id (subject q))) as [->|Hne]; [|done].
    rewrite (mapGet_not_key _ _ Hnotin).
    destruct (mapGet (id (predicate q)) props); simpl; lia.
Qed.

(** The anonymous node of a link and a property of its blank node is
    written once, unless a second blank node with that property is
    linked from the same subject and predicate. *)
Lemma inlinedCopies_one (resource : list Quad) q q' :
  q ∈ resource → q' ∈ resource → linksTo q q' →
  (∀ q0, q0 ∈ resource → id (object q0) = id (object q) →
         termType (object q0) = TBlankNode) →
  noTwin resource q q' →
  length (inlinedCopies (addElements resource) q q') = 1.
Proof.
  intros Hq Hq' (Hnb & Hb & Hb' & Hsubj') Hkind Htwin.
  destruct (addElements_invariant resource) as (Hwf & Hwfb & _ & Hall).
  destruct (addElements_origins resource) as (Hnamed & Hblank & _ & Hallb).
  destruct (Hall q Hq Hnb) as (o0 & (props & objs & Hs & Hp & Ho0) & Hid0).
  unfold inlinedCopies. rewrite Hs, Hp.
  assert (NoDup (map id objs)) as Hnd by apply (proj2 (proj2 Hwf _ _ Hs) _ _ Hp).
  assert (termType o0 = TBlankNode) as Hb0.
  { destruct (Hnamed (id (subject q)) (id (predicate q)) o0) as (q0 & Hq0 & _ & _ & _ & <-).
    - by exists props, objs.
    - by apply Hkind. }
  rewrite (flat_map_one _ objs o0 Hnd Ho0).
  - rewrite decide_True by done.
    destruct (Hallb q' Hq' Hb') as (o' & (props' & objs' & Hs' & Hp' & Ho') & Hid').
    unfold propertyCopies. rewrite Hid0, <- Hsubj', Hs', Hp', <- Hid'.
    apply filter_id_one; [|done]. apply (proj2 (proj2 Hwfb _ _ Hs') _ _ Hp').
  - intros o Ho Hne. destruct (decide (termType o = TBlankNode)) as [Hbo|]; [|done].
    destruct (propertyCopies (blank (addElements resource)) o q') as [|o'' rest] eqn:Hcopies;
      [done|]. exfalso. apply Hne.
    assert (o'' ∈ propertyCopies (blank (addElements resource)) o q') as Hin
      by (rewrite Hcopies; apply list_elem_of_here).
    unfold propertyCopies in Hin.
    destruct (mapGet (id o) (blank (addElements resource))) as [props''|] eqn:Hs'';
      [|by apply elem_of_nil in Hin].
    destruct (mapGet (id (predicate q')) props'') as [objs''|] eqn:Hp'';
      [|by apply elem_of_nil in Hin].
    apply list_elem_of_filter in Hin as [Hid'' Hin].
    destruct (Hnamed (id (subject q)) (id (predicate q)) o)
      as (l & Hl & Hlnb & Hls & Hlp & Hlo); [by exists props, objs|].
    destruct (Hblank (id o) (id (predicate q')) o'')
      as (l' & Hl' & Hl'b & Hl's & Hl'p & Hl'o); [by exists props'', objs''|].
    rewrite Hid0, <- Hlo. apply (Htwin l l'); try done.
    + repeat split; [done|by rewrite Hlo|done|by rewrite Hlo].
    + by rewrite Hl'o.
Qed.

Lemma filter_none {B : Type} (P : B → Prop) `{∀ x, Decision (P x)} (l : list B) :
  (∀ x, x ∈ l → ¬ P x) → length (filter P l) = 0.
Proof.
  induction l as [|x l IH]; intros Hnone; [done|].
  rewrite filter_cons, decide_False by apply Hnone, list_elem_of_here.
  apply IH. intros y Hy. by apply Hnone, list_elem_of_further.
Qed.

Lemma statements_justified (resource : list Quad) out st :
  writeGrouping (addElements resource) = Some out → st ∈ out → justified resource st.
Proof.
  intros Hout Hst.
  destruct (addElements_invariant resource) as (Hwf & Hwfb & _ & _).
  destruct (addElements_origins resource) as (Hnamed & Hblank & _ & _).
  destruct (writeGrouping_elem _ _ _ Hwf Hout Hst) as (s & p & o & written & Hr & Hw & Hin).
  destruct (Hnamed s p o Hr) as (q & Hq & Hnb & <- & <- & <-).
  exists q. split; [done|]. split; [done|].
  unfold writeObject in Hw.
  destruct (decide (termType (object q) = TBlankNode)) as [Hb|Hnbo].
  - destruct (mapGet (id (object q)) (blank (addElements resource))) as [blankProperties|]
      eqn:Hprops; simpl in Hw; [|done].
    injection Hw as <-.
    apply elem_of_flat_map in Hin as ([blankPredicate blankObjects] & Hbp & Hin).
    apply list_elem_of_fmap in Hin as (blankObject & -> & Hbo). simpl.
    repeat split; [done|].
    destruct (Hblank (id (object q)) blankPredicate blankObject)
      as (q' & Hq' & Hb' & Hs' & <- & <-).
    { apply recorded_elem; [done|]. exists blankProperties, blankObjects.
      split; [by apply mapGet_Some_elem|done]. }
    by exists q'.
  - injection Hw as <-. apply list_elem_of_singleton in Hin as ->. done.
Qed.


End TurtleOnce.



(** ** The publisher: append, move and rebalance *)

Section PublisherProofs.
Import Publisher.
Local Open Scope nat_scope.

Context {Remote : Type}.
Variable getMembers : Remote → Z → list string.
Variable patchInsert : Remote → Z → string → Remote.
Variable newFragment : Remote → Z → Remote.
Variable generateString : list N3.Quad → string.
Variable toString : Date → string.
Variable now : nat → Z.

Local Abbreviation State := (@State Remote).
Local Abbreviation append := (append patchInsert newFragment generateString toString).
Local Abbreviation move := (move getMembers patchInsert newFragment generateString toString).
Local Abbreviation transfer := (transfer getMembers patchInsert newFragment generateString toString).
Local Abbreviation transfers := (transfers getMembers patchInsert newFragment generateString toString).
Local Abbreviation _rebalance := (_rebalance getMembers patchInsert newFragment generateString toString).
Local Abbreviation createBuckets :=
  (createBuckets getMembers patchInsert newFragment generateString toString now).
Local Abbreviation rebalanceBucket :=
  (rebalanceBucket getMembers patchInsert newFragment generateString toString now).
Local Abbreviation rebalanceFrom :=
  (rebalanceFrom getMembers patchInsert newFragment generateString toString now).
Local Abbreviation rebalance :=
  (rebalance getMembers patchInsert newFragment generateString toString now).
Local Abbreviation rebalances :=
  (rebalances getMembers patchInsert newFragment generateString toString now).
Local Abbreviation loadBucketData := (loadBucketData getMembers).
Local Abbreviation remoteTotal := (remoteTotal getMembers).

Implicit Types (st : State) (data : list (Date * list (option string))).

(** *** append and move leave the bucket data alone *)

Lemma append_bucketData st resource bucket : bucketData (append st resource bucket) = bucketData st.
Proof. unfold Publisher.append. by destruct (includes _ _). Qed.

Lemma append_allocated st resource bucket : allocated (append st resource bucket) = allocated st.
Proof. unfold Publisher.append. by destruct (includes _ _). Qed.

Lemma append_buckets_known st resource bucket :
  includes (buckets st) bucket = true → buckets (append st resource bucket) = buckets st.
Proof. unfold Publisher.append. by intros ->. Qed.

Lemma move_bucketData st resource from to : bucketData (move st resource from to) = bucketData st.
Proof.
  unfold Publisher.move. destruct resource as [r|]; [|done].
  destruct (decide _); [apply append_bucketData|done].
Qed.

Lemma move_allocated st resource from to : allocated (move st resource from to) = allocated st.
Proof.
  unfold Publisher.move. destruct resource as [r|]; [|done].
  destruct (decide _); [apply append_allocated|done].
Qed.

Lemma move_buckets_known st resource from to :
  includes (buckets st) to = true → buckets (move st resource from to) = buckets st.
Proof.
  intros Hin. unfold Publisher.move. destruct resource as [r|]; [|done].
  destruct (decide _); [by apply append_buckets_known|done].
Qed.

(** *** One transfer *)

Lemma sum_list_insert (l : list nat) i x y :
  l !! i = Some x → sum_list (<[i := y]> l) + x = sum_list l + y.
Proof.
  revert i. induction l as [|a l IH]; intros i Hi; [done|].
  destruct i as [|i]; simpl in *.
  - injection Hi as ->. lia.
  - specialize (IH i Hi). lia.
Qed.

Lemma sizes_lookup data i d m :
  data !! i = Some (d, m) → sizes data !! i = Some (length m).
Proof. intros H. unfold sizes. by rewrite list_lookup_fmap, H. Qed.

Lemma sizes_insert data i d m :
  sizes (<[i := (d, m)]> data) = <[i := length m]> (sizes data).
Proof. unfold sizes. by rewrite list_fmap_insert. Qed.

Lemma length_removelast {A : Type} (l : list A) : length (removelast l) = pred (length l).
Proof.
  induction l as [|a l IH]; [done|]. destruct l as [|b l]; [done|].
  change (length (a :: removelast (b :: l)) = pred (length (a :: b :: l))).
  simpl in *. by rewrite IH.
Qed.

(** What one iteration of [_rebalance] does to the publisher. *)
Lemma transfer_spec st i j fd fm td tm :
  i ≠ j →
  bucketData st !! i = Some (fd, fm) →
  bucketData st !! j = Some (td, tm) →
  ∃ st', transfer st i j = Some st'
    ∧ bucketData st' = <[j := (td, tm ++ [mjoin (last fm)])]>
                         (<[i := (fd, removelast fm)]> (bucketData st))
    ∧ allocated st' = allocated st
    ∧ (includes (buckets st) td = true → buckets st' = buckets st).
Proof.
  intros Hij Hi Hj. unfold Publisher.transfer. rewrite Hi. simpl.
  rewrite list_lookup_insert_ne by done. rewrite Hj. simpl.
  set (st1 := withBucketData st (<[i:=(fd, removelast fm)]> (bucketData st))).
  pose proof (move_bucketData st1 (mjoin (last fm)) fd td) as Hdata.
  pose proof (move_allocated st1 (mjoin (last fm)) fd td) as Halloc.
  pose proof (move_buckets_known st1 (mjoin (last fm)) fd td) as Hbuckets.
  destruct (move st1 (mjoin (last fm)) fd td) as [b2 d2 r2 a2]. simpl in *. subst d2 a2.
  rewrite list_lookup_insert_ne by done. rewrite Hj. simpl.
  eexists. split; [done|]. simpl. done.
Qed.

(** What [n] iterations do, as long as the source holds [n] members. *)
Lemma transfers_spec n st i j fd fm td tm :
  i ≠ j →
  bucketData st !! i = Some (fd, fm) →
  bucketData st !! j = Some (td, tm) →
  n ≤ length fm →
  ∃ st' fm' tm', transfers n st i j = Some st'
    ∧ bucketData st' !! i = Some (fd, fm') ∧ length fm' = length fm - n
    ∧ bucketData st' !! j = Some (td, tm') ∧ length tm' = length tm + n
    ∧ (∀ k, k ≠ i → k ≠ j → bucketData st' !! k = bucketData st !! k)
    ∧ length (bucketData st') = length (bucketData st)
    ∧ total (bucketData st') = total (bucketData st)
    ∧ allocated st' = allocated st
    ∧ (includes (buckets st) td = true → buckets st' = buckets st)
    ∧ (n = 0 → st' = st).
Proof.
  revert st fm tm. induction n as [|n IH]; intros st fm tm Hij Hi Hj Hn; simpl.
  - exists st, fm, tm. repeat split; try done; lia.
  - destruct (transfer_spec st i j fd fm td tm Hij Hi Hj) as (st1 & -> & Hdata & Halloc & Hbuckets).
    simpl.
    assert (Hi1 : bucketData st1 !! i = Some (fd, removelast fm)).
    { rewrite Hdata, list_lookup_insert_ne by done. apply list_lookup_insert_eq.
      by eapply lookup_lt_Some. }
    assert (Hj1 : bucketData st1 !! j = Some (td, tm ++ [mjoin (last fm)])).
    { rewrite Hdata. apply list_lookup_insert_eq. rewrite length_insert. by eapply lookup_lt_Some. }
    destruct (IH st1 _ _ Hij Hi1 Hj1) as (st' & fm' & tm' & -> & Hi' & Hfm' & Hj' & Htm' & Hother
                                          & Hlen & Htotal & Halloc' & Hbuckets' & _).
    { rewrite length_removelast. lia. }
    exists st', fm', tm'. split; [done|]. split; [done|].
    split; [rewrite Hfm', length_removelast; lia|]. split; [done|].
    split; [rewrite Htm', length_app; simpl; lia|]. split.
    { intros k Hki Hkj. rewrite Hother, Hdata by done. by rewrite !list_lookup_insert_ne. }
    split; [by rewrite Hlen, Hdata, !length_insert|]. split.
    { rewrite Htotal, Hdata. unfold total. rewrite !sizes_insert.
      pose proof (sizes_lookup _ _ _ _ Hi) as Hsi. pose proof (sizes_lookup _ _ _ _ Hj) as Hsj.
      pose proof (sum_list_insert (sizes (bucketData st)) i _ (length (removelast fm)) Hsi) as H1.
      assert (Hsj' : <[i := length (removelast fm)]> (sizes (bucketData st)) !! j
                     = Some (length tm)) by by rewrite list_lookup_insert_ne.
      pose proof (sum_list_insert _ j _ (length (tm ++ [mjoin (last fm)])) Hsj') as H2.
      rewrite length_app in H2. rewrite length_removelast in H1, H2. simpl in H2.
      rewrite length_app, length_removelast. simpl. lia. }
    split; [congruence|]. split; [|lia].
    intros Hin. rewrite Hbuckets', Hbuckets; [done..|]. by rewrite Hbuckets.
Qed.

(** *** _rebalance *)

Lemma amountOf_le_source (bs : Z) (from to : nat) :
  (0 ≤ bs)%Z → Z.to_nat (amountOf bs from to) ≤ from.
Proof. unfold amountOf. lia. Qed.

(** [_rebalance] with a capacity that is not negative: it returns the
    amount it computed, after moving that many members when the amount is
    positive and none otherwise. *)
Lemma _rebalance_spec (bs : Z) st i j fd fm td tm :
  (0 ≤ bs)%Z → i ≠ j →
  bucketData st !! i = Some (fd, fm) →
  bucketData st !! j = Some (td, tm) →
  ∃ st' fm' tm',
    _rebalance bs st i j = Some (st', amountOf bs (length fm) (length tm))
    ∧ bucketData st' !! i = Some (fd, fm')
    ∧ length fm' = length fm - Z.to_nat (amountOf bs (length fm) (length tm))
    ∧ bucketData st' !! j = Some (td, tm')
    ∧ length tm' = length tm + Z.to_nat (amountOf bs (length fm) (length tm))
    ∧ (∀ k, k ≠ i → k ≠ j → bucketData st' !! k = bucketData st !! k)
    ∧ length (bucketData st') = length (bucketData st)
    ∧ total (bucketData st') = total (bucketData st)
    ∧ allocated st' = allocated st
    ∧ (includes (buckets st) td = true → buckets st' = buckets st)
    ∧ ((amountOf bs (length fm) (length tm) ≤ 0)%Z → st' = st).
Proof.
  intros Hbs Hij Hi Hj. unfold Publisher._rebalance. rewrite Hi, Hj. simpl.
  destruct (transfers_spec (Z.to_nat (amountOf bs (length fm) (length tm))) st i j fd fm td tm
              Hij Hi Hj (amountOf_le_source _ _ _ Hbs))
    as (st' & fm' & tm' & -> & Hi' & Hfm' & Hj' & Htm' & Hother & Hlen & Htotal & Halloc
        & Hbuckets & Hzero).
  simpl. exists st', fm', tm'. repeat (split; [done|]). intros Hneg. apply Hzero. lia.
Qed.

(** *** The loop that creates buckets *)

(** With a capacity that is not negative the loop never comes to an end
    once it is entered: the bucket it creates is empty, the amount computed
    for it is not positive, and subtracting it does not lower [remaining]. *)
Lemma createBuckets_never_done (bs : Z) fuel st i (remaining : Z) fd fm :
  (0 ≤ bs)%Z → (0 < remaining)%Z →
  bucketData st !! i = Some (fd, fm) →
  ∃ st', createBuckets fuel bs st i remaining = OutOfFuel st'
    ∧ total (bucketData st') = total (bucketData st)
    ∧ buckets st' = buckets st
    ∧ remote st' = remote st
    ∧ ∀ k, k < length (bucketData st) → bucketData st' !! k = bucketData st !! k.
Proof.
  intros Hbs. revert st remaining.
  induction fuel as [|fuel IH]; intros st remaining Hrem Hi; simpl.
  - rewrite decide_True by lia. by exists st.
  - rewrite decide_True by lia.
    set (st1 := mkState (buckets st) (bucketData st ++ [(newDate now st, [])]) (remote st)
                  (S (allocated st))).
    pose proof (lookup_lt_Some _ _ _ Hi) as Hlt.
    assert (Hi1 : bucketData st1 !! i = Some (fd, fm)) by (simpl; by rewrite lookup_app_l).
    assert (Hj1 : bucketData st1 !! length (bucketData st) = Some (newDate now st, [])).
    { simpl. rewrite lookup_app_r by lia. by rewrite Nat.sub_diag. }
    destruct (_rebalance_spec bs st1 i (length (bucketData st)) fd fm _ _ Hbs ltac:(lia) Hi1 Hj1)
      as (st2 & fm' & tm' & -> & _ & _ & _ & _ & _ & _ & _ & _ & _ & Hsame).
    assert (Hneg : (amountOf bs (length fm) (length ([] : list (option string))) ≤ 0)%Z).
    { unfold amountOf. simpl. lia. }
    rewrite (Hsame Hneg).
    destruct (IH st1 (remaining - amountOf bs (length fm) (length ([] : list (option string))))%Z
                ltac:(lia) Hi1) as (st' & -> & Htotal & Hbuckets & Hremote & Hprefix).
    exists st'. split; [done|]. split.
    { rewrite Htotal. unfold total, sizes. simpl. rewrite map_app, sum_list_with_app. simpl. lia. }
    split; [done|]. split; [done|].
    intros k Hk. rewrite Hprefix by (simpl; rewrite length_app; lia).
    simpl. by rewrite lookup_app_l.
Qed.

Lemma createBuckets_total (bs : Z) fuel st i (remaining : Z) fd fm :
  (0 ≤ bs)%Z → bucketData st !! i = Some (fd, fm) →
  total (bucketData (finalState (createBuckets fuel bs st i remaining))) = total (bucketData st).
Proof.
  intros Hbs Hi. destruct (decide (0 < remaining)%Z) as [Hpos|Hneg].
  - destruct (createBuckets_never_done bs fuel st i remaining fd fm Hbs Hpos Hi)
      as (st' & -> & Htotal & _). done.
  - destruct fuel; simpl; by rewrite decide_False by lia.
Qed.

(** *** The body of the loop over the buckets *)

Lemma rebalanceBucket_total (bs : Z) fuel st i (remaining : Z) fd fm :
  (0 ≤ bs)%Z → bucketData st !! i = Some (fd, fm) →
  total (bucketData (finalState (rebalanceBucket fuel bs st i remaining)))
  = total (bucketData st).
Proof.
  intros Hbs Hi. unfold Publisher.rebalanceBucket.
  assert (Hprev : ∃ st1 moved1 fm1,
            (if decide (0 < i) then _rebalance bs st i (i - 1) else Some (st, 0%Z))
            = Some (st1, moved1)
            ∧ bucketData st1 !! i = Some (fd, fm1)
            ∧ total (bucketData st1) = total (bucketData st)).
  { destruct (decide (0 < i)) as [Hpos|_]; [|by exists st, 0%Z, fm].
    destruct (lookup_lt_is_Some_2 (bucketData st) (i - 1)) as [[pd pm] Hp].
    { apply lookup_lt_Some in Hi. lia. }
    destruct (_rebalance_spec bs st i (i - 1) fd fm pd pm Hbs ltac:(lia) Hi Hp)
      as (st1 & fm1 & tm1 & -> & Hi1 & _ & _ & _ & _ & _ & Htotal & _).
    by exists st1, (amountOf bs (length fm) (length pm)), fm1. }
  destruct Hprev as (st1 & moved1 & fm1 & -> & Hi1 & Htotal1).
  destruct (decide (Z.of_nat i < Z.of_nat (length (buckets st1)) - 1)%Z) as [Hnext|_].
  - destruct (bucketData st1 !! (i + 1)) as [[nd nm]|] eqn:Hn.
    + destruct (_rebalance_spec bs st1 i (i + 1) fd fm1 nd nm Hbs ltac:(lia) Hi1 Hn)
        as (st2 & fm2 & tm2 & -> & Hi2 & _ & _ & _ & _ & _ & Htotal2 & _).
      rewrite (createBuckets_total bs fuel st2 i _ fd fm2 Hbs Hi2). congruence.
    + unfold Publisher._rebalance. rewrite Hi1, Hn. simpl. done.
  - rewrite (createBuckets_total bs fuel st1 i _ fd fm1 Hbs Hi1). done.
Qed.

(** *** The loop over the buckets *)

Lemma rebalanceFrom_total (bucketSize : Capacity) fuel st i :
  validCapacity bucketSize →
  total (bucketData (finalState (rebalanceFrom fuel bucketSize st i))) = total (bucketData st).
Proof.
  intros Hvalid. revert st i. induction fuel as [|fuel IH]; intros st i; simpl; [done|].
  destruct (bucketData st !! i) as [[d m]|] eqn:Hi; [|done].
  destruct bucketSize as [bs|]; [|apply IH]. simpl in Hvalid.
  destruct (decide _) as [Hover|_]; [|apply IH].
  pose proof (rebalanceBucket_total bs fuel st i (Z.of_nat (length m) - bs) d m Hvalid Hi) as Hb.
  destruct (rebalanceBucket fuel bs st i (Z.of_nat (length m) - bs)) as [st'|st'|st']; simpl in *.
  - by rewrite IH.
  - done.
  - done.
Qed.

Lemma loadBucketData_total st : total (bucketData (loadBucketData st)) = remoteTotal st.
Proof.
  unfold total, sizes, Publisher.remoteTotal, Publisher.loadBucketData. simpl.
  rewrite map_map. f_equal. apply map_ext. intros bucket. simpl. by rewrite length_fmap.
Qed.

(** One call of [rebalance], wherever it stops. *)
Lemma rebalance_total (bucketSize : Capacity) fuel st :
  validCapacity bucketSize →
  total (bucketData (finalState (rebalance fuel bucketSize st))) = remoteTotal st.
Proof.
  intros Hvalid. unfold Publisher.rebalance.
  by rewrite rebalanceFrom_total, loadBucketData_total.
Qed.

(** *** A call that returns has changed nothing *)

Lemma includes_lookup (l : list Date) j d : l !! j = Some d → includes l d = true.
Proof.
  intros Hj. unfold includes. apply existsb_exists. exists d.
  split; [|apply Nat.eqb_refl]. apply list_elem_of_In. by eapply list_elem_of_lookup_2.
Qed.

Lemma loadBucketData_mirrors st : mirrors (loadBucketData st).
Proof.
  unfold mirrors, Publisher.loadBucketData. simpl. rewrite length_map. split; [done|].
  intros j d m _ Hj. rewrite list_lookup_fmap in Hj.
  destruct (buckets st !! j) as [b|] eqn:Hb; simpl in Hj; [|done].
  injection Hj as <- _. by eapply includes_lookup.
Qed.

Lemma createBuckets_done (bs : Z) fuel st i (remaining : Z) :
  (remaining ≤ 0)%Z → createBuckets fuel bs st i remaining = Done st.
Proof. intros Hle. destruct fuel; simpl; by rewrite decide_False by lia. Qed.

(** Once the loop meets a bucket above the capacity it never returns:
    either the bucket after it takes the whole overflow, and then is above
    the capacity in its turn, or the loop that creates buckets is entered. *)
Lemma rebalanceFrom_overflow_never_done (bs : Z) fuel st i fd fm st' :
  (0 ≤ bs)%Z → mirrors st →
  (∀ k d m, k < i → bucketData st !! k = Some (d, m) → (Z.of_nat (length m) ≤ bs)%Z) →
  bucketData st !! i = Some (fd, fm) →
  (bs < Z.of_nat (length fm))%Z →
  rebalanceFrom fuel (Finite bs) st i ≠ Done st'.
Proof.
  intros Hbs. revert st i fd fm.
  induction fuel as [|fuel IH]; intros st i fd fm [Hlen Hknown] Hbefore Hi Hover; simpl; [done|].
  rewrite Hi. rewrite decide_True by lia. unfold Publisher.rebalanceBucket.
  assert (Hprev : ∃ moved1,
            (if decide (0 < i) then _rebalance bs st i (i - 1) else Some (st, 0%Z))
            = Some (st, moved1) ∧ (moved1 ≤ 0)%Z).
  { destruct (decide (0 < i)) as [Hpos|_]; [|by exists 0%Z].
    destruct (lookup_lt_is_Some_2 (bucketData st) (i - 1)) as [[pd pm] Hp].
    { apply lookup_lt_Some in Hi. lia. }
    pose proof (Hbefore (i - 1) pd pm ltac:(lia) Hp) as Hsmall.
    destruct (_rebalance_spec bs st i (i - 1) fd fm pd pm Hbs ltac:(lia) Hi Hp)
      as (st1 & fm1 & tm1 & -> & _ & _ & _ & _ & _ & _ & _ & _ & _ & Hsame).
    assert (Hneg : (amountOf bs (length fm) (length pm) ≤ 0)%Z) by (unfold amountOf; lia).
    rewrite (Hsame Hneg). by eexists. }
  destruct Hprev as (moved1 & -> & Hmoved1).
  destruct (decide (Z.of_nat i < Z.of_nat (length (buckets st)) - 1)%Z) as [Hnext|Hlast].
  - destruct (lookup_lt_is_Some_2 (bucketData st) (i + 1)) as [[nd nm] Hn]; [lia|].
    destruct (_rebalance_spec bs st i (i + 1) fd fm nd nm Hbs ltac:(lia) Hi Hn)
      as (st2 & fm2 & nm2 & -> & Hi2 & Hfm2 & Hn2 & Hnm2 & Hother & Hlen2 & _ & _ & Hbuckets & _).
    specialize (Hbuckets (Hknown (i + 1) nd nm ltac:(lia) Hn)).
    set (moved2 := amountOf bs (length fm) (length nm)) in *.
    destruct (decide (0 < Z.of_nat (length fm) - bs - moved1 - moved2)%Z) as [Hpos|Hnonpos].
    + destruct (createBuckets_never_done bs fuel st2 i _ fd fm2 Hbs Hpos Hi2) as (st3 & -> & _).
      done.
    + rewrite createBuckets_done by lia.
      assert (Hmoved2 : moved2 = (Z.of_nat (length fm) - bs)%Z) by (unfold moved2, amountOf in *; lia).
      assert (Hroom : (Z.of_nat (length fm) - bs ≤ Z.of_nat (length nm) - bs)%Z)
        by (unfold moved2, amountOf in *; lia).
      rewrite Nat.add_1_r in Hn2.
      apply (IH st2 (S i) nd nm2); [| |done|lia]. 
      * split; [by rewrite Hbuckets, Hlen2|]. rewrite Hbuckets. intros j d m Hj Hjd.
        destruct (decide (j = i)) as [->|Hji].
        { rewrite Hi2 in Hjd. injection Hjd as <- _. by apply (Hknown i fd fm). }
        destruct (decide (j = S i)) as [->|Hjs].
        { rewrite Hn2 in Hjd. injection Hjd as <- _.
          apply (Hknown (i + 1) nd nm); [lia|done]. }
        rewrite Hother in Hjd by lia. by apply (Hknown j d m).
      * intros k d m Hk Hkd. destruct (decide (k = i)) as [->|Hki].
        { rewrite Hi2 in Hkd. injection Hkd as _ <-. lia. }
        rewrite Hother in Hkd by lia. apply (Hbefore k d m); [lia|done].
  - destruct (createBuckets_never_done bs fuel st i
                (Z.of_nat (length fm) - bs - moved1 - 0)%Z fd fm Hbs ltac:(lia) Hi)
      as (st3 & -> & _).
    done.
Qed.

Lemma rebalanceFrom_done (bs : Z) fuel st i st' :
  (0 ≤ bs)%Z → mirrors st →
  (∀ k d m, k < i → bucketData st !! k = Some (d, m) → (Z.of_nat (length m) ≤ bs)%Z) →
  rebalanceFrom fuel (Finite bs) st i = Done st' →
  st' = st
  ∧ ∀ k d m, bucketData st !! k = Some (d, m) → (Z.of_nat (length m) ≤ bs)%Z.
Proof.
  intros Hbs Hmirrors. revert i.
  induction fuel as [|fuel IH]; intros i Hbefore; [done|].
  destruct (bucketData st !! i) as [[d m]|] eqn:Hi.
  - destruct (decide (bs < Z.of_nat (length m))%Z) as [Hover|Hfits].
    + intros Hdone. exfalso.
      by eapply (rebalanceFrom_overflow_never_done bs (S fuel) st i d m st').
    + simpl. rewrite Hi. rewrite decide_False by lia. apply IH.
      intros k d' m' Hk Hkd. destruct (decide (k = i)) as [->|Hki].
      * rewrite Hi in Hkd. injection Hkd as _ <-. lia.
      * apply (Hbefore k d' m'); [lia|done].
  - simpl. rewrite Hi. intros [= <-]. split; [done|]. intros k d m Hk.
    apply (Hbefore k d m); [|done]. apply lookup_lt_Some in Hk.
    apply lookup_ge_None in Hi. lia.
Qed.

Lemma rebalanceFrom_done_unbounded fuel st i st' :
  rebalanceFrom fuel Infinity st i = Done st' → st' = st.
Proof.
  revert i. induction fuel as [|fuel IH]; intros i; simpl; [done|].
  destruct (bucketData st !! i) as [[d m]|]; [apply IH|]. by intros [= <-].
Qed.

(** A call of [rebalance] that returns has only loaded the bucket data. *)
Lemma rebalance_done (bucketSize : Capacity) fuel st st' :
  validCapacity bucketSize →
  rebalance fuel bucketSize st = Done st' → st' = loadBucketData st.
Proof.
  intros Hvalid. unfold Publisher.rebalance. destruct bucketSize as [bs|].
  - intros Hdone. apply (rebalanceFrom_done bs fuel _ 0 st' Hvalid) in Hdone as [-> _];
      [done|apply loadBucketData_mirrors|]. intros k d m Hk. lia.
  - apply rebalanceFrom_done_unbounded.
Qed.


(** A call of [rebalance] that meets a bucket above the capacity never
    returns; a call that returns has found every bucket within it. *)
Lemma rebalance_done_within_capacity (bs : Z) fuel st st' :
  (0 ≤ bs)%Z →
  rebalance fuel (Finite bs) st = Done st' →
  st' = loadBucketData st
  ∧ ∀ bucket, bucket ∈ buckets st →
      (Z.of_nat (length (getMembers (remote st) (getTime bucket))) ≤ bs)%Z.
Proof.
  intros Hbs Hdone. unfold Publisher.rebalance in Hdone.
  apply (rebalanceFrom_done bs fuel _ 0 st' Hbs) in Hdone as [-> Hall];
    [|apply loadBucketData_mirrors|intros k d m Hk; lia].
  split; [done|]. intros bucket [k Hk]%list_elem_of_lookup.
  specialize (Hall k bucket (Some <$> getMembers (remote st) (getTime bucket))).
  rewrite length_fmap in Hall. apply Hall.
  unfold Publisher.loadBucketData. simpl. by rewrite list_lookup_fmap, Hk.
Qed.

(** When no bucket is above the capacity the call returns, within one
    iteration more than there are buckets. *)
Lemma rebalanceFrom_within_capacity (bs : Z) fuel st i :
  (∀ k d m, bucketData st !! k = Some (d, m) → (Z.of_nat (length m) ≤ bs)%Z) →
  length (bucketData st) - i < fuel →
  rebalanceFrom fuel (Finite bs) st i = Done st.
Proof.
  intros Hfits. revert i. induction fuel as [|fuel IH]; intros i Hfuel; [lia|]. simpl.
  destruct (bucketData st !! i) as [[d m]|] eqn:Hi; [|done].
  rewrite decide_False by (specialize (Hfits i d m Hi); lia).
  apply IH. apply lookup_lt_Some in Hi. lia.
Qed.

Lemma rebalance_within_capacity (bs : Z) st :
  (∀ bucket, bucket ∈ buckets st →
     (Z.of_nat (length (getMembers (remote st) (getTime bucket))) ≤ bs)%Z) →
  rebalance (S (length (buckets st))) (Finite bs) st = Done (loadBucketData st).
Proof.
  intros Hfits. unfold Publisher.rebalance. apply rebalanceFrom_within_capacity.
  - intros k d m Hk. unfold Publisher.loadBucketData in Hk. simpl in Hk.
    rewrite list_lookup_fmap in Hk.
    destruct (buckets st !! k) as [b|] eqn:Hb; simpl in Hk; [|done].
    injection Hk as <- <-. rewrite length_fmap. apply Hfits. by eapply list_elem_of_lookup_2.
  - unfold Publisher.loadBucketData. simpl. rewrite length_map. lia.
Qed.

(** *** append *)

Lemma insertByString_Permutation d (l : list Date) :
  insertByString toString d l ≡ₚ d :: l.
Proof.
  induction l as [|x l IH]; simpl; [done|].
  destruct (String.leb _ _); [done|]. rewrite IH. apply Permutation_swap.
Qed.

Lemma sort_Permutation (l : list Date) : sort toString l ≡ₚ l.
Proof.
  induction l as [|x l IH]; simpl; [done|]. by rewrite insertByString_Permutation, IH.
Qed.

Lemma strictlyIncreasing_head (a : Z) (l : list Z) x :
  strictlyIncreasing (a :: l) = true → x ∈ l → (a < x)%Z.
Proof.
  revert a. induction l as [|b l IH]; intros a Hs Hx; [by apply elem_of_nil in Hx|].
  simpl in Hs. apply andb_true_iff in Hs as [Hab Hs]. apply bool_decide_eq_true in Hab.
  apply elem_of_cons in Hx as [->|Hx]; [done|]. specialize (IH b Hs Hx). lia.
Qed.

Lemma strictlyIncreasing_NoDup (l : list Z) : strictlyIncreasing l = true → NoDup l.
Proof.
  induction l as [|a l IH]; intros Hs; [constructor|].
  apply NoDup_cons. split.
  - intros Ha. pose proof (strictlyIncreasing_head a l a Hs Ha). lia.
  - apply IH. destruct l as [|b l]; [done|]. simpl in Hs. by apply andb_true_iff in Hs as [_ Hs].
Qed.

(** C3 (failing input, in general).  [append] of a bucket that is not yet
    known leaves its boundary twice in the list of buckets: the boundaries
    are not strictly increasing afterwards, whatever they were before and
    whatever order the sort uses. *)
Theorem append_new_bucket_breaks_order (st : State) (resource : list N3.Quad) (bucket : Date) :
  includes (buckets st) bucket = true
  ∨ strictlyIncreasing (boundaries (buckets (append st resource bucket))) = false.
Proof.
  destruct (includes (buckets st) bucket) eqn:Hknown; [by left|right].
  apply not_true_is_false. intros Hs%strictlyIncreasing_NoDup.
  unfold Publisher.append in Hs. rewrite Hknown in Hs. simpl in Hs.
  unfold boundaries in Hs. rewrite sort_Permutation in Hs.
  rewrite <- !app_assoc, !map_app in Hs. simpl in Hs.
  apply NoDup_app in Hs as (_ & _ & Hs). apply NoDup_cons in Hs as [Hs _].
  apply Hs, list_elem_of_here.
Qed.

End PublisherProofs.

(** ** The publisher on concrete buckets *)

Section PublisherExamples.
Import Publisher Examples.
Local Open Scope Z_scope.

(** The bucket data after the first loop of [rebalance]. *)
Lemma threeBuckets_loaded :
  bucketData (loadBucketData members131 threeBuckets)
  = [(t0, [Some "r0"%string]);
     (t1, [Some "r1"%string; Some "r2"%string; Some "r3"%string]);
     (t2, [Some "r4"%string])].
Proof. reflexivity. Qed.

(** C1 (failing input).  The source bucket holds three resources, the
    receiving bucket holds one and the capacity is two: [_rebalance]
    moves nothing and returns [-1].  With a source of three, a receiver of
    five and the same capacity it moves one more resource into the
    receiver, which was already three over the capacity. *)
Theorem _rebalance_negative_amount :
  _rebalance members131 noPatch noFragment noText dateText 2
    (loadBucketData members131 threeBuckets) 1 0
  = Some (loadBucketData members131 threeBuckets, -1)
  ∧ (amountOf 2 3 1 = -1 ∧ amountOf 2 3 5 = 1)
  ∧ sizes (bucketData (loadBucketData members35 twoBuckets)) = [3%nat; 5%nat]
  ∧ (λ result, (sizes (bucketData result.1), result.2))
      <$> _rebalance members35 noPatch noFragment noText dateText 2
            (loadBucketData members35 twoBuckets) 0 1
    = Some ([2%nat; 6%nat], 1).
Proof. repeat split; reflexivity. Qed.

(** C5 (failing input).  On buckets that hold one, three and one resources
    and with capacity two, [rebalance] is still running after any number
    [fuel] of loop iterations, and the three buckets still hold one, three
    and one resources. *)
Theorem rebalance_1_3_1_never_returns (fuel : nat) :
  ∃ st, rebalance members131 noPatch noFragment noText dateText clock fuel (Finite 2) threeBuckets
        = OutOfFuel st
        ∧ sizes (take 3 (bucketData st)) = [1%nat; 3%nat; 1%nat].
Proof.
  destruct fuel as [|[|fuel]]; [by eexists..|].
  unfold rebalance.
  set (st := loadBucketData members131 threeBuckets).
  change (rebalanceFrom members131 noPatch noFragment noText dateText clock (S (S fuel))
            (Finite 2) st 0)
    with (match createBuckets members131 noPatch noFragment noText dateText clock fuel 2 st 1 3
          with
          | Done st' =>
              rebalanceFrom members131 noPatch noFragment noText dateText clock fuel
                (Finite 2) st' 2
          | stopped => stopped
          end).
  destruct (createBuckets_never_done members131 noPatch noFragment noText dateText clock
              2 fuel st 1 3 t1 [Some "r1"%string; Some "r2"%string; Some "r3"%string])
    as (st' & -> & _ & _ & _ & Hprefix); [lia|lia|done|].
  exists st'. split; [done|].
  assert (Htake : take 3 (bucketData st') = take 3 (bucketData st)).
  { apply list_eq. intros k. destruct (decide (k < 3)%nat) as [Hk|Hk].
    - rewrite !lookup_take_lt by done. apply Hprefix. simpl. lia.
    - rewrite !lookup_take_ge by lia. done. }
  by rewrite Htake.
Qed.

(** [rebalance] with capacity three on buckets of one, three and one
    resources: it returns and has changed nothing. *)
Lemma rebalance_done_three_buckets :
  loadBucketData members131 threeBuckets = loadBucketData members131 threeBuckets
  ∧ ∀ bucket, bucket ∈ buckets threeBuckets →
      Z.of_nat (length (members131 (remote threeBuckets) (getTime bucket))) ≤ 3.
Proof.
  apply (rebalance_done_within_capacity members131 noPatch noFragment noText dateText clock
           3 4 threeBuckets (loadBucketData members131 threeBuckets)); [lia|reflexivity].
Defined.

(** [rebalance] with capacity three on the same buckets returns after four
    iterations. *)
Lemma rebalance_within_capacity_three_buckets :
  rebalance members131 noPatch noFragment noText dateText clock
    (S (length (buckets threeBuckets))) (Finite 3) threeBuckets
  = Done (loadBucketData members131 threeBuckets).
Proof.
  apply (rebalance_within_capacity members131 noPatch noFragment noText dateText clock
           3 threeBuckets).
  intros bucket Hb. repeat (apply elem_of_cons in Hb as [->|Hb]; [simpl; lia|]).
  by apply elem_of_nil in Hb.
Defined.

(** C3 (failing input).  One known bucket, and [append] of a resource to a
    bucket that is not known yet: the new boundary is listed twice. *)
Lemma append_new_bucket_listed_twice :
  boundaries (buckets (append noPatch noFragment noText dateText
                         (mkState [t0] [] tt 1) [] t1))
  = [0; 1000; 1000].
Proof. reflexivity. Qed.


End PublisherExamples.

(** ** The publisher: publish, append and the default capacity *)

Section PublishProofs.
Import Publisher.
Local Open Scope nat_scope.

Context {Remote : Type}.
Variable getMembers : Remote → Z → list string.
Variable patchInsert : Remote → Z → string → Remote.
Variable newFragment : Remote → Z → Remote.
Variable generateString : list N3.Quad → string.
Variable toString : Date → string.
Variable now : nat → Z.
Variable getTimeStamp : list N3.Quad → option JS.Timestamp.

Local Abbreviation State := (@State Remote).
Local Abbreviation append := (append patchInsert newFragment generateString toString).
Local Abbreviation publish :=
  (publish patchInsert newFragment generateString toString getTimeStamp).
Local Abbreviation getBucketOf := (@getBucketOf Remote getTimeStamp).
Local Abbreviation transfers :=
  (transfers getMembers patchInsert newFragment generateString toString).
Local Abbreviation _rebalance := (_rebalance getMembers patchInsert newFragment generateString toString).
Local Abbreviation rebalanceFrom :=
  (rebalanceFrom getMembers patchInsert newFragment generateString toString now).
Local Abbreviation rebalance :=
  (rebalance getMembers patchInsert newFragment generateString toString now).
Local Abbreviation loadBucketData := (loadBucketData getMembers).
Local Abbreviation createBuckets :=
  (createBuckets getMembers patchInsert newFragment generateString toString now).

Implicit Types (st : State) (l : list Date).

(** *** publish *)

Lemma includes_elem_of l d : d ∈ l → includes l d = true.
Proof. intros [j Hj]%list_elem_of_lookup. by apply (includes_lookup l j). Qed.

Lemma getBucket_known l (resourceDate : Z) d :
  getBucket l resourceDate = Bucket d → d ∈ l.
Proof.
  unfold getBucket. destruct (findIndex resourceDate l) as [[|k]|].
  - done.
  - destruct (l !! k) as [d'|] eqn:Hk; [|done]. intros [= <-].
    by apply list_elem_of_lookup_2 in Hk.
  - destruct (last l) as [d'|] eqn:Hlast; [|done]. intros [= <-].
    rewrite last_lookup in Hlast. by apply list_elem_of_lookup_2 in Hlast.
Qed.

Lemma getBucketOf_known st resource d :
  getBucketOf st resource = Some (Some d) → d ∈ buckets st.
Proof.
  unfold Publisher.getBucketOf.
  destruct (getTimeStamp resource) as [timestamp|]; simpl; [|done].
  destruct (JS.timeClip timestamp) as [resourceDate|].
  - destruct (getBucket (buckets st) resourceDate) as [d'| |] eqn:Hbucket; [|done|done].
    intros [= <-]. by apply getBucket_known in Hbucket.
  - intros [= Hlast]. rewrite last_lookup in Hlast. by apply list_elem_of_lookup_2 in Hlast.
Qed.

(** X17. [publish] never creates a bucket: when it returns, the list of
    known buckets and the bucket data are as before, and the text of the
    flattened resource was patched into one of the known buckets.  Without
    a known bucket it throws. *)
Theorem publish_never_creates_bucket (st : State)
    (resource : list N3.Quad + list (list N3.Quad)) :
  (buckets st = [] → publish st resource = None)
  ∧ ∀ st', publish st resource = Some st' →
      buckets st' = buckets st
      ∧ bucketData st' = bucketData st
      ∧ ∃ bucket, bucket ∈ buckets st
          ∧ remote st' = patchInsert (remote st) (getTime bucket)
                           (generateString (flat resource)).
Proof.
  unfold Publisher.publish. split.
  - intros Hnone.
    destruct (getBucketOf st (flat resource)) as [[d|]|] eqn:Hbucket; simpl; [|done|done].
    apply getBucketOf_known in Hbucket. rewrite Hnone in Hbucket.
    by apply elem_of_nil in Hbucket.
  - intros st'.
    destruct (getBucketOf st (flat resource)) as [[d|]|] eqn:Hbucket; simpl; [|done|done].
    intros [= <-]. apply getBucketOf_known in Hbucket.
    pose proof (includes_elem_of _ _ Hbucket) as Hknown.
    split; [by apply append_buckets_known|]. split; [apply append_bucketData|].
    exists d. split; [done|]. unfold Publisher.append. by rewrite Hknown.
Qed.

(** *** append *)

Lemma includes_Permutation l l' d : l ≡ₚ l' → includes l d = includes l' d.
Proof.
  intros Hperm. unfold includes. apply eq_true_iff_eq.
  rewrite !existsb_exists. split; intros (x & Hx & Hd); exists x; split; try done.
  - by rewrite <- Hperm.
  - by rewrite Hperm.
Qed.

(** X18. After [append] the bucket is known, and a bucket that was not
    known before has been added to the list of buckets twice; a second
    [append] to the same bucket leaves the list as it is. *)
Theorem append_makes_known (st : State) (resource resource' : list N3.Quad) (bucket : Date) :
  includes (buckets (append st resource bucket)) bucket = true
  ∧ buckets (append st resource bucket)
    ≡ₚ (if includes (buckets st) bucket then [] else [bucket; bucket]) ++ buckets st
  ∧ buckets (append (append st resource bucket) resource' bucket)
    = buckets (append st resource bucket).
Proof.
  assert (includes (buckets (append st resource bucket)) bucket = true
          ∧ buckets (append st resource bucket)
            ≡ₚ (if includes (buckets st) bucket then [] else [bucket; bucket]) ++ buckets st)
    as [Hknown Hperm].
  { unfold Publisher.append. destruct (includes (buckets st) bucket) eqn:Hin; simpl.
    - done.
    - assert (sort toString ((buckets st ++ [bucket]) ++ [bucket])
              ≡ₚ bucket :: bucket :: buckets st) as Hperm.
      { rewrite sort_Permutation, <- app_assoc. simpl.
        by rewrite (Permutation_app_comm (buckets st)). }
      split; [|done]. rewrite (includes_Permutation _ _ _ Hperm).
      simpl. by rewrite Nat.eqb_refl. }
  split; [done|]. split; [done|]. by apply append_buckets_known.
Qed.

(** *** The default capacity *)

Lemma rebalanceFrom_unbounded fuel st i :
  length (bucketData st) - i < fuel → rebalanceFrom fuel Infinity st i = Done st.
Proof.
  revert i. induction fuel as [|fuel IH]; intros i Hfuel; [lia|]. simpl.
  destruct (bucketData st !! i) as [[d m]|] eqn:Hi; [|done].
  apply IH. apply lookup_lt_Some in Hi. lia.
Qed.

(** X19. With the default capacity (the bucket size was not set),
    [rebalance] returns after one pass over the known buckets and has
    only loaded the bucket data: nothing is moved and no bucket is
    created. *)
Theorem rebalance_unbounded (st : State) (extra : nat) :
  rebalance (S (length (buckets st)) + extra) Infinity st = Done (loadBucketData st).
Proof.
  unfold Publisher.rebalance. apply rebalanceFrom_unbounded.
  unfold Publisher.loadBucketData. simpl. rewrite length_map. lia.
Qed.

(** *** The known buckets during rebalance *)

Lemma rebalanceFrom_buckets (bs : Z) fuel st i :
  (0 ≤ bs)%Z → mirrors st →
  (∀ k d m, k < i → bucketData st !! k = Some (d, m) → (Z.of_nat (length m) ≤ bs)%Z) →
  buckets (finalState (rebalanceFrom fuel (Finite bs) st i)) = buckets st.
Proof.
  intros Hbs. revert st i.
  induction fuel as [|fuel IH]; intros st i [Hlen Hknown] Hbefore; simpl; [done|].
  destruct (bucketData st !! i) as [[fd fm]|] eqn:Hi; [|done].
  destruct (decide (Z.of_nat (length fm) - bs > 0)%Z) as [Hover|Hfits].
  2:{ apply IH; [done|]. intros k d m Hk Hkd. destruct (decide (k = i)) as [->|Hki].
      - rewrite Hi in Hkd. injection Hkd as _ <-. lia.
      - apply (Hbefore k d m); [lia|done]. }
  unfold Publisher.rebalanceBucket.
  assert (Hprev : ∃ moved1,
            (if decide (0 < i) then _rebalance bs st i (i - 1) else Some (st, 0%Z))
            = Some (st, moved1) ∧ (moved1 ≤ 0)%Z).
  { destruct (decide (0 < i)) as [Hpos|_]; [|by exists 0%Z].
    destruct (lookup_lt_is_Some_2 (bucketData st) (i - 1)) as [[pd pm] Hp].
    { apply lookup_lt_Some in Hi. lia. }
    pose proof (Hbefore (i - 1) pd pm ltac:(lia) Hp) as Hsmall.
    destruct (_rebalance_spec getMembers patchInsert newFragment generateString toString
                bs st i (i - 1) fd fm pd pm Hbs ltac:(lia) Hi Hp)
      as (st1 & fm1 & tm1 & -> & _ & _ & _ & _ & _ & _ & _ & _ & _ & Hsame).
    assert (Hneg : (amountOf bs (length fm) (length pm) ≤ 0)%Z) by (unfold amountOf; lia).
    rewrite (Hsame Hneg). by eexists. }
  destruct Hprev as (moved1 & -> & Hmoved1).
  destruct (decide (Z.of_nat i < Z.of_nat (length (buckets st)) - 1)%Z) as [Hnext|Hlast].
  - destruct (lookup_lt_is_Some_2 (bucketData st) (i + 1)) as [[nd nm] Hn]; [lia|].
    destruct (_rebalance_spec getMembers patchInsert newFragment generateString toString
                bs st i (i + 1) fd fm nd nm Hbs ltac:(lia) Hi Hn)
      as (st2 & fm2 & nm2 & -> & Hi2 & Hfm2 & Hn2 & Hnm2 & Hother & Hlen2 & _ & _ & Hbuckets & _).
    specialize (Hbuckets (Hknown (i + 1) nd nm ltac:(lia) Hn)).
    set (moved2 := amountOf bs (length fm) (length nm)) in *.
    destruct (decide (0 < Z.of_nat (length fm) - bs - moved1 - moved2)%Z) as [Hpos|Hnonpos].
    + destruct (createBuckets_never_done getMembers patchInsert newFragment generateString
                  toString now bs fuel st2 i _ fd fm2 Hbs Hpos Hi2)
        as (st3 & -> & _ & Hbuckets3 & _).
      simpl. congruence.
    + rewrite createBuckets_done by lia.
      assert (Hmoved2 : moved2 = (Z.of_nat (length fm) - bs)%Z)
        by (unfold moved2, amountOf in *; lia).
      rewrite Nat.add_1_r in Hn2. rewrite <- Hbuckets.
      apply IH.
      * split; [by rewrite Hbuckets, Hlen2|]. rewrite Hbuckets. intros j d m Hj Hjd.
        destruct (decide (j = i)) as [->|Hji].
        { rewrite Hi2 in Hjd. injection Hjd as <- _. by apply (Hknown i fd fm). }
        destruct (decide (j = S i)) as [->|Hjs].
        { rewrite Hn2 in Hjd. injection Hjd as <- _.
          apply (Hknown (i + 1) nd nm); [lia|done]. }
        rewrite Hother in Hjd by lia. by apply (Hknown j d m).
      * intros k d m Hk Hkd. destruct (decide (k = i)) as [->|Hki].
        { rewrite Hi2 in Hkd. injection Hkd as _ <-. lia. }
        rewrite Hother in Hkd by lia. apply (Hbefore k d m); [lia|done].
  - destruct (createBuckets_never_done getMembers patchInsert newFragment generateString
                toString now bs fuel st i
                (Z.of_nat (length fm) - bs - moved1 - 0)%Z fd fm Hbs ltac:(lia) Hi)
      as (st3 & -> & _ & Hbuckets3 & _).
    done.
Qed.

(** X20. With a capacity that is not negative (or none), [rebalance]
    never changes the list of known buckets, wherever it stops: the
    buckets it creates exist in its bucket data only. *)
Theorem rebalance_keeps_known_buckets (bucketSize : Capacity) (fuel : nat) (st : State) :
  validCapacity bucketSize →
  buckets (finalState (rebalance fuel bucketSize st)) = buckets st.
Proof.
  intros Hvalid. unfold Publisher.rebalance. destruct bucketSize as [bs|].
  - rewrite rebalanceFrom_buckets; [done|done|apply loadBucketData_mirrors|].
    intros k d m Hk. lia.
  - assert (∀ i, buckets (finalState (rebalanceFrom fuel Infinity (loadBucketData st) i))
                 = buckets st) as Hany; [|apply Hany].
    induction fuel as [|fuel IH]; intros i; simpl; [done|].
    destruct (_ !! i) as [[d m]|]; [apply IH|done].
Qed.

(** *** What _rebalance moves *)

(** The members that [n] iterations move: the last [n] of the source,
    pushed on the receiver one after the other from the last one on. *)
Lemma transfers_content n st i j fd (fm : list (option string)) td tm :
  i ≠ j →
  bucketData st !! i = Some (fd, fm) →
  bucketData st !! j = Some (td, tm) →
  n ≤ length fm →
  ∃ st', transfers n st i j = Some st'
    ∧ bucketData st'
      = <[ j := (td, tm ++ reverse (drop (length fm - n) fm)) ]>
          (<[ i := (fd, take (length fm - n) fm) ]> (bucketData st)).
Proof.
  intros Hij. revert st fm tm. induction n as [|n IH]; intros st fm tm Hi Hj Hn; simpl.
  - exists st. split; [done|]. rewrite Nat.sub_0_r, drop_all, take_ge, app_nil_r by done.
    rewrite (list_insert_id _ i) by done. by rewrite list_insert_id.
  - destruct fm as [|x fm0 _] using rev_ind; [simpl in Hn; lia|].
    destruct (transfer_spec getMembers patchInsert newFragment generateString toString
                st i j fd (fm0 ++ [x]) td tm Hij Hi Hj) as (st1 & -> & Hdata & _).
    rewrite last_snoc, removelast_last in Hdata. simpl in Hdata. simpl.
    rewrite length_app in Hn. simpl in Hn.
    destruct (IH st1 fm0 (tm ++ [x])) as (st' & -> & Hdata'); [| |lia|].
    { rewrite Hdata, list_lookup_insert_ne by done. apply list_lookup_insert_eq.
      by eapply lookup_lt_Some. }
    { rewrite Hdata. apply list_lookup_insert_eq. rewrite length_insert.
      by eapply lookup_lt_Some. }
    exists st'. split; [done|]. rewrite Hdata', Hdata.
    rewrite length_app. simpl.
    replace (length fm0 + 1 - S n) with (length fm0 - n) by lia.
    rewrite drop_app_le, take_app_le, reverse_snoc by lia.
    rewrite (list_insert_insert_ne _ i j) by done.
    rewrite !list_insert_insert_eq. by rewrite <- app_assoc.
Qed.


End PublishProofs.

(** X20 on three buckets that hold one, three and one resources. *)
Lemma rebalance_keeps_known_buckets_three_buckets :
  Publisher.validCapacity (Publisher.Finite 2)
  ∧ Publisher.buckets
      (Publisher.finalState
         (Publisher.rebalance Examples.members131 Examples.noPatch Examples.noFragment
            Examples.noText Examples.dateText Examples.clock 10
            (Publisher.Finite 2) Examples.threeBuckets))
    = Publisher.buckets Examples.threeBuckets.
Proof.
  split; [simpl; lia|].
  apply (rebalance_keeps_known_buckets Examples.members131 Examples.noPatch
           Examples.noFragment Examples.noText Examples.dateText Examples.clock
           (Publisher.Finite 2) 10 Examples.threeBuckets).
  simpl. lia.
Defined.


(** ** prefixesFromFilepath *)

Section Prefixes.
Import N3 Vocab JS EventSource.
Local Open Scope string_scope.
Local Open Scope list_scope.
Local Open Scope nat_scope.

Local Arguments String.append _ _ : simpl nomatch.

Variable turtleStringToStore : string → option (list Quad).

Local Abbreviation prefixesFromFilepath := (prefixesFromFilepath turtleStringToStore).

Lemma app_cons_eq_snoc {B : Type} (x : B) (l1 l2 m : list B) :
  l1 ++ x :: l2 = m ++ [x] → x ∉ m → l2 = [] ∧ l1 = m.
Proof.
  revert m. induction l1 as [|a l1 IH]; intros m Heq Hnotin; simpl in Heq.
  - destruct m as [|y m]; simpl in Heq.
    + by injection Heq as ->.
    + injection Heq as -> _. exfalso. apply Hnotin, list_elem_of_here.
  - destruct m as [|y m]; simpl in Heq.
    + injection Heq as _ Heq. by destruct l1.
    + injection Heq as -> Heq. destruct (IH m Heq) as [-> ->]; [|done].
      intros Hin. by apply Hnotin, list_elem_of_further.
Qed.

Lemma occurrences_list c (s : string) :
  occurrences c s = 0 ↔ c ∉ list_ascii_of_string s.
Proof.
  induction s as [|c' s IH]; simpl.
  - split; [intros _; apply not_elem_of_nil|done].
  - rewrite not_elem_of_cons, <- IH. destruct (decide (c' = c)); split.
    + done.
    + by intros [? _].
    + intros Hs. split; [congruence|done].
    + by intros [_ ?].
Qed.

(** The literals that pass the test of the loop are the plain strings that
    are not empty and hold no double quote. *)
Lemma isQuotedString_literal (o : Term) :
  termType o = TLiteral → isQuotedString (id o) = true →
  ∃ lexical, o = Literal lexical EmptyString xsd_string
             ∧ lexical ≠ EmptyString ∧ occurrences "034" lexical = 0.
Proof.
  destruct o as [| |lexical language datatype|]; try done. intros _.
  unfold isQuotedString, id.
  set (suffix := if decide (language = EmptyString)
                 then if decide (datatype = xsd_string) then EmptyString else "^^" +:+ datatype
                 else "@" +:+ language).
  change (quote +:+ lexical +:+ quote +:+ suffix)
    with (String "034" (lexical +:+ String "034" suffix)).
  cbn [list_ascii_of_string].
  rewrite list_ascii_of_string_app. cbn [list_ascii_of_string].
  destruct (reverse _) as [|final middle] eqn:Hrev; [done|].
  intros Htest. repeat (apply andb_true_iff in Htest as [Htest ?]).
  repeat match goal with H : bool_decide _ = true |- _ => apply bool_decide_eq_true in H end.
  subst final.
  assert (list_ascii_of_string lexical ++ "034"%char :: list_ascii_of_string suffix
          = reverse middle ++ ["034"%char]) as Heq.
  { rewrite <- (reverse_involutive (_ ++ _ :: _)), Hrev. by rewrite reverse_cons. }
  apply app_cons_eq_snoc in Heq as [Hsuffix Hlexical].
  - assert (suffix = EmptyString) as Hempty by by destruct suffix.
    unfold suffix in Hempty.
    destruct (decide (language = EmptyString)) as [->|]; [|done].
    destruct (decide (datatype = xsd_string)) as [->|]; [|done].
    exists lexical. split; [done|]. split.
    + intros ->. simpl in Hlexical. symmetry in Hlexical.
      apply (f_equal reverse) in Hlexical. rewrite reverse_involutive in Hlexical.
      by subst middle.
    + apply occurrences_list. rewrite Hlexical, elem_of_reverse.
      intros Hin. rewrite forallb_forall in H.
      apply list_elem_of_In, H, bool_decide_eq_true in Hin. done.
  - rewrite elem_of_reverse. intros Hin. rewrite forallb_forall in H.
    apply list_elem_of_In, H, bool_decide_eq_true in Hin. done.
Qed.

Lemma isQuotedString_plain (k : string) :
  k ≠ EmptyString → occurrences "034" k = 0 →
  isQuotedString (id (Literal k EmptyString xsd_string)) = true.
Proof.
  intros Hne Hquote. unfold isQuotedString, id.
  rewrite !decide_True by done.
  change (quote +:+ k +:+ quote +:+ EmptyString) with (String "034" (k +:+ String "034" EmptyString)).
  cbn [list_ascii_of_string]. rewrite list_ascii_of_string_app. cbn [list_ascii_of_string].
  rewrite reverse_app. cbn [reverse app]. change (reverse ["034"%char]) with ["034"%char].
  cbn [app]. repeat (apply andb_true_iff; split).
  - by apply bool_decide_eq_true.
  - by apply bool_decide_eq_true.
  - apply bool_decide_eq_true. intros Hnil. apply Hne. destruct k; [done|].
    simpl in Hnil. rewrite reverse_cons in Hnil.
    apply (f_equal length) in Hnil. rewrite length_app in Hnil. simpl in Hnil. lia.
  - apply forallb_forall. intros c Hc. apply bool_decide_eq_true.
    intros ->. apply list_elem_of_In in Hc. rewrite elem_of_reverse in Hc.
    by apply occurrences_list in Hquote.
Qed.

(** One iteration either leaves a prefix alone or sets it from the quad. *)
Lemma prefixStep_lookup (prefixes : JS.Object) (q : Quad) (k v : string) :
  prefixStep prefixes q !! k = Some v →
  prefixes !! k = Some v
  ∨ (usablePrefix k ∧ object q = Literal k EmptyString xsd_string ∧ value (subject q) = v).
Proof.
  unfold prefixStep.
  destruct (decide (termType (object q) ≠ TLiteral)) as [|Hlit%dec_stable]; [by left|].
  destruct (isQuotedString (id (object q))) eqn:Htest; [|by left].
  destruct (isQuotedString_literal _ Hlit Htest) as (lexical & Ho & Hne & Hquote).
  rewrite Ho. simpl. unfold setProperty.
  destruct (decide (lexical = "__proto__")) as [|Hproto]; [by left|].
  destruct (decide (lexical = k)) as [->|Hk].
  - rewrite lookup_insert_eq. intros [= <-]. right. by repeat split.
  - rewrite lookup_insert_ne by done. by left.
Qed.

Lemma prefixStep_keeps (prefixes : JS.Object) (q : Quad) (k : string) :
  is_Some (prefixes !! k) → is_Some (prefixStep prefixes q !! k).
Proof.
  intros Hk. unfold prefixStep.
  destruct (decide _); [done|]. destruct (isQuotedString _); [|done].
  unfold setProperty. destruct (decide _); [done|].
  apply lookup_insert_is_Some'. by right.
Qed.

Lemma prefixStep_sets (prefixes : JS.Object) (q : Quad) (k : string) :
  usablePrefix k → object q = Literal k EmptyString xsd_string →
  prefixStep prefixes q !! k = Some (value (subject q)).
Proof.
  intros (Hne & Hproto & Hquote) Ho. unfold prefixStep. rewrite Ho.
  rewrite decide_False by (intros Hlit; by apply Hlit).
  rewrite isQuotedString_plain by done. simpl. unfold setProperty.
  rewrite decide_False by done. apply lookup_insert_eq.
Qed.

Lemma prefixLoop_lookup (l : list Quad) (prefixes : JS.Object) (k v : string) :
  foldl prefixStep prefixes l !! k = Some v →
  prefixes !! k = Some v
  ∨ (usablePrefix k
     ∧ ∃ q, q ∈ l ∧ object q = Literal k EmptyString xsd_string ∧ value (subject q) = v).
Proof.
  revert prefixes. induction l as [|q l IH]; intros prefixes; simpl; [by left|].
  intros [Hstep|(Husable & q' & Hq' & Ho & Hv)]%IH.
  - apply prefixStep_lookup in Hstep as [?|(Husable & Ho & Hv)]; [by left|].
    right. split; [done|]. exists q. split; [apply list_elem_of_here|done].
  - right. split; [done|]. exists q'. split; [by apply list_elem_of_further|done].
Qed.

Lemma prefixLoop_keeps (l : list Quad) (prefixes : JS.Object) (k : string) :
  is_Some (prefixes !! k) → is_Some (foldl prefixStep prefixes l !! k).
Proof.
  revert prefixes. induction l as [|q l IH]; intros prefixes Hk; simpl; [done|].
  by apply IH, prefixStep_keeps.
Qed.

Lemma prefixLoop_sets (l : list Quad) (prefixes : JS.Object) (q : Quad) (k : string) :
  q ∈ l → usablePrefix k → object q = Literal k EmptyString xsd_string →
  is_Some (foldl prefixStep prefixes l !! k).
Proof.
  revert prefixes. induction l as [|q0 l IH]; intros prefixes Hq Husable Ho;
    [by apply elem_of_nil in Hq|].
  simpl. apply elem_of_cons in Hq as [<-|Hq]; [|by apply IH].
  apply prefixLoop_keeps. rewrite prefixStep_sets by done. by eexists.
Qed.

(** X22. The default prefix cannot be overridden: when a URL is given,
    the empty prefix of the result stands for that URL followed by a hash,
    whatever the file declares. *)
Theorem prefixesFromFilepath_default (file : option string) (url : string)
    (prefixes : JS.Object) :
  url ≠ EmptyString →
  prefixesFromFilepath file (Some url) = Some prefixes →
  prefixes !! EmptyString = Some (url +:+ "#").
Proof.
  intros Hurl. unfold EventSource.prefixesFromFilepath. rewrite decide_False by done.
  assert (∀ l, foldl prefixStep {[EmptyString := url +:+ "#"]} l !! EmptyString
               = Some (url +:+ "#")) as Hloop.
  { intros l.
    destruct (prefixLoop_keeps l {[EmptyString := url +:+ "#"]} EmptyString) as [v Hv].
    { rewrite lookup_singleton_eq. by eexists. }
    rewrite Hv. apply prefixLoop_lookup in Hv as [Hv|([Hne _] & _)]; [|done].
    by rewrite lookup_singleton_eq in Hv. }
  destruct file as [content|]; simpl.
  - destruct (turtleStringToStore content) as [store|]; simpl; [|done].
    intros [= <-]. apply Hloop.
  - intros [= <-]. apply lookup_singleton_eq.
Qed.

(** X23. The other prefixes of the result are those the file declares
    with a plain string that is not empty, holds no double quote and is not
    [__proto__]; each of them stands for a namespace declared for it. *)
Theorem prefixesFromFilepath_declared (content : string) (url : option string)
    (store : list Quad) :
  turtleStringToStore content = Some store →
  ∃ prefixes,
    prefixesFromFilepath (Some content) url = Some prefixes
    ∧ ∀ k, k ≠ EmptyString →
        (is_Some (prefixes !! k) ↔ usablePrefix k ∧ ∃ v, declaresPrefix store k v)
        ∧ ∀ v, prefixes !! k = Some v → declaresPrefix store k v.
Proof.
  intros Hstore. unfold EventSource.prefixesFromFilepath. rewrite Hstore. simpl.
  eexists. split; [done|].
  set (initial := match url with
                  | Some u => if decide (u = EmptyString) then ∅ else {[EmptyString := u +:+ "#"]}
                  | None => ∅
                  end : JS.Object).
  intros k Hk.
  assert (initial !! k = None) as Hinitial.
  { unfold initial. destruct url as [u|]; [|apply lookup_empty].
    destruct (decide (u = EmptyString)); [apply lookup_empty|].
    by rewrite lookup_singleton_ne. }
  assert (∀ v, foldl prefixStep initial
                 (getQuadsByPredicate store VANN_preferredNamespacePrefix) !! k = Some v →
               usablePrefix k ∧ declaresPrefix store k v) as Hfrom.
  { intros v [Hv|(Husable & q & Hq & Ho & Hs)]%prefixLoop_lookup; [congruence|].
    split; [done|]. apply getQuadsByPredicate_elem in Hq as [Hq Hp]. by exists q. }
  split; [split|].
  - intros [v Hv]. destruct (Hfrom v Hv). eauto.
  - intros (Husable & v & q & Hq & Hp & Ho & _).
    apply (prefixLoop_sets _ _ q); [|done|done].
    by apply getQuadsByPredicate_elem.
  - intros v Hv. by apply Hfrom.
Qed.

End Prefixes.

(** X22 on a file that declares one prefix. *)
Lemma prefixesFromFilepath_default_vocabulary :
  "http://example.org/" ≠ EmptyString
  ∧ EventSource.prefixesFromFilepath Examples.vocabularyFile (Some EmptyString)
      (Some "http://example.org/")
    = Some (<[ "ex"%string := "http://example.org/ns#"%string ]>
              {[ EmptyString := "http://example.org/#"%string ]})
  ∧ (<[ "ex"%string := "http://example.org/ns#"%string ]>
       {[ EmptyString := "http://example.org/#"%string ]} : JS.Object) !! EmptyString
    = Some "http://example.org/#"%string.
Proof.
  split; [done|]. split; [reflexivity|].
  apply (prefixesFromFilepath_default Examples.vocabularyFile (Some EmptyString)
           "http://example.org/"); [done|reflexivity].
Defined.

(** X23 on a file that declares one prefix. *)
Lemma prefixesFromFilepath_declared_vocabulary :
  Examples.vocabularyFile EmptyString = Some Examples.vocabulary
  ∧ ∃ prefixes,
      EventSource.prefixesFromFilepath Examples.vocabularyFile (Some EmptyString) None
      = Some prefixes
      ∧ ∀ k, k ≠ EmptyString →
          (is_Some (prefixes !! k)
           ↔ EventSource.usablePrefix k ∧ ∃ v, EventSource.declaresPrefix Examples.vocabulary k v)
          ∧ ∀ v, prefixes !! k = Some v → EventSource.declaresPrefix Examples.vocabulary k v.
Proof.
  split; [reflexivity|].
  apply (prefixesFromFilepath_declared Examples.vocabularyFile EmptyString None
           Examples.vocabulary). reflexivity.
Defined.

(** ** The requests of addShapeToLil and addResourcesToBuckets *)

Section CommunicationProofs.
Import N3 Vocab JS EventSource.
Local Open Scope string_scope.
Local Open Scope list_scope.
Local Open Scope nat_scope.

Local Arguments String.append _ _ : simpl nomatch.

Variable respond : list Request → Request → option Response.
Variable turtleStringToStore : string → option (list Quad).
Variable storeToString : list Quad → string.
Variable writerText : JS.Object → list Statement → string.

Local Abbreviation request := (request respond).
Local Abbreviation accepted := (accepted respond).
Local Abbreviation optimisedTurtle := (optimisedTurtle writerText).
Local Abbreviation streamHasShape := (streamHasShape respond turtleStringToStore).
Local Abbreviation addShapeToLil :=
  (addShapeToLil respond turtleStringToStore storeToString writerText).
Local Abbreviation postResources := (postResources respond writerText).
Local Abbreviation addResourcesToBuckets := (addResourcesToBuckets respond writerText).
Local Abbreviation posts := (posts writerText).

Lemma failed_false (response : Response) :
  failed response = false ↔ (200 ≤ status response ≤ 299)%Z.
Proof. unfold failed. rewrite bool_decide_eq_false. lia. Qed.

(** X24. [addShapeToLil] asks [streamHasShape], which sends one GET of
    the metadata.  When that answers that a shape is present, nothing more
    is sent and the result is [false]; when it throws, so does
    [addShapeToLil].  When it answers that no shape is present and the
    shape can be serialized, the shape is PUT; the PATCH of the metadata
    follows exactly when the server accepted the PUT, and the result is
    [true] exactly when it accepted both requests; in every other case
    [addShapeToLil] throws. *)
Theorem addShapeToLil_protocol (eventStreamURI : string) (shape : list Quad)
    (resourcePrefixes : JS.Object) (shapeLocation : string) (sent : list Request) :
  let eventStreamURL := (splitPair "#" eventStreamURI).1 in
  let eventStreamID := (splitPair "#" eventStreamURI).2 in
  let meta := GET (eventStreamURL +:+ ".meta") in
  let put := PUT (eventStreamURL +:+ shapeLocation) in
  let patch :=
    PATCH (eventStreamURL +:+ ".meta")
      ("INSERT DATA {"
       +:+ storeToString (updateStore eventStreamURI eventStreamURL shapeLocation) +:+ "}") in
  let check := streamHasShape eventStreamURL eventStreamID sent in
  let run := addShapeToLil eventStreamURI shape resourcePrefixes shapeLocation sent in
  check.1 = sent ++ [meta]
  ∧ (check.2 = Some true → run = (sent ++ [meta], Some false))
  ∧ (check.2 = None → run = (sent ++ [meta], None))
  ∧ (check.2 = Some false →
       match optimisedTurtle shape (shapePrefixes resourcePrefixes eventStreamURL) with
       | None => run = (sent ++ [meta], None)
       | Some content =>
           (¬ accepted (sent ++ [meta]) (put content) →
              run = (sent ++ [meta; put content], None))
           ∧ (accepted (sent ++ [meta]) (put content) →
                run.1 = sent ++ [meta; put content; patch]
                ∧ (accepted (sent ++ [meta; put content]) patch → run.2 = Some true)
                ∧ (¬ accepted (sent ++ [meta; put content]) patch → run.2 = None))
       end)
  ∧ (run.2 = Some false → check.2 = Some true)
  ∧ (run.2 = Some true →
       check.2 = Some false
       ∧ ∃ content,
           optimisedTurtle shape (shapePrefixes resourcePrefixes eventStreamURL) = Some content
           ∧ accepted (sent ++ [meta]) (put content)
           ∧ accepted (sent ++ [meta; put content]) patch).
Proof.
  intros eventStreamURL eventStreamID meta put patch check run.
  subst check run eventStreamURL eventStreamID.
  unfold EventSource.addShapeToLil.
  destruct (splitPair "#" eventStreamURI) as [eventStreamURL sid]. cbn [fst snd] in *.
  unfold bind, EventSource.streamHasShape, bind, EventSource.request, lift, ret, throw.
  fold meta. fold patch.
  destruct (respond sent meta) as [response|]; cbn [fst snd];
    [|repeat split; try done; intros; done].
  destruct (turtleStringToStore (text response)) as [store|]; cbn [fst snd];
    [|repeat split; try done; intros; done].
  destruct (bool_decide _); cbn [fst snd]; [repeat split; try done; intros; done|].
  split; [done|].
  destruct (optimisedTurtle shape _) as [content|] eqn:Hcontent; cbn [fst snd].
  2:{ repeat split; try done; intros; done. }
  fold (put content).
  assert (∀ r : Request, (sent ++ [meta]) ++ [r] = sent ++ [meta; r]) as Htwo.
  { intros r. by rewrite <- app_assoc. }
  assert (∀ r r' : Request, (sent ++ [meta; r]) ++ [r'] = sent ++ [meta; r; r']) as Hthree.
  { intros r r'. by rewrite <- !app_assoc. }
  assert (∀ history r answer,
            respond history r = Some answer → failed answer = false → accepted history r)
    as Hyes.
  { intros history r answer Hr Hok. exists answer. split; [done|]. by apply failed_false. }
  assert (∀ history r,
            match respond history r with
            | Some answer => failed answer = true
            | None => True
            end → ¬ accepted history r) as Hno.
  { intros history r Hbad (answer & Hr & Hok). rewrite Hr in Hbad.
    apply failed_false in Hok. congruence. }
  destruct (respond (sent ++ [meta]) (put content)) as [response1|] eqn:Hput; cbn [fst snd].
  2:{ rewrite Htwo. pose proof (Hno (sent ++ [meta]) (put content)) as Hbad.
      rewrite Hput in Hbad. specialize (Hbad I).
      repeat split; try done; intros; done. }
  destruct (failed response1) eqn:Hfailed1; cbn [fst snd].
  { rewrite Htwo. pose proof (Hno (sent ++ [meta]) (put content)) as Hbad.
    rewrite Hput in Hbad. specialize (Hbad Hfailed1).
    repeat split; try done; intros; done. }
  pose proof (Hyes _ _ _ Hput Hfailed1) as Hputok.
  rewrite Htwo.
  destruct (respond (sent ++ [meta; put content]) patch) as [response2|] eqn:Hpatch;
    cbn [fst snd]; rewrite Hthree.
  2:{ pose proof (Hno (sent ++ [meta; put content]) patch) as Hbad.
      rewrite Hpatch in Hbad. specialize (Hbad I).
      repeat split; try done; intros; done. }
  destruct (failed response2) eqn:Hfailed2; cbn [fst snd].
  { pose proof (Hno (sent ++ [meta; put content]) patch) as Hbad.
    rewrite Hpatch in Hbad. specialize (Hbad Hfailed2).
    repeat split; try done; intros; done. }
  pose proof (Hyes _ _ _ Hpatch Hfailed2) as Hpatchok.
  repeat split; try done; intros; try done. by exists content.
Qed.

(** X25. The subject whose shape [addShapeToLil] looks for is the URI of
    the stream exactly when that URI holds one hash; for any other URI the
    shape is looked for on a subject that differs from the one the shape
    is then attached to. *)
Theorem streamSubject_round_trip (eventStreamURI : string) :
  streamSubject (splitPair "#" eventStreamURI).1 (splitPair "#" eventStreamURI).2
  = eventStreamURI
  ↔ occurrences "#" eventStreamURI = 1.
Proof.
  pose proof (join_split "#" eventStreamURI) as Hjoin.
  pose proof (length_split "#" eventStreamURI) as Hlen.
  unfold splitPair, streamSubject.
  destruct (split "#" eventStreamURI) as [|a [|b [|c rest]]]; simpl in Hlen; [done|..];
    cbn [fst snd head template default from_option].
  - simpl in Hjoin. subst a. split; [|lia]. intros Heq.
    apply (f_equal String.length) in Heq. rewrite length_append in Heq. simpl in Heq. lia.
  - simpl in Hjoin. split; [lia|]. intros _. exact Hjoin.
  - split; [|lia]. intros Heq. exfalso. rewrite <- Hjoin in Heq.
    change (join "#" (a :: b :: c :: rest))
      with (a +:+ "#" +:+ (b +:+ "#" +:+ join "#" (c :: rest))) in Heq.
    apply (f_equal String.length) in Heq. rewrite !length_append in Heq.
    simpl in Heq. lia.
Qed.

Lemma postResources_all (containerURL : string) (resources : list (list Quad))
    (prefixes : JS.Object) (sent : list Request) :
  (∀ sent' r, is_Some (respond sent' r)) →
  (∀ resource, resource ∈ resources → is_Some (resourceToOptimisedTurtle resource)) →
  postResources containerURL resources prefixes sent
  = (sent ++ omap (λ resource, POST containerURL <$> optimisedTurtle resource prefixes) resources,
     Some tt)
  ∧ length (omap (λ resource, POST containerURL <$> optimisedTurtle resource prefixes) resources)
    = length resources.
Proof.
  intros Hanswers. revert sent.
  induction resources as [|resource rest IH]; intros sent Hall; simpl.
  - unfold ret. by rewrite app_nil_r.
  - destruct (Hall resource (list_elem_of_here _ _)) as [out Hout].
    assert (optimisedTurtle resource prefixes = Some (writerText prefixes out)) as Htext.
    { unfold EventSource.optimisedTurtle. by rewrite Hout. }
    rewrite Htext. cbn [fmap option_fmap option_map lift].
    unfold bind at 1, ret at 1. unfold bind at 1, EventSource.request.
    destruct (Hanswers sent (POST containerURL (writerText prefixes out))) as [response ->].
    destruct (IH (sent ++ [POST containerURL (writerText prefixes out)])) as [Hrun Hlen].
    { intros r Hr. by apply Hall, list_elem_of_further. }
    rewrite Hrun. simpl. split; [by rewrite <- app_assoc|]. f_equal. exact Hlen.
Qed.

(** X26. When every resource can be written and the server answers every
    request, [addResourcesToBuckets] posts every resource of every bucket
    to the URL of its bucket, in order, one request for each resource, and
    returns, whatever the status of the answers. *)
Theorem addResourcesToBuckets_posts_all (bucketResources : list (string * list (list Quad)))
    (prefixes : JS.Object) (sent : list Request) :
  (∀ sent' r, is_Some (respond sent' r)) →
  (∀ containerURL resources resource,
     (containerURL, resources) ∈ bucketResources → resource ∈ resources →
     is_Some (resourceToOptimisedTurtle resource)) →
  addResourcesToBuckets bucketResources prefixes sent
  = (sent ++ posts bucketResources prefixes, Some tt)
  ∧ length (posts bucketResources prefixes)
    = sum_list (map (λ entry, length entry.2) bucketResources).
Proof.
  intros Hanswers. revert sent.
  induction bucketResources as [|[containerURL resources] rest IH]; intros sent Hall; simpl.
  - unfold ret. by rewrite app_nil_r.
  - destruct (postResources_all containerURL resources prefixes sent Hanswers) as [Hposted Hlen].
    { intros resource Hr. apply (Hall containerURL resources); [apply list_elem_of_here|done]. }
    unfold bind. rewrite Hposted.
    destruct (IH (sent ++ omap (λ resource, POST containerURL <$> optimisedTurtle resource prefixes)
                            resources)) as [-> Hrest].
    { intros url rs r Hin. apply (Hall url rs). by apply list_elem_of_further. }
    unfold EventSource.posts in *. simpl.
    rewrite <- app_assoc, length_app, Hlen, Hrest. done.
Qed.

End CommunicationProofs.

(** X26 on one bucket with two resources and a server that refuses every
    request. *)
Lemma addResourcesToBuckets_posts_all_refused :
  (∀ (sent' : list EventSource.Request) (r : EventSource.Request),
     is_Some (Examples.refuse sent' r))
  ∧ EventSource.addResourcesToBuckets Examples.refuse Examples.noWriterText
      [("http://localhost:3000/ldes/0/"%string, [Examples.measurement; Examples.observation])]
      ∅ []
    = ([] ++ EventSource.posts Examples.noWriterText
               [("http://localhost:3000/ldes/0/"%string,
                 [Examples.measurement; Examples.observation])] ∅,
       Some tt)
  ∧ length (EventSource.posts Examples.noWriterText
              [("http://localhost:3000/ldes/0/"%string,
                [Examples.measurement; Examples.observation])] ∅)
    = sum_list (map (λ entry, length entry.2)
                  [("http://localhost:3000/ldes/0/"%string,
                    [Examples.measurement; Examples.observation])]).
Proof.
  assert (∀ (sent' : list EventSource.Request) (r : EventSource.Request),
            is_Some (Examples.refuse sent' r)) as Hanswers.
  { intros sent' r. by eexists. }
  split; [exact Hanswers|].
  apply (addResourcesToBuckets_posts_all Examples.refuse Examples.noWriterText
           [("http://localhost:3000/ldes/0/"%string, [Examples.measurement; Examples.observation])]
           ∅ [] Hanswers).
  intros containerURL resources resource [= -> ->]%list_elem_of_singleton Hr.
  apply elem_of_cons in Hr as [->|Hr]; [by eexists|].
  apply list_elem_of_singleton in Hr as ->. by eexists.
Defined.
